(** * Supply-chain graph RAG: ingestion, retrieval, generation and chat loop

    A shallow embedding of [load_data.py], [app.py] and [test_connection.py].

    The Python code is a thin layer over three external services: a
    labelled-property graph store driven through Cypher query strings, a
    sentence-embedding model and a hosted text-generation model.  The
    development has two layers.

    - The store layer gives each Cypher query string of the source a
      meaning as a function on an in-memory graph ([MERGE], [SET],
      [MATCH], [OPTIONAL MATCH], [ORDER BY], [LIMIT], [collect(DISTINCT)]).
    - The script layer models the Python control flow (sessions opened
      with [with], [try]/[except]/[finally], loops over fixtures, the chat
      handler) in a state-and-exception monad whose state carries the
      graph, a schedule of external failures and a trace of the calls that
      were made. *)

From stdpp Require Import base gmap strings list sorting.
From Stdlib Require Import ZArith Lia.

Open Scope string_scope.
Open Scope list_scope.

(** ** Numbers

    Prices, capacities, distances and the components of an embedding are
    floating-point numbers in the source.  The code only adds and multiplies
    them (the inline dot product) and lets the store order them
    ([ORDER BY]), so they are kept abstract behind this interface. *)

Class Numeric (num : Type) := {
  nzero : num;
  nadd : num -> num -> num;
  nmul : num -> num -> num;
  nleb : num -> num -> bool
}.

#[export] Instance Z_numeric : Numeric Z := {|
  nzero := 0%Z; nadd := Z.add; nmul := Z.mul; nleb := Z.leb
|}.

(** ** The graph store *)

Inductive label := Product | Supplier | Warehouse.
Inductive reltype := SUPPLIES | STORED_AT | CONNECTED_TO.

#[export] Instance label_eq_dec : EqDecision label.
Proof. solve_decision. Defined.
#[export] Instance reltype_eq_dec : EqDecision reltype.
Proof. solve_decision. Defined.

(** A [RETURN] that aggregates and has no [ORDER BY] of its own hands its
    groups back in an order the query does not set: the store gives the
    same groups, in an order of its choice.  [group_order] is that choice,
    made on the list of the grouping keys in the order in which the rows
    reach the [RETURN]. *)
Class GroupOrder := {
  group_order :
    list (option string * option string)
    -> list (option string * option string);
  group_order_perm : forall ks, group_order ks ≡ₚ ks
}.

Section Store.
Context {num : Type} `{Numeric num} `{GroupOrder}.

(** A node carries a label and its properties: the text-valued ones
    ([id], [name], [description], [category], [location],
    [specialization]), the numeric ones ([price], [capacity]) and the
    [description_embedding] vector.  A key that is absent reads as [null].
    The store gives every node an identity of its own; here it is the
    position of the node in [g_nodes] (the program never deletes). *)
Record node := Node {
  n_label : label;
  n_props : gmap string string;
  n_nums : gmap string num;
  n_embedding : option (list num)
}.

Record edge := Edge {
  e_type : reltype;
  e_src : nat;
  e_dst : nat;
  e_nums : gmap string num
}.

Record graph := Graph {
  g_nodes : list node;
  g_edges : list edge;
  g_vector_index : bool
}.

Definition empty_graph : graph := Graph [] [] false.

Definition node_count (g : graph) : nat := length (g_nodes g).
Definition edge_count (g : graph) : nat := length (g_edges g).

(** *** Fixture records (the five JSON files)

    Every record has the keys its query names.  A JSON [null] is [None];
    the store drops a property that is set to [null].  Ids are the strings
    the fixtures use as merge keys, and a product description is the text
    handed to the embedding model. *)
Record product_rec := ProductRec {
  p_id : string;
  p_name : option string;
  p_description : string;
  p_price : option num;
  p_category : option string
}.

Record supplier_rec := SupplierRec {
  s_id : string;
  s_name : option string;
  s_location : option string;
  s_specialization : option string
}.

Record warehouse_rec := WarehouseRec {
  wh_id : string;
  wh_name : option string;
  wh_location : option string;
  wh_capacity : option num
}.

Record route_rec := RouteRec {
  r_from : string;
  r_to : string;
  r_distance : option num;
  r_duration : option num
}.

Record relationship_rec := RelationshipRec {
  supplier_id : string;
  product_id : string;
  warehouse_id : string
}.

Record fixtures := Fixtures {
  products : list product_rec;
  suppliers : list supplier_rec;
  warehouses : list warehouse_rec;
  routes : list route_rec;
  relationships : list relationship_rec
}.

(** *** Cypher building blocks *)

(** [SET x.k = v]: a [null] value removes the property. *)
Definition set_prop {V : Type} (k : string) (v : option V)
    (m : gmap string V) : gmap string V :=
  match v with
  | Some x => <[k := x]> m
  | None => delete k m
  end.

(** The node pattern [(x:L {id: i})]. *)
Definition is_node (l : label) (i : string) (n : node) : bool :=
  bool_decide (n_label n = l) && bool_decide (n_props n !! "id" = Some i).

(** [MATCH (x:L {id: i})]: the identities of the matching nodes. *)
Fixpoint match_from (l : label) (i : string) (k : nat) (ns : list node)
    : list nat :=
  match ns with
  | [] => []
  | n :: ns' =>
      if is_node l i n then k :: match_from l i (S k) ns'
      else match_from l i (S k) ns'
  end.

Definition match_nodes (l : label) (i : string) (g : graph) : list nat :=
  match_from l i 0 (g_nodes g).

(** [MERGE (x:L {id: i}) SET ...]: when nodes match, the [SET] is applied
    to each of them; otherwise one node is created with the label and the
    id, and the [SET] is applied to it. *)
Definition merge_node (l : label) (i : string) (upd : node -> node)
    (g : graph) : graph :=
  match match_nodes l i g with
  | [] =>
      Graph (g_nodes g ++ [upd (Node l {["id" := i]} ∅ None)])
            (g_edges g) (g_vector_index g)
  | _ :: _ =>
      Graph ((fun n => if is_node l i n then upd n else n) <$> g_nodes g)
            (g_edges g) (g_vector_index g)
  end.

(** The relationship pattern [(s)-[:T]->(d)] for bound endpoints. *)
Definition is_edge (t : reltype) (s d : nat) (e : edge) : bool :=
  bool_decide (e_type e = t) && Nat.eqb (e_src e) s && Nat.eqb (e_dst e) d.

(** [MERGE (s)-[r:T]->(d) SET ...] on one row. *)
Definition merge_edge (t : reltype) (upd : edge -> edge) (g : graph)
    (sd : nat * nat) : graph :=
  if existsb (is_edge t sd.1 sd.2) (g_edges g)
  then Graph (g_nodes g)
             ((fun e => if is_edge t sd.1 sd.2 e then upd e else e)
                <$> g_edges g)
             (g_vector_index g)
  else Graph (g_nodes g)
             (g_edges g ++ [upd (Edge t sd.1 sd.2 ∅)])
             (g_vector_index g).

(** Two [MATCH] clauses followed by a [MERGE]: the merge runs once per
    row of the product of the two matches, each row seeing the writes of
    the rows before it.  No row, no write. *)
Definition merge_edges (t : reltype) (upd : edge -> edge)
    (srcs dsts : list nat) (g : graph) : graph :=
  fold_left (merge_edge t upd) (list_prod srcs dsts) g.

(** *** The write queries of [load_data.py] *)

(** [CREATE VECTOR INDEX product_description_embeddings IF NOT EXISTS ...] *)
Definition q_create_index (g : graph) : graph :=
  Graph (g_nodes g) (g_edges g) true.

(** [MERGE (p:Product {id: $id}) SET p.name = $name, p.description =
    $description, p.price = $price, p.category = $category,
    p.description_embedding = $embedding] *)
Definition set_product (r : product_rec) (embedding : list num) (n : node)
    : node :=
  Node (n_label n)
       (set_prop "category" (p_category r)
          (set_prop "description" (Some (p_description r))
             (set_prop "name" (p_name r) (n_props n))))
       (set_prop "price" (p_price r) (n_nums n))
       (Some embedding).

Definition q_merge_product (r : product_rec) (embedding : list num)
    : graph -> graph :=
  merge_node Product (p_id r) (set_product r embedding).

(** [MERGE (s:Supplier {id: $id}) SET s.name = $name, s.location =
    $location, s.specialization = $specialization] *)
Definition set_supplier (r : supplier_rec) (n : node) : node :=
  Node (n_label n)
       (set_prop "specialization" (s_specialization r)
          (set_prop "location" (s_location r)
             (set_prop "name" (s_name r) (n_props n))))
       (n_nums n)
       (n_embedding n).

Definition q_merge_supplier (r : supplier_rec) : graph -> graph :=
  merge_node Supplier (s_id r) (set_supplier r).

(** [MERGE (w:Warehouse {id: $id}) SET w.name = $name, w.location =
    $location, w.capacity = $capacity] *)
Definition set_warehouse (r : warehouse_rec) (n : node) : node :=
  Node (n_label n)
       (set_prop "location" (wh_location r)
          (set_prop "name" (wh_name r) (n_props n)))
       (set_prop "capacity" (wh_capacity r) (n_nums n))
       (n_embedding n).

Definition q_merge_warehouse (r : warehouse_rec) : graph -> graph :=
  merge_node Warehouse (wh_id r) (set_warehouse r).

(** [MATCH (w1:Warehouse {id: $from}) MATCH (w2:Warehouse {id: $to})
    MERGE (w1)-[r:CONNECTED_TO]->(w2)
    SET r.distance = $distance, r.duration = $duration] *)
Definition set_route (r : route_rec) (e : edge) : edge :=
  Edge (e_type e) (e_src e) (e_dst e)
       (set_prop "duration" (r_duration r)
          (set_prop "distance" (r_distance r) (e_nums e))).

Definition q_merge_route (r : route_rec) (g : graph) : graph :=
  merge_edges CONNECTED_TO (set_route r)
    (match_nodes Warehouse (r_from r) g)
    (match_nodes Warehouse (r_to r) g) g.

(** [MATCH (s:Supplier {id: $supplier_id})
    MATCH (p:Product {id: $product_id}) MERGE (s)-[:SUPPLIES]->(p)] *)
Definition q_merge_supplies (r : relationship_rec) (g : graph) : graph :=
  merge_edges SUPPLIES id
    (match_nodes Supplier (supplier_id r) g)
    (match_nodes Product (product_id r) g) g.

(** [MATCH (p:Product {id: $product_id})
    MATCH (w:Warehouse {id: $warehouse_id}) MERGE (p)-[:STORED_AT]->(w)] *)
Definition q_merge_stored_at (r : relationship_rec) (g : graph) : graph :=
  merge_edges STORED_AT id
    (match_nodes Product (product_id r) g)
    (match_nodes Warehouse (warehouse_id r) g) g.

(** *** The similarity query of [app.py]

    Cypher arithmetic on [null] gives [null]; an index past the end of a
    list reads [null]. *)
Definition cy_add (a b : option num) : option num :=
  match a, b with
  | Some x, Some y => Some (nadd x y)
  | _, _ => None
  end.

Definition cy_mul (a b : option num) : option num :=
  match a, b with
  | Some x, Some y => Some (nmul x y)
  | _, _ => None
  end.

(** [range(lo, hi)]: both ends included, empty when [hi < lo]. *)
Definition cy_range (lo hi : Z) : list Z :=
  (fun k => (lo + Z.of_nat k)%Z) <$> seq 0 (Z.to_nat (hi - lo + 1)).

(** [l[i]]: a negative index counts from the end. *)
Definition cy_index (l : list num) (i : Z) : option num :=
  if (i <? 0)%Z
  then (if (Z.of_nat (length l) + i <? 0)%Z then None
        else l !! Z.to_nat (Z.of_nat (length l) + i))
  else l !! Z.to_nat i.

(** [reduce(s = 0, i in range(0, size(e)-1) | s + e[i] * $embedding[i])] *)
Definition similarity (e q : list num) : option num :=
  fold_left (fun s i => cy_add s (cy_mul (cy_index e i) (cy_index q i)))
            (cy_range 0 (Z.of_nat (length e) - 1))
            (Some nzero).

(** The dot product of two vectors, accumulated from the left over their
    common prefix. *)
Definition dot_product (e q : list num) : num :=
  fold_left (fun s ab => nadd s (nmul ab.1 ab.2)) (zip e q) nzero.

(** [ORDER BY similarity DESC]: [null] sorts before every number when the
    order is descending.  [desc_leb a b] holds when [a] may stand before
    [b]. *)
Definition desc_leb (a b : option num) : bool :=
  match a, b with
  | None, _ => true
  | Some _, None => false
  | Some x, Some y => nleb y x
  end.

(** A row of the first part of the query: the node [p] (identity and
    content) and its [similarity]. *)
Record scored := Scored {
  sc_id : nat;
  sc_node : node;
  sc_similarity : option num
}.

(** [MATCH (p:Product) WHERE p.description_embedding IS NOT NULL
    WITH p, reduce(...) AS similarity] *)
Fixpoint candidates_from (q : list num) (k : nat) (ns : list node)
    : list scored :=
  match ns with
  | [] => []
  | n :: ns' =>
      match n_label n, n_embedding n with
      | Product, Some e =>
          Scored k n (similarity e q) :: candidates_from q (S k) ns'
      | _, _ => candidates_from q (S k) ns'
      end
  end.

Definition candidates (q : list num) (g : graph) : list scored :=
  candidates_from q 0 (g_nodes g).

(** The store does not say how it orders rows with equal keys; the model
    sorts by insertion, and no statement depends on where it puts them. *)
Fixpoint insert_desc (x : scored) (l : list scored) : list scored :=
  match l with
  | [] => [x]
  | y :: l' =>
      if desc_leb (sc_similarity y) (sc_similarity x)
      then y :: insert_desc x l'
      else x :: l
  end.

Fixpoint order_by_similarity_desc (l : list scored) : list scored :=
  match l with
  | [] => []
  | x :: l' => insert_desc x (order_by_similarity_desc l')
  end.

(** [... ORDER BY similarity DESC LIMIT 3] *)
Definition ranked (q : list num) (g : graph) : list scored :=
  take 3 (order_by_similarity_desc (candidates q g)).

(** The rows the query hands back to Python: [product_name],
    [product_description] and the two collected lists.  Every collected
    map also has a constant [type] entry ('SUPPLIES', 'STORED_AT') that
    the Python code never reads. *)
Record supplier_entry := SupplierEntry {
  se_name : option string
}.

Record warehouse_entry := WarehouseEntry {
  we_name : option string;
  we_location : option string
}.

Record record := Record_ {
  product_name : option string;
  product_description : option string;
  rec_suppliers : list supplier_entry;
  rec_warehouses : list warehouse_entry
}.

#[export] Instance supplier_entry_eq_dec : EqDecision supplier_entry.
Proof. solve_decision. Defined.
#[export] Instance warehouse_entry_eq_dec : EqDecision warehouse_entry.
Proof. solve_decision. Defined.

(** [OPTIONAL MATCH (p)<-[:SUPPLIES]-(s:Supplier)]: one row per matching
    relationship, in the order of [g_edges]; a single row with [s = null]
    when there is none. *)
Definition optional_rows (found : list node) : list (option node) :=
  match found with
  | [] => [None]
  | _ :: _ => Some <$> found
  end.

Definition neighbour (g : graph) (l : label) (k : nat) : list node :=
  match g_nodes g !! k with
  | Some n => if bool_decide (n_label n = l) then [n] else []
  | None => []
  end.

Definition suppliers_of (g : graph) (p : nat) : list (option node) :=
  optional_rows
    (e ← g_edges g;
     if bool_decide (e_type e = SUPPLIES) && Nat.eqb (e_dst e) p
     then neighbour g Supplier (e_src e) else []).

(** [OPTIONAL MATCH (p)-[:STORED_AT]->(w:Warehouse)] *)
Definition warehouses_of (g : graph) (p : nat) : list (option node) :=
  optional_rows
    (e ← g_edges g;
     if bool_decide (e_type e = STORED_AT) && Nat.eqb (e_src e) p
     then neighbour g Warehouse (e_dst e) else []).

(** Reading a property of a possibly [null] node. *)
Definition prop_of (k : string) (n : option node) : option string :=
  n ≫= fun x => n_props x !! k.

(** A row after the two optional matches, projected on what [RETURN]
    uses: the grouping key [(p.name, p.description)] and the two maps to
    collect. *)
Definition joined_rows (g : graph) (ps : list scored)
    : list ((option string * option string)
            * supplier_entry * warehouse_entry) :=
  p ← ps;
  s ← suppliers_of g (sc_id p);
  w ← warehouses_of g (sc_id p);
  [((n_props (sc_node p) !! "name", n_props (sc_node p) !! "description"),
    SupplierEntry (prop_of "name" s),
    WarehouseEntry (prop_of "name" w) (prop_of "location" w))].

(** [DISTINCT], keeping the first occurrence of each value. *)
Fixpoint distinct {A : Type} `{EqDecision A} (seen l : list A) : list A :=
  match l with
  | [] => []
  | x :: l' =>
      if bool_decide (x ∈ seen) then distinct seen l'
      else x :: distinct (x :: seen) l'
  end.

(** [RETURN p.name, p.description, collect(DISTINCT ...), collect(DISTINCT
    ...)]: the rows are grouped by the two non-aggregated columns, and the
    groups are handed back in the order the store chooses. *)
Definition aggregate
    (rows : list ((option string * option string)
                  * supplier_entry * warehouse_entry)) : list record :=
  (fun k =>
     let grp := filter (fun r => r.1.1 = k) rows in
     Record_ k.1 k.2
             (distinct [] ((fun r => r.1.2) <$> grp))
             (distinct [] ((fun r => r.2) <$> grp)))
  <$> group_order (distinct [] ((fun r => r.1.1) <$> rows)).

(** The whole query of [get_relevant_context], for the parameter
    [$embedding = q]. *)
Definition q_similarity (q : list num) (g : graph) : list record :=
  aggregate (joined_rows g (ranked q g)).

(** *** Queries as data *)

Inductive query :=
  | QCreateIndex
  | QMergeProduct (r : product_rec) (embedding : list num)
  | QMergeSupplier (r : supplier_rec)
  | QMergeWarehouse (r : warehouse_rec)
  | QMergeRoute (r : route_rec)
  | QMergeSupplies (r : relationship_rec)
  | QMergeStoredAt (r : relationship_rec)
  | QSimilarity (embedding : list num)
  | QReturnOne.

(** The graph after the query. *)
Definition query_write (q : query) (g : graph) : graph :=
  match q with
  | QCreateIndex => q_create_index g
  | QMergeProduct r e => q_merge_product r e g
  | QMergeSupplier r => q_merge_supplier r g
  | QMergeWarehouse r => q_merge_warehouse r g
  | QMergeRoute r => q_merge_route r g
  | QMergeSupplies r => q_merge_supplies r g
  | QMergeStoredAt r => q_merge_stored_at r g
  | QSimilarity _ => g
  | QReturnOne => g
  end.

(** The rows of the query; only the similarity query is read by the
    program through this type. *)
Definition query_rows (q : query) (g : graph) : list record :=
  match q with
  | QSimilarity e => q_similarity e g
  | _ => []
  end.

End Store.

Arguments node : clear implicits.
Arguments edge : clear implicits.
Arguments graph : clear implicits.
Arguments product_rec : clear implicits.
Arguments warehouse_rec : clear implicits.
Arguments route_rec : clear implicits.
Arguments fixtures : clear implicits.
Arguments scored : clear implicits.
Arguments query : clear implicits.

(** ** The Python layer *)

(** *** Text helpers *)

Definition newline : string := String (Ascii.ascii_of_nat 10) EmptyString.

(** [str(x)] inside an f-string, for a text value that may be [None]. *)
Definition py_str (o : option string) : string :=
  match o with
  | Some s => s
  | None => "None"
  end.

(** Truth value of a text value: [None] and the empty string are false. *)
Definition truthy (o : option string) : bool :=
  match o with
  | Some EmptyString => false
  | Some _ => true
  | None => false
  end.

(** [sep.join(lines)] *)
Definition join (sep : string) (lines : list string) : string :=
  String.concat sep lines.

(** A text is held as the bytes of its UTF-8 encoding; a character is
    one to four of these bytes. *)
Definition utf8 (s : string) : list Ascii.ascii :=
  String.list_ascii_of_string s.
Definition of_utf8 (l : list Ascii.ascii) : string :=
  String.string_of_list_ascii l.

(** The characters [str.strip()] removes, which are those [str.isspace()]
    holds for, each as the bytes of its encoding: U+0009 to U+000D, U+001C
    to U+0020, U+0085, U+00A0, U+1680, U+2000 to U+200A, U+2028, U+2029,
    U+202F, U+205F and U+3000. *)
Definition whitespace : list (list Ascii.ascii) :=
  (fun codes : list nat => Ascii.ascii_of_nat <$> codes)
  <$> [[9]; [10]; [11]; [12]; [13]; [28]; [29]; [30]; [31]; [32];
       [194; 133]; [194; 160]; [225; 154; 128];
       [226; 128; 128]; [226; 128; 129]; [226; 128; 130]; [226; 128; 131];
       [226; 128; 132]; [226; 128; 133]; [226; 128; 134]; [226; 128; 135];
       [226; 128; 136]; [226; 128; 137]; [226; 128; 138];
       [226; 128; 168]; [226; 128; 169]; [226; 128; 175];
       [226; 129; 159]; [227; 128; 128]].

Definition is_space (ch : list Ascii.ascii) : bool :=
  bool_decide (ch ∈ whitespace).

(** The bytes left when the characters [sp] accepts are taken off the
    front, one after the other.  A character that is accepted has one,
    two or three bytes. *)
Fixpoint lstrip_with (sp : list Ascii.ascii -> bool) (l : list Ascii.ascii)
    : list Ascii.ascii :=
  match l with
  | [] => []
  | a :: l1 =>
      if sp [a] then lstrip_with sp l1
      else match l1 with
           | [] => l
           | b :: l2 =>
               if sp [a; b] then lstrip_with sp l2
               else match l2 with
                    | [] => l
                    | c :: l3 =>
                        if sp [a; b; c] then lstrip_with sp l3 else l
                    end
           end
  end.

Definition lstrip_bytes (l : list Ascii.ascii) : list Ascii.ascii :=
  lstrip_with is_space l.

(** The same from the end: the bytes are read backwards. *)
Definition rstrip_bytes (l : list Ascii.ascii) : list Ascii.ascii :=
  rev (lstrip_with (fun ch => is_space (rev ch)) (rev l)).

Definition lstrip (s : string) : string := of_utf8 (lstrip_bytes (utf8 s)).
Definition rstrip (s : string) : string := of_utf8 (rstrip_bytes (utf8 s)).

(** [s.strip()] *)
Definition strip (s : string) : string := rstrip (lstrip s).


(** *** Exceptions, events and the state of a run *)

(** The exceptions the scripts can meet; all of them are subclasses of
    [Exception].  [StoreError] stands for whatever the graph driver
    raises, [ModelError] for the embedding library, [ApiError] for the
    generation client. *)
Inductive exn :=
  | StoreError
  | ModelError
  | ApiError
  | NameError (name : string)
  | AttributeError (name : string)
  | ValueError (msg : string).

Inductive outcome (A : Type) :=
  | Ret (a : A)
  | Raise (e : exn).
Arguments Ret {A} a.
Arguments Raise {A} e.

(** What [model.generate_content] does with a prompt: it raises, it gives
    a response without usable text, or it gives a response with text. *)
Inductive gen_reply :=
  | GenRaise
  | GenNoText
  | GenText (text : string).

Inductive role := User | Assistant.

Record message := Message {
  m_role : role;
  m_content : string
}.

Section Script.
Context {num : Type} `{Numeric num} `{GroupOrder}.

(** What a run does that is seen from outside, in the order it is done:
    calls to the graph driver, to the embedding library and to the
    generation client, and the messages it logs or prints about their
    results.  The progress messages of the scripts ("Loading products..."
    and the like) are not recorded. *)
Inductive event :=
  | EvDriverOpen (uri user pw : option string)
  | EvDriverClose
  | EvSessionOpen
  | EvSessionClose
  | EvRun (q : query num)
  | EvModelLoad
  | EvEncode (text : string)
  | EvConfigure (api_key : option string)
  | EvGenerate (prompt : string)
  | EvError (what : string) (e : exn)
  | EvPrint (text : string).

(** The state a run threads through: the graph held by the store, the
    schedule of external failures (one entry is consumed by each call to
    the driver or to the embedding library; [true] makes the call raise,
    and an exhausted schedule means no further failure), the embedding
    model and the generation model as functions of their input, the
    conversation kept in [st.session_state], and the trace. *)
Record world := World {
  w_graph : graph num;
  w_faults : list bool;
  w_encode : string -> list num;
  w_gemini : string -> gen_reply;
  w_messages : option (list message);
  w_trace : list event
}.

Definition M (A : Type) : Type := world -> outcome A * world.

Definition ret {A : Type} (a : A) : M A := fun w => (Ret a, w).

Definition raise {A : Type} (e : exn) : M A := fun w => (Raise e, w).

Definition bind {A B : Type} (m : M A) (k : A -> M B) : M B :=
  fun w =>
    match m w with
    | (Ret a, w') => k a w'
    | (Raise e, w') => (Raise e, w')
    end.

(** [try: body  except Exception as e: handler(e)] *)
Definition try_except {A : Type} (body : M A) (handler : exn -> M A) : M A :=
  fun w =>
    match body w with
    | (Ret a, w') => (Ret a, w')
    | (Raise e, w') => handler e w'
    end.

(** [try: body  finally: cleanup]: the cleanup runs on both exits, and an
    exception of its own replaces the pending result. *)
Definition try_finally {A : Type} (body : M A) (cleanup : M unit) : M A :=
  fun w =>
    match body w with
    | (o, w') =>
        match cleanup w' with
        | (Ret _, w'') => (o, w'')
        | (Raise e, w'') => (Raise e, w'')
        end
    end.

Notation "x <- m ;; k" := (bind m (fun x => k))
  (at level 100, m at next level, right associativity).
Notation "m ;; k" := (bind m (fun _ => k))
  (at level 100, right associativity).

Definition emit (ev : event) : M unit :=
  fun w =>
    (Ret tt,
     World (w_graph w) (w_faults w) (w_encode w) (w_gemini w)
           (w_messages w) (w_trace w ++ [ev])).

(** An external call that may fail: it consumes one entry of the failure
    schedule and raises [e] when the entry says so. *)
Definition external (e : exn) : M unit :=
  fun w =>
    match w_faults w with
    | [] => (Ret tt, w)
    | b :: rest =>
        let w' := World (w_graph w) rest (w_encode w) (w_gemini w)
                        (w_messages w) (w_trace w) in
        if b then (Raise e, w') else (Ret tt, w')
    end.

(** [for x in xs: body(x)] *)
Fixpoint for_each {A : Type} (xs : list A) (body : A -> M unit) : M unit :=
  match xs with
  | [] => ret tt
  | x :: xs' => body x ;; for_each xs' body
  end.

(** *** The graph driver *)

(** [GraphDatabase.driver(uri, auth=(user, pw))] *)
Definition graph_database_driver (uri user pw : option string) : M unit :=
  external StoreError ;;
  emit (EvDriverOpen uri user pw).

(** [driver.close()]: the driver swallows socket errors when it shuts
    its pool down. *)
Definition driver_close : M unit := emit EvDriverClose.

(** [with driver.session() as session: body]: the session is released
    when the block is left, whether [body] returns or raises. *)
Definition with_session {A : Type} (body : M A) : M A :=
  emit EvSessionOpen ;;
  try_finally body (emit EvSessionClose).

(** [session.run(query, params)] together with the reading of its result. *)
Definition session_run (q : query num) : M (list record) :=
  external StoreError ;;
  emit (EvRun q) ;;
  fun w =>
    (Ret (query_rows q (w_graph w)),
     World (query_write q (w_graph w)) (w_faults w) (w_encode w)
           (w_gemini w) (w_messages w) (w_trace w)).

(** [model.encode(text)] on a loaded model. *)
Definition model_encode (text : string) : M (list num) :=
  external ModelError ;;
  emit (EvEncode text) ;;
  fun w => (Ret (w_encode w text), w).

(** [GenerativeModel('gemini-1.5-flash').generate_content(prompt)],
    returning the text of the response when it has one. *)
Definition generate_content (prompt : string) : M (option string) :=
  emit (EvGenerate prompt) ;;
  fun w =>
    match w_gemini w prompt with
    | GenRaise => (Raise ApiError, w)
    | GenNoText => (Ret None, w)
    | GenText t => (Ret (Some t), w)
    end.

(** *** [load_data.py] *)

(** Module level: the driver shared by every function of the script and
    the embedding model are created when the module is loaded.  The five
    JSON files are read there as well; their content is the [fixtures]
    argument of the functions below. *)
Definition load_data_module (env : gmap string string) : M unit :=
  graph_database_driver (env !! "NEO4J_URI") (env !! "NEO4J_USERNAME")
                        (env !! "NEO4J_PASSWORD") ;;
  external ModelError ;;
  emit EvModelLoad.

Definition load_products (fx : fixtures num) : M unit :=
  with_session (session_run QCreateIndex) ;;
  for_each (products fx) (fun product =>
    embedding <- model_encode (p_description product) ;;
    with_session (session_run (QMergeProduct product embedding)) ;;
    ret tt).

Definition load_suppliers (fx : fixtures num) : M unit :=
  with_session
    (for_each (suppliers fx) (fun supplier =>
       session_run (QMergeSupplier supplier) ;; ret tt)).

Definition load_warehouses (fx : fixtures num) : M unit :=
  with_session
    (for_each (warehouses fx) (fun warehouse =>
       session_run (QMergeWarehouse warehouse) ;; ret tt)).

Definition load_transportation_routes (fx : fixtures num) : M unit :=
  with_session
    (for_each (routes fx) (fun route =>
       session_run (QMergeRoute route) ;; ret tt)).

Definition create_relationships (fx : fixtures num) : M unit :=
  with_session
    (for_each (relationships fx) (fun rel =>
       session_run (QMergeSupplies rel) ;;
       session_run (QMergeStoredAt rel) ;;
       ret tt)).

Definition load_all_data (fx : fixtures num) : M unit :=
  load_products fx ;;
  load_suppliers fx ;;
  load_warehouses fx ;;
  load_transportation_routes fx ;;
  create_relationships fx.

(** [if __name__ == "__main__": load_all_data(); driver.close()], after
    the module-level statements. *)
Definition load_data_main (env : gmap string string) (fx : fixtures num)
    : M unit :=
  load_data_module env ;;
  load_all_data fx ;;
  driver_close.

(** *** [app.py] *)

(** Lines 72 to 88: the rows turned into lines of text.  [if
    record['suppliers']] lets a non-empty list through, and [if
    supplier['name']] is the test that drops the placeholder the query
    collects for a product without supplier. *)
Definition if_nonempty {A B : Type} (l : list A) (body : list B) : list B :=
  match l with
  | [] => []
  | _ :: _ => body
  end.

Definition render_record (r : record) : list string :=
  ["Product: " +:+ py_str (product_name r);
   "Description: " +:+ py_str (product_description r)]
  ++ if_nonempty (rec_suppliers r)
       (supplier ← rec_suppliers r;
        if truthy (se_name supplier)
        then ["Supplied by: " +:+ py_str (se_name supplier)] else [])
  ++ if_nonempty (rec_warehouses r)
       (warehouse ← rec_warehouses r;
        if truthy (we_name warehouse)
        then ["Stored at: " +:+ py_str (we_name warehouse) +:+ " in "
                +:+ py_str (we_location warehouse)]
        else [])
  ++ ["---"].

Definition render_context (result : list record) : string :=
  match result ≫= render_record with
  | [] => "No relevant context found."
  | context => join newline context
  end.

(** The module-level names the functions of [app.py] read.
    [embedding_model] is bound only when the model could be loaded. *)
Record app_globals := AppGlobals {
  uri : option string;
  username : option string;
  password : option string;
  api_key : option string;
  embedding_model : bool
}.

(** [if "messages" not in st.session_state: st.session_state.messages = []] *)
Definition init_messages : M unit :=
  fun w =>
    match w_messages w with
    | Some _ => (Ret tt, w)
    | None =>
        (Ret tt,
         World (w_graph w) (w_faults w) (w_encode w) (w_gemini w)
               (Some []) (w_trace w))
    end.

(** [st.session_state.messages.append(m)] *)
Definition append_message (m : message) : M unit :=
  fun w =>
    match w_messages w with
    | Some ms =>
        (Ret tt,
         World (w_graph w) (w_faults w) (w_encode w) (w_gemini w)
               (Some (ms ++ [m])) (w_trace w))
    | None => (Raise (AttributeError "messages"), w)
    end.

(** Lines 13 to 42, run at the start of every execution of the script. *)
Definition app_module (env : gmap string string) : M app_globals :=
  init_messages ;;
  emit (EvConfigure (env !! "GEMINI_API_KEY")) ;;
  loaded <- try_except
              (external ModelError ;; emit EvModelLoad ;; ret true)
              (fun e => emit (EvError "Error loading model" e) ;; ret false) ;;
  ret (AppGlobals (env !! "NEO4J_URI") (env !! "NEO4J_USERNAME")
                  (env !! "NEO4J_PASSWORD") (env !! "GEMINI_API_KEY") loaded).

(** [embedding_model.encode(question)]: reading the global raises
    [NameError] when the model was never bound. *)
Definition encode_question (gl : app_globals) (question : string)
    : M (list num) :=
  if embedding_model gl then model_encode question
  else raise (NameError "embedding_model").

(** The body of the [with driver.session()] block of
    [get_relevant_context]. *)
Definition retrieve_in_session (gl : app_globals) (question : string)
    : M string :=
  with_session
    (question_embedding <- encode_question gl question ;;
     result <- session_run (QSimilarity question_embedding) ;;
     ret (render_context result)).

Definition retrieval_failed (e : exn) : M string :=
  emit (EvError "Error retrieving context" e) ;;
  ret "Error retrieving context.".

(** [get_relevant_context]: the driver is created inside the [try]; the
    [finally] closes it only when the name [driver] was bound. *)
Definition get_relevant_context (gl : app_globals) (question : string)
    : M string :=
  fun w =>
    match graph_database_driver (uri gl) (username gl) (password gl) w with
    | (Raise e, w1) => retrieval_failed e w1
    | (Ret _, w1) =>
        try_finally
          (try_except (retrieve_in_session gl question) retrieval_failed)
          driver_close w1
    end.

Definition gemini_prompt (context question : string) : string :=
  "Use the following context to answer the question." +:+ newline +:+ newline
  +:+ "Context: " +:+ context +:+ newline
  +:+ "Question: " +:+ question +:+ newline
  +:+ "Answer:".

Definition generate_gemini_response (context question : string) : M string :=
  try_except
    (response <- generate_content (gemini_prompt context question) ;;
     match response with
     | Some text => ret (strip text)
     | None => ret "No response received from Gemini."
     end)
    (fun e =>
       emit (EvError "Error generating Gemini response" e) ;;
       ret "Error generating response.").

(** Lines 147 to 163: the handler of a submitted question.  The calls
    that draw the two messages on the page ([st.chat_message],
    [st.markdown]) change nothing that is modelled. *)
Definition chat_turn (gl : app_globals) (prompt : string) : M unit :=
  append_message (Message User prompt) ;;
  context <- get_relevant_context gl prompt ;;
  response <- generate_gemini_response context prompt ;;
  append_message (Message Assistant response).

(** One execution of the script; [prompt] is what [st.chat_input]
    returns ([None] when nothing was submitted). *)
Definition app_script (env : gmap string string) (prompt : option string)
    : M unit :=
  gl <- app_module env ;;
  match prompt with
  | Some p => if truthy prompt then chat_turn gl p else ret tt
  | None => ret tt
  end.

(** *** [test_connection.py] *)

Definition test_neo4j_connection (env : gmap string string) : M unit :=
  fun w =>
    match graph_database_driver (env !! "NEO4J_URI")
            (env !! "NEO4J_USERNAME") (env !! "NEO4J_PASSWORD") w with
    | (Raise e, w1) =>
        (* [finally: driver.close()] with [driver] unbound *)
        (emit (EvError "Neo4j connection error" e) ;;
         raise (NameError "driver")) w1
    | (Ret _, w1) =>
        try_finally
          (try_except
             (with_session
                (session_run QReturnOne ;;
                 emit (EvPrint "Neo4j connection successful!")))
             (fun e => emit (EvError "Neo4j connection error" e)))
          driver_close w1
    end.

Definition test_gemini_connection (env : gmap string string) : M unit :=
  try_except
    (if truthy (env !! "GEMINI_API_KEY")
     then
       emit (EvConfigure (env !! "GEMINI_API_KEY")) ;;
       response <- generate_content "Hello!" ;;
       match response with
       | Some text =>
           emit (EvPrint "Gemini API connection successful!") ;;
           emit (EvPrint ("Response: " +:+ strip text))
       | None =>
           emit (EvPrint "Gemini API connection failed: No response received")
       end
     else raise (ValueError "GEMINI_API_KEY environment variable is not set"))
    (fun e => emit (EvError "Gemini API connection error" e)).

(** *** Reading a trace *)

Definition count_event (sel : event -> bool) (t : list event) : nat :=
  length (List.filter sel t).

Definition is_driver_open (ev : event) : bool :=
  match ev with EvDriverOpen _ _ _ => true | _ => false end.
Definition is_driver_close (ev : event) : bool :=
  match ev with EvDriverClose => true | _ => false end.
Definition is_session_open (ev : event) : bool :=
  match ev with EvSessionOpen => true | _ => false end.
Definition is_session_close (ev : event) : bool :=
  match ev with EvSessionClose => true | _ => false end.
Definition is_run (ev : event) : bool :=
  match ev with EvRun _ => true | _ => false end.

End Script.

Arguments event : clear implicits.
Arguments world : clear implicits.
Arguments M : clear implicits.

Notation "x <- m ;; k" := (bind m (fun x => k))
  (at level 100, m at next level, right associativity).
Notation "m ;; k" := (bind m (fun _ => k))
  (at level 100, right associativity).

(** ** Vocabulary of the statements *)

Section Vocabulary.
Context {num : Type} `{Numeric num} `{GroupOrder}.

(** The order the ranking needs from the numbers. *)
Definition total_order : Prop :=
  forall a b : num, nleb a b = true \/ nleb b a = true.
Definition transitive_order : Prop :=
  forall a b c : num, nleb a b = true -> nleb b c = true -> nleb a c = true.

(** [x] may stand before [y] in the descending order. *)
Definition before (x y : scored num) : Prop :=
  desc_leb (sc_similarity x) (sc_similarity y) = true.

(** The grouping key of the final [RETURN]. *)
Definition group_key (p : scored num) : option string * option string :=
  (n_props (sc_node p) !! "name", n_props (sc_node p) !! "description").

(** The statements inside the [try] of [get_relevant_context], without
    the handler and the cleanup. *)
Definition retrieval_attempt (gl : app_globals) (question : string)
    : M num string :=
  graph_database_driver (uri gl) (username gl) (password gl) ;;
  retrieve_in_session gl question.

(** No external call is scheduled to fail. *)
Definition no_failure (w : world num) : Prop := w_faults w = [].

(** No Product node of the graph has an embedding. *)
Definition no_embedding (g : graph num) : Prop :=
  forall n, n ∈ g_nodes g -> n_label n = Product -> n_embedding n = None.

(** The block of one product as the specification words it: a line for
    every supplier, and for every warehouse, whose name is not null. *)
Definition spec_supplier_lines (r : record) : list string :=
  s ← rec_suppliers r;
  match se_name s with
  | Some name => ["Supplied by: " +:+ name]
  | None => []
  end.

Definition spec_warehouse_lines (r : record) : list string :=
  w ← rec_warehouses r;
  match we_name w with
  | Some name =>
      ["Stored at: " +:+ name +:+ " in " +:+ py_str (we_location w)]
  | None => []
  end.

Definition spec_block (r : record) : list string :=
  ["Product: " +:+ py_str (product_name r);
   "Description: " +:+ py_str (product_description r)]
  ++ spec_supplier_lines r ++ spec_warehouse_lines r ++ ["---"].

(** The same block with a line only for the names that are neither null
    nor empty. *)
Definition named_supplier_lines (r : record) : list string :=
  s ← rec_suppliers r;
  match se_name s with
  | Some name => if bool_decide (name = "") then []
                 else ["Supplied by: " +:+ name]
  | None => []
  end.

Definition named_warehouse_lines (r : record) : list string :=
  w ← rec_warehouses r;
  match we_name w with
  | Some name => if bool_decide (name = "") then []
                 else ["Stored at: " +:+ name +:+ " in "
                         +:+ py_str (we_location w)]
  | None => []
  end.

Definition named_block (r : record) : list string :=
  ["Product: " +:+ py_str (product_name r);
   "Description: " +:+ py_str (product_description r)]
  ++ named_supplier_lines r ++ named_warehouse_lines r ++ ["---"].

(** What identifies a node for [MATCH] and [MERGE], and an edge for
    [MERGE]. *)
Definition node_key (n : node num) : label * option string :=
  (n_label n, n_props n !! "id").

Definition edge_key (e : edge num) : reltype * nat * nat :=
  (e_type e, e_src e, e_dst e).

Definition node_keys (g : graph num) : list (label * option string) :=
  node_key <$> g_nodes g.

Definition edge_keys (g : graph num) : list (reltype * nat * nat) :=
  edge_key <$> g_edges g.

(** The write queries fall in two shapes: a node upsert, and a
    relationship merge between two matched endpoints. *)
Record node_op := NodeOp {
  no_label : label;
  no_id : string;
  no_set : node num -> node num
}.

Record edge_op := EdgeOp {
  eo_type : reltype;
  eo_set : edge num -> edge num;
  eo_src : label * string;
  eo_dst : label * string
}.

Definition run_node_op (g : graph num) (o : node_op) : graph num :=
  merge_node (no_label o) (no_id o) (no_set o) g.

Definition run_edge_op (g : graph num) (o : edge_op) : graph num :=
  merge_edges (eo_type o) (eo_set o)
    (match_nodes (eo_src o).1 (eo_src o).2 g)
    (match_nodes (eo_dst o).1 (eo_dst o).2 g) g.

Definition product_op (enc : string -> list num) (r : product_rec num)
    : node_op :=
  NodeOp Product (p_id r) (set_product r (enc (p_description r))).
Definition supplier_op (r : supplier_rec) : node_op :=
  NodeOp Supplier (s_id r) (set_supplier r).
Definition warehouse_op (r : warehouse_rec num) : node_op :=
  NodeOp Warehouse (wh_id r) (set_warehouse r).

Definition route_op (r : route_rec num) : edge_op :=
  EdgeOp CONNECTED_TO (set_route r)
         (Warehouse, r_from r) (Warehouse, r_to r).
Definition supplies_op (r : relationship_rec) : edge_op :=
  EdgeOp SUPPLIES id (Supplier, supplier_id r) (Product, product_id r).
Definition stored_at_op (r : relationship_rec) : edge_op :=
  EdgeOp STORED_AT id (Product, product_id r) (Warehouse, warehouse_id r).

(** The writes of one run of [load_all_data], in the order the script
    issues them: the index, the node upserts, the relationship merges. *)
Definition node_ops (enc : string -> list num) (fx : fixtures num)
    : list node_op :=
  (product_op enc <$> products fx)
  ++ (supplier_op <$> suppliers fx)
  ++ (warehouse_op <$> warehouses fx).

Definition edge_ops (fx : fixtures num) : list edge_op :=
  (route_op <$> routes fx)
  ++ (r ← relationships fx; [supplies_op r; stored_at_op r]).

Definition ingest (enc : string -> list num) (fx : fixtures num)
    (g : graph num) : graph num :=
  fold_left run_edge_op (edge_ops fx)
    (fold_left run_node_op (node_ops enc fx) (q_create_index g)).

(** A [SET] that leaves the merge key alone. *)
Definition keeps_node_key (f : node num -> node num) : Prop :=
  forall n, node_key (f n) = node_key n.

Definition keeps_edge_key (f : edge num -> edge num) : Prop :=
  forall e, edge_key (f e) = edge_key e.

Definition well_formed_edge_op (o : edge_op) : Prop :=
  keeps_edge_key (eo_set o).

Definition well_formed_node_op (o : node_op) : Prop :=
  keeps_node_key (no_set o).

(** Every pair of endpoints that the relationship merge [o] matches in
    [g] is already linked by an edge of its type. *)
Definition edge_saturated (g : graph num) (o : edge_op) : Prop :=
  forall s d,
    s ∈ match_nodes (eo_src o).1 (eo_src o).2 g ->
    d ∈ match_nodes (eo_dst o).1 (eo_dst o).2 g ->
    (eo_type o, s, d) ∈ edge_keys g.

(** [m] succeeds whenever nothing fails, and writes the graph as [f]
    does; [enc] is the embedding model of the run. *)
Definition runs_as {A : Type} (enc : string -> list num) (m : M num A)
    (f : graph num -> graph num) : Prop :=
  forall g gem ms tr,
  exists a t,
    m (World g [] enc gem ms tr)
    = (Ret a, World (f g) [] enc gem ms (tr ++ t)).

(** A store with one supplier, one product and one warehouse and no
    relationship yet. *)
Definition three_nodes : graph num :=
  Graph [Node Supplier {["id" := "s1"]} ∅ None;
         Node Product {["id" := "p1"]} ∅ None;
         Node Warehouse {["id" := "w1"]} ∅ None] [] false.

(** The fixtures that hold a single relationship record. *)
Definition only_relationship (r : relationship_rec) : fixtures num :=
  Fixtures [] [] [] [] [r].

(** [m] only appends to the trace, and what it appends satisfies [P],
    however the run goes. *)
Definition emits {A : Type} (m : M num A) (P : list (event num) -> Prop)
    : Prop :=
  forall w, exists t, w_trace (m w).2 = w_trace w ++ t /\ P t.

Definition sessions_released (t : list (event num)) : Prop :=
  count_event is_session_open t = count_event is_session_close t.

Definition drivers_released (t : list (event num)) : Prop :=
  count_event is_driver_open t = count_event is_driver_close t.

(** A call in the sense of the specification: when it reaches the store
    it has opened a driver of its own, and it leaves no driver and no
    session open. *)
Definition own_connection (t : list (event num)) : Prop :=
  drivers_released t /\ sessions_released t
  /\ (0 < count_event is_run t -> 0 < count_event is_driver_open t).

(** A call that works on a driver it did not open: it neither opens nor
    closes a driver, and it leaves no session open. *)
Definition session_scoped (t : list (event num)) : Prop :=
  sessions_released t
  /\ count_event is_driver_open t = 0 /\ count_event is_driver_close t = 0.

(** The two non-aggregated columns of a returned row. *)
Definition record_key (r : record) : option string * option string :=
  (product_name r, product_description r).

End Vocabulary.

Arguments node_op : clear implicits.
Arguments edge_op : clear implicits.

(** ** Vocabulary of the further properties *)

Section FurtherVocabulary.
Context {num : Type} `{Numeric num} `{GroupOrder}.

(** What a node upsert [MERGE (x:l {id: i}) SET ...] does to a graph [g],
    giving [g']: a node that was there keeps its place and goes through
    the [SET] exactly when it has the key; a node is added, at the end and
    only then, when no node had the key; the edges stay. *)
Definition upsert_effect (l : label) (i : string)
    (upd : node num -> node num) (g g' : graph num) : Prop :=
  (forall j n,
     g_nodes g !! j = Some n ->
     g_nodes g' !! j
     = Some (if bool_decide (node_key n = (l, Some i)) then upd n else n))
  /\ ((l, Some i) ∈ node_keys g -> node_count g' = node_count g)
  /\ ((l, Some i) ∉ node_keys g ->
      g_nodes g' = g_nodes g ++ [upd (Node l {["id" := i]} ∅ None)])
  /\ g_edges g' = g_edges g.

(** The merge key of a node upsert. *)
Definition op_key (o : node_op num) : label * option string :=
  (no_label o, Some (no_id o)).

(** The merge keys the fixtures ask for, in the order of the upserts. *)
Definition fixture_node_keys (fx : fixtures num)
    : list (label * option string) :=
  ((fun r => (Product, Some (p_id r))) <$> products fx)
  ++ ((fun r => (Supplier, Some (s_id r))) <$> suppliers fx)
  ++ ((fun r => (Warehouse, Some (wh_id r))) <$> warehouses fx).

(** [g'] has the nodes and the edges of [g], in place, and possibly more
    after them. *)
Definition graph_grows (g g' : graph num) : Prop :=
  (exists extra, node_keys g' = node_keys g ++ extra)
  /\ (exists extra, edge_keys g' = edge_keys g ++ extra).

(** Whatever the run of [m] meets, the graph it leaves has grown. *)
Definition never_shrinks {A : Type} (m : M num A) : Prop :=
  forall w, graph_grows (w_graph w) (w_graph (m w).2).

(** The values a product record leaves on a node. *)
Definition carries_product (r : product_rec num) (embedding : list num)
    (n : node num) : Prop :=
  n_props n !! "name" = p_name r
  /\ n_props n !! "description" = Some (p_description r)
  /\ n_props n !! "category" = p_category r
  /\ n_nums n !! "price" = p_price r
  /\ n_embedding n = Some embedding.

(** The values a route record leaves on an edge. *)
Definition carries_route (r : route_rec num) (e : edge num) : Prop :=
  e_nums e !! "distance" = r_distance r
  /\ e_nums e !! "duration" = r_duration r.

(** [m] leaves the graph of the store as it found it, on every run. *)
Definition read_only {A : Type} (m : M num A) : Prop :=
  forall w, w_graph (m w).2 = w_graph w.

(** [n] is a Supplier node with a [SUPPLIES] relationship to the node
    [p]; [n] is a Warehouse node the node [p] has a [STORED_AT]
    relationship to. *)
Definition supplies_to (g : graph num) (p : nat) (n : node num) : Prop :=
  exists e, e ∈ g_edges g /\ e_type e = SUPPLIES /\ e_dst e = p
            /\ g_nodes g !! e_src e = Some n /\ n_label n = Supplier.

Definition stores (g : graph num) (p : nat) (n : node num) : Prop :=
  exists e, e ∈ g_edges g /\ e_type e = STORED_AT /\ e_src e = p
            /\ g_nodes g !! e_dst e = Some n /\ n_label n = Warehouse.

Definition is_generate (ev : event num) : bool :=
  match ev with EvGenerate _ => true | _ => false end.
Definition is_configure (ev : event num) : bool :=
  match ev with EvConfigure _ => true | _ => false end.

(** A conversation made of whole turns: a user message followed by the
    message of the assistant, any number of times. *)
Fixpoint turns (ms : list message) : bool :=
  match ms with
  | [] => true
  | Message User _ :: Message Assistant _ :: ms' => turns ms'
  | _ => false
  end.

(** The events of a [with driver.session()] block whose body emits [t]. *)
Definition in_session (t : list (event num)) : list (event num) :=
  [EvSessionOpen] ++ t ++ [EvSessionClose].

(** The calls of a complete load, in the order of the script: the index,
    then for every product its embedding and its upsert in a session of
    its own, then one session for the suppliers, one for the warehouses,
    one for the routes and one for the relationship records, each of
    which is merged as [SUPPLIES] and then as [STORED_AT]. *)
Definition ingestion_events (enc : string -> list num) (fx : fixtures num)
    : list (event num) :=
  in_session [EvRun QCreateIndex]
  ++ (p ← products fx;
      EvEncode (p_description p)
      :: in_session [EvRun (QMergeProduct p (enc (p_description p)))])
  ++ in_session ((fun r => EvRun (QMergeSupplier r)) <$> suppliers fx)
  ++ in_session ((fun r => EvRun (QMergeWarehouse r)) <$> warehouses fx)
  ++ in_session ((fun r => EvRun (QMergeRoute r)) <$> routes fx)
  ++ in_session (r ← relationships fx;
                 [EvRun (QMergeSupplies r); EvRun (QMergeStoredAt r)]).

(** [m] succeeds when nothing fails, writes the graph as [f] does and
    emits [t]; [enc] is the embedding model of the run. *)
Definition runs_with (enc : string -> list num) (m : M num unit)
    (f : graph num -> graph num) (t : list (event num)) : Prop :=
  forall g gem ms tr,
    m (World g [] enc gem ms tr)
    = (Ret tt, World (f g) [] enc gem ms (tr ++ t)).

(** Lines 52 to 55 of [test_connection.py]: the two tests, one after the
    other. *)
Definition test_connection_main (env : gmap string string) : M num unit :=
  test_neo4j_connection env ;;
  test_gemini_connection env.

End FurtherVocabulary.

(** ** Scenarios *)

(** The store of the scenarios hands the groups back in the order in
    which their keys arrive, which is the order of the ranking.  Another
    store may hand them back last first. *)
#[export] Instance arrival_order : GroupOrder :=
  Build_GroupOrder id (fun ks => Permutation_refl ks).

Definition last_first_order : GroupOrder :=
  Build_GroupOrder (fun ks => rev ks)
                   (fun ks => Permutation_sym (Permutation_rev ks)).

(** A store seeded by the ingestion script from a small set of fixtures:
    a product with a supplier and a warehouse in Berlin, a second product
    whose relationship record names a supplier that was never loaded, and
    a route from the warehouse to itself.  Numbers are integers here and
    the embedding of a text is made of its length. *)
Definition scenario_encode (text : string) : list Z :=
  [Z.of_nat (String.length text); 1%Z].

Definition scenario_gemini_text : string :=
  " The headphones are stored in Berlin. ".

Definition scenario_gemini (prompt : string) : gen_reply :=
  GenText scenario_gemini_text.

Definition scenario_fixtures : fixtures Z :=
  Fixtures
    [ProductRec "p1" (Some "Headphones") "wireless headphones"
                (Some 99%Z) (Some "audio");
     ProductRec "p2" (Some "Laptop") "fast laptop" (Some 999%Z) None]
    [SupplierRec "s1" (Some "Acme") (Some "Paris") None]
    [WarehouseRec "w1" (Some "Central") (Some "Berlin") (Some 100%Z)]
    [RouteRec "w1" "w1" (Some 1%Z) (Some 2%Z)]
    [RelationshipRec "s1" "p1" "w1"; RelationshipRec "s9" "p2" "w1"].

Definition empty_world : world Z :=
  World empty_graph [] scenario_encode scenario_gemini None [].

Definition scenario_world : world Z :=
  (load_all_data scenario_fixtures empty_world).2.

Definition scenario_graph : graph Z := w_graph scenario_world.

Definition scenario_globals : app_globals :=
  AppGlobals (Some "bolt://localhost:7687") (Some "neo4j") (Some "secret")
             (Some "key") true.

Definition scenario_question : string := "wireless earphones".

(** A store whose only product was written without an embedding. *)
Definition unembedded_graph : graph Z :=
  Graph [Node Product {["id" := "p1"]} ∅ None;
         Node Supplier {["id" := "s1"]} ∅ None] [] false.

Definition unembedded_world : world Z :=
  World unembedded_graph [] scenario_encode scenario_gemini None [].

(** A row whose only collected supplier has the empty string as name. *)
Definition unnamed_supplier_result : list record :=
  [Record_ (Some "Laptop") (Some "fast laptop")
           [SupplierEntry (Some "")]
           [WarehouseEntry (Some "Central") (Some "Berlin")]].

(** A process environment with the store endpoint and user name set and
    neither [NEO4J_PASSWORD] nor [GEMINI_API_KEY]. *)
Definition partial_env : gmap string string :=
  <["NEO4J_USERNAME" := "neo4j"]> {["NEO4J_URI" := "bolt://localhost:7687"]}.

(** A fresh session of the chat application over the seeded store. *)
Definition session_world : world Z :=
  World scenario_graph [] scenario_encode scenario_gemini None [].

(** A run of the ingestion script in which the first query fails. *)
Definition failing_store_world : world Z :=
  World empty_graph [false; false; true] scenario_encode scenario_gemini
        None [].

(** A store with five embedded products, one product without embedding
    and a supplier.  For a question vector [[c; 1]] with [c] positive the
    scores are [c], [5c], [3c], [4c] and [2c] in the order of the nodes. *)
Definition crowded_graph : graph Z :=
  Graph [Node Product (<["name" := "A"]> {["id" := "p1"]}) ∅
              (Some [1; 0]%Z);
         Node Product (<["name" := "B"]> {["id" := "p2"]}) ∅
              (Some [5; 0]%Z);
         Node Supplier (<["name" := "Acme"]> {["id" := "s1"]}) ∅ None;
         Node Product (<["name" := "C"]> {["id" := "p3"]}) ∅
              (Some [3; 0]%Z);
         Node Product (<["name" := "D"]> {["id" := "p4"]}) ∅ None;
         Node Product (<["name" := "E"]> {["id" := "p5"]}) ∅
              (Some [4; 0]%Z);
         Node Product (<["name" := "F"]> {["id" := "p6"]}) ∅
              (Some [2; 0]%Z)]
        [] false.

(** A store where the vector of the first product has three entries and
    the vector of the second has two, as the question vectors have. *)
Definition oversized_graph : graph Z :=
  Graph [Node Product {["id" := "p1"]} ∅ (Some [1; 2; 3]%Z);
         Node Product {["id" := "p2"]} ∅ (Some [5; 5]%Z)] [] false.

(** The first row the scenario gives for the question. *)
Definition headphones_row : record :=
  Record_ (Some "Headphones") (Some "wireless headphones")
          [SupplierEntry (Some "Acme")]
          [WarehouseEntry (Some "Central") (Some "Berlin")].

(** * Properties *)

Section Ranking.
Context {num : Type} `{Numeric num} `{GroupOrder}.

Lemma desc_leb_total (a b : option num) :
  total_order -> desc_leb a b = true \/ desc_leb b a = true.
Proof.
  intros Htot. destruct a as [x|], b as [y|]; simpl; auto.
Qed.

Lemma desc_leb_trans (a b c : option num) :
  transitive_order ->
  desc_leb a b = true -> desc_leb b c = true -> desc_leb a c = true.
Proof.
  intros Htr. destruct a as [x|], b as [y|], c as [z|]; simpl; try done.
  intros Hyx Hzy. by apply (Htr z y x).
Qed.

(** *** The reduce expression is the dot product *)

Lemma cy_range_from_zero (n : nat) :
  cy_range 0 (Z.of_nat n - 1) = Z.of_nat <$> seq 0 n.
Proof.
  unfold cy_range.
  replace (Z.to_nat (Z.of_nat n - 1 - 0 + 1)) with n by lia.
  apply list_fmap_ext; intros; lia.
Qed.

Lemma cy_index_nat (l : list num) (k : nat) :
  cy_index l (Z.of_nat k) = l !! k.
Proof.
  unfold cy_index.
  destruct (Z.ltb_spec (Z.of_nat k) 0) as [Hneg|_]; [lia|].
  by rewrite Nat2Z.id.
Qed.

Lemma similarity_fold (e q : list num) :
  similarity e q
  = fold_left (fun s k => cy_add s (cy_mul (e !! k) (q !! k)))
              (seq 0 (length e)) (Some nzero).
Proof.
  unfold similarity. rewrite cy_range_from_zero.
  generalize (Some nzero) as acc. generalize (seq 0 (length e)) as ks.
  induction ks as [|k ks IH]; intros acc; simpl; [done|].
  rewrite !cy_index_nat. apply IH.
Qed.

Lemma fold_index_zip (e q : list num) (pre_e pre_q : list num) (acc : num) :
  length pre_e = length pre_q ->
  length e <= length q ->
  fold_left (fun s k => cy_add s (cy_mul ((pre_e ++ e) !! k)
                                         ((pre_q ++ q) !! k)))
            (seq (length pre_e) (length e)) (Some acc)
  = Some (fold_left (fun s ab => nadd s (nmul ab.1 ab.2)) (zip e q) acc).
Proof.
  revert q pre_e pre_q acc.
  induction e as [|a e IH]; intros q pre_e pre_q acc Hpre Hlen; [done|].
  destruct q as [|b q]; simpl in Hlen; [lia|].
  cbn [length seq fold_left zip zip_with].
  rewrite (lookup_app_r pre_e) by lia.
  rewrite (lookup_app_r pre_q) by lia.
  rewrite <- Hpre, Nat.sub_diag. cbn [lookup list_lookup cy_mul cy_add fst snd].
  replace (S (length pre_e)) with (length (pre_e ++ [a]))
    by (rewrite length_app; simpl; lia).
  rewrite (cons_middle a pre_e e), (cons_middle b pre_q q), !app_assoc.
  apply IH; [rewrite !length_app; simpl; lia | lia].
Qed.

(** When the stored vector is not longer than the question vector, the
    score is the dot product. *)
Lemma similarity_dot_product (e q : list num) :
  length e <= length q -> similarity e q = Some (dot_product e q).
Proof.
  intros Hlen. rewrite similarity_fold.
  exact (fold_index_zip e q [] [] nzero eq_refl Hlen).
Qed.

Lemma cy_add_none_fold (f : nat -> option num) (ks : list nat) :
  fold_left (fun s k => cy_add s (f k)) ks None = None.
Proof. induction ks as [|k ks IH]; simpl; [done|]. apply IH. Qed.

(** A stored vector longer than the question vector reads past the end of
    the parameter, and the score is [null]. *)
Lemma similarity_null_when_longer (e q : list num) :
  length q < length e -> similarity e q = None.
Proof.
  intros Hlen. rewrite similarity_fold.
  replace (length e) with (length q + S (length e - S (length q))) by lia.
  rewrite seq_app, fold_left_app. cbn [seq fold_left].
  rewrite (lookup_ge_None_2 q (0 + length q)) by lia.
  assert (Hnull : forall a b, cy_add a (cy_mul b None) = None)
    by (by intros [?|] [?|]).
  rewrite Hnull.
  apply (cy_add_none_fold (fun k => cy_mul (e !! k) (q !! k))).
Qed.

(** *** The candidates of the scan *)

Lemma elem_of_candidates_from (q : list num) (k : nat) (ns : list (node num))
    (x : scored num) :
  x ∈ candidates_from q k ns <->
  exists j n e, ns !! j = Some n /\ n_label n = Product
                /\ n_embedding n = Some e
                /\ x = Scored (k + j) n (similarity e q).
Proof.
  revert k. induction ns as [|n ns IH]; intros k; simpl.
  - split; [by intros ?%elem_of_nil | by intros (j & ? & ? & ? & _)].
  - transitivity
      ((n_label n = Product
        /\ exists e, n_embedding n = Some e
                     /\ x = Scored k n (similarity e q))
       \/ x ∈ candidates_from q (S k) ns).
    { destruct (n_label n), (n_embedding n) as [e|];
        rewrite ?elem_of_cons; split;
        try (intros [->|Hx]; [left; by eauto | by right]);
        try (intros [(_ & e' & [= <-] & ->)|Hx]; [by left | by right]);
        try (intros Hx; by right);
        intros [(? & ? & ? & _)|Hx]; done. }
    rewrite IH. split.
    + intros [(Hl & e & He & ->)|(j & n0 & e & Hj & Hl & He & ->)].
      * exists 0, n, e. by rewrite Nat.add_0_r.
      * exists (S j), n0, e. repeat split; try done. f_equal. lia.
    + intros ([|j] & n0 & e & Hj & Hl & He & ->); simpl in Hj.
      * injection Hj as <-. left. split; [done|]. exists e.
        by rewrite Nat.add_0_r.
      * right. exists j, n0, e. repeat split; try done. f_equal. lia.
Qed.

Lemma candidates_from_ids_ge (q : list num) (k : nat) (ns : list (node num))
    (x : scored num) :
  x ∈ candidates_from q k ns -> k <= sc_id x.
Proof.
  rewrite elem_of_candidates_from. intros (j & n & e & _ & _ & _ & ->).
  simpl. lia.
Qed.

Lemma candidates_from_NoDup (q : list num) (k : nat) (ns : list (node num)) :
  NoDup (sc_id <$> candidates_from q k ns).
Proof.
  revert k. induction ns as [|n ns IH]; intros k; simpl; [constructor|].
  destruct (n_label n), (n_embedding n); try apply IH.
  rewrite fmap_cons. constructor; [|apply IH].
  rewrite list_elem_of_fmap. intros (x & Hid & Hx).
  apply candidates_from_ids_ge in Hx. simpl in Hid. lia.
Qed.

(** *** Sorting by insertion *)

Lemma insert_desc_perm (x : scored num) (l : list (scored num)) :
  insert_desc x l ≡ₚ x :: l.
Proof.
  induction l as [|y l IH]; simpl; [done|].
  destruct (desc_leb _ _); [|done].
  rewrite IH. apply Permutation_swap.
Qed.

Lemma order_by_similarity_desc_perm (l : list (scored num)) :
  order_by_similarity_desc l ≡ₚ l.
Proof.
  induction l as [|x l IH]; simpl; [done|].
  by rewrite insert_desc_perm, IH.
Qed.

Lemma insert_desc_sorted (x : scored num) (l : list (scored num)) :
  total_order -> transitive_order ->
  StronglySorted before l -> StronglySorted before (insert_desc x l).
Proof.
  intros Htot Htr. induction 1 as [|y l Hl IH Hy]; simpl.
  - repeat constructor.
  - destruct (desc_leb (sc_similarity y) (sc_similarity x)) eqn:Hyx.
    + constructor; [done|].
      rewrite Forall_forall. intros z Hz.
      rewrite insert_desc_perm in Hz. apply elem_of_cons in Hz as [->|Hz].
      * exact Hyx.
      * rewrite Forall_forall in Hy. by apply Hy.
    + assert (Hxy : before x y).
      { unfold before. destruct (desc_leb_total (sc_similarity x)
                                   (sc_similarity y) Htot); congruence. }
      constructor; [by constructor|].
      constructor; [done|].
      eapply Forall_impl; [exact Hy|]. intros z Hz.
      unfold before in *. by eapply desc_leb_trans.
Qed.

Lemma order_by_similarity_desc_sorted (l : list (scored num)) :
  total_order -> transitive_order ->
  StronglySorted before (order_by_similarity_desc l).
Proof.
  intros Htot Htr. induction l as [|x l IH]; simpl; [constructor|].
  by apply insert_desc_sorted.
Qed.

(** *** [DISTINCT] *)

Lemma elem_of_distinct {A : Type} `{EqDecision A} (seen l : list A) (x : A) :
  x ∈ distinct seen l <-> x ∈ l /\ x ∉ seen.
Proof.
  revert seen. induction l as [|y l IH]; intros seen; simpl.
  - split; [by intros ?%elem_of_nil | by intros [?%elem_of_nil _]].
  - case_bool_decide as Hy.
    + rewrite IH, elem_of_cons. split; [tauto|].
      intros [[->|Hx] Hn]; [done | tauto].
    + rewrite !elem_of_cons, IH, elem_of_cons. split.
      * intros [->|[Hx Hn]]; [tauto|]. split; [tauto|].
        intros Hs. apply Hn. by right.
      * intros [[->|Hx] Hn]; [by left|].
        destruct (decide (x = y)) as [->|Hne]; [by left|].
        right. split; [done|]. intros [?|?]; done.
Qed.

Lemma distinct_NoDup {A : Type} `{EqDecision A} (seen l : list A) :
  NoDup (distinct seen l).
Proof.
  revert seen. induction l as [|y l IH]; intros seen; simpl; [constructor|].
  case_bool_decide; [apply IH|].
  constructor; [|apply IH].
  rewrite elem_of_distinct, elem_of_cons. tauto.
Qed.

(** *** Rows after grouping *)

Lemma joined_rows_keys (g : graph num) (ps : list (scored num))
    (r : (option string * option string) * supplier_entry * warehouse_entry) :
  r ∈ joined_rows g ps -> r.1.1 ∈ group_key <$> ps.
Proof.
  unfold joined_rows. rewrite list_elem_of_bind. intros (p & Hr & Hp).
  apply list_elem_of_bind in Hr as (s & Hr & _).
  apply list_elem_of_bind in Hr as (w & Hr & _).
  apply list_elem_of_singleton in Hr as ->. simpl.
  apply list_elem_of_fmap. by exists p.
Qed.

Lemma aggregate_length_le (g : graph num) (ps : list (scored num)) :
  length (aggregate (joined_rows g ps)) <= length ps.
Proof.
  unfold aggregate.
  rewrite length_fmap, (Permutation_length (group_order_perm _)).
  rewrite <- (length_fmap group_key ps).
  apply submseteq_length, NoDup_submseteq; [apply distinct_NoDup|].
  intros k [Hk _]%elem_of_distinct.
  apply list_elem_of_fmap in Hk as (r & -> & Hr).
  by eapply joined_rows_keys.
Qed.

Lemma StronglySorted_lookup_lt {A : Type} (R : relation A) (l : list A)
    (i j : nat) (x y : A) :
  StronglySorted R l -> i < j -> l !! i = Some x -> l !! j = Some y -> R x y.
Proof.
  intros Hs. revert i j. induction Hs as [|z l Hl IH Hz]; intros i j Hij Hi Hj.
  - done.
  - destruct j as [|j]; [lia|]. simpl in Hj. destruct i as [|i]; simpl in Hi.
    + injection Hi as ->. rewrite Forall_forall in Hz.
      apply Hz. apply list_elem_of_lookup. by exists j.
    + apply (IH i j); [lia|done..].
Qed.

Lemma distinct_skip_seen {A : Type} `{EqDecision A} (seen l rest : list A) :
  (forall x, x ∈ l -> x ∈ seen) ->
  distinct seen (l ++ rest) = distinct seen rest.
Proof.
  induction l as [|x l IH]; intros Hseen; simpl; [done|].
  rewrite bool_decide_eq_true_2 by (apply Hseen; left).
  apply IH. intros y Hy. apply Hseen. by right.
Qed.

Lemma distinct_block {A : Type} `{EqDecision A} (seen l rest : list A)
    (k : A) :
  l <> [] -> (forall x, x ∈ l -> x = k) ->
  distinct seen (l ++ rest) = distinct seen (k :: rest).
Proof.
  destruct l as [|x l]; [done|]. intros _ Hall.
  assert (x = k) as -> by (apply Hall; left).
  simpl. case_bool_decide as Hk.
  - apply distinct_skip_seen. intros y Hy.
    assert (y = k) as -> by (apply Hall; by right). done.
  - f_equal. apply distinct_skip_seen. intros y Hy.
    assert (y = k) as -> by (apply Hall; by right). left.
Qed.

Lemma distinct_bind {A B K : Type} `{EqDecision K} (rows_of : A -> list B)
    (key : B -> K) (k : A -> K) (ps : list A) (seen : list K) :
  (forall p, rows_of p <> [] /\ forall r, r ∈ rows_of p -> key r = k p) ->
  distinct seen (key <$> (ps ≫= rows_of)) = distinct seen (k <$> ps).
Proof.
  intros Hrows. revert seen. induction ps as [|p ps IH]; intros seen; [done|].
  rewrite bind_cons, fmap_app, fmap_cons.
  destruct (Hrows p) as [Hne Hkey].
  rewrite (distinct_block seen (key <$> rows_of p) _ (k p)).
  - simpl. case_bool_decide; by rewrite IH.
  - by destruct (rows_of p).
  - intros x (r & -> & Hr)%list_elem_of_fmap. by apply Hkey.
Qed.

Lemma optional_rows_nonempty (found : list (node num)) :
  optional_rows found <> [].
Proof. by destruct found. Qed.

Lemma suppliers_of_nonempty (g : graph num) (p : nat) :
  suppliers_of g p <> [].
Proof. apply optional_rows_nonempty. Qed.

Lemma warehouses_of_nonempty (g : graph num) (p : nat) :
  warehouses_of g p <> [].
Proof. apply optional_rows_nonempty. Qed.

(** The keys of the grouped rows are the keys of the ranked products,
    each once. *)
Lemma joined_rows_distinct_keys (g : graph num) (ps : list (scored num)) :
  distinct [] ((fun r => r.1.1) <$> joined_rows g ps)
  = distinct [] (group_key <$> ps).
Proof.
  unfold joined_rows.
  apply distinct_bind. intros p. split.
  - pose proof (suppliers_of_nonempty g (sc_id p)) as Hs.
    pose proof (warehouses_of_nonempty g (sc_id p)) as Hw.
    destruct (suppliers_of g (sc_id p)) as [|s ss]; [done|].
    destruct (warehouses_of g (sc_id p)) as [|w ws]; done.
  - intros r (s & Hr & _)%list_elem_of_bind.
    apply list_elem_of_bind in Hr as (w & Hr & _).
    by apply list_elem_of_singleton in Hr as ->.
Qed.

(** The returned rows are, in the order the store chooses, one for each
    key of the ranked products. *)
Lemma q_similarity_keys (q : list num) (g : graph num) :
  record_key <$> q_similarity q g
  ≡ₚ distinct [] (group_key <$> ranked q g).
Proof.
  unfold q_similarity, aggregate. rewrite <- list_fmap_compose.
  rewrite (list_fmap_ext _ id) by (by intros _ [k1 k2] _).
  rewrite list_fmap_id, joined_rows_distinct_keys.
  apply group_order_perm.
Qed.

(** In a descending order a row with score [a] may stand before a row
    with score [b] when [b] is not above [a], and a row without score
    stands before every row that has one. *)
Lemma desc_leb_true (a b : option num) :
  desc_leb a b = true
  <-> (forall x y, a = Some x -> b = Some y -> nleb y x = true)
      /\ (b = None -> a = None).
Proof.
  destruct a as [x|], b as [y|]; simpl; split.
  - intros Hle. split; [by intros ? ? [= <-] [= <-]|done].
  - intros [Hle _]. by apply Hle.
  - done.
  - intros [_ Hnull]. by discriminate Hnull.
  - done.
  - done.
  - done.
  - done.
Qed.

(** C1, amended.  The similarity query keeps the Product nodes whose
    [description_embedding] is not null, scores each with the inline
    reduce expression, which is the plain dot product of the stored vector
    and the question vector when the two have the same dimension, orders
    the rows by descending score and keeps at most three of them: the
    rows are distinct nodes of the graph; of two ranked rows the later one
    has no score above that of the earlier one, and has a score when the
    earlier one has; and a Product with an embedding that is left out has
    no score above that of any of the three that were kept.  The rows
    handed back after the joins and the grouping are at most three as
    well: no two of them have the same name and description, and a pair
    of name and description is returned exactly when a ranked product has
    it.  They come in the order the store chooses, whichever that is. *)
Theorem ranked_top3_by_dot_product (q : list num) (g : graph num) :
  total_order -> transitive_order ->
  length (ranked q g) <= 3
  /\ length (q_similarity q g) <= 3
  /\ NoDup (record_key <$> q_similarity q g)
  /\ (forall k, k ∈ record_key <$> q_similarity q g
                <-> k ∈ group_key <$> ranked q g)
  /\ NoDup (sc_id <$> ranked q g)
  /\ (forall x, x ∈ ranked q g ->
        g_nodes g !! sc_id x = Some (sc_node x)
        /\ n_label (sc_node x) = Product
        /\ exists e, n_embedding (sc_node x) = Some e
                     /\ sc_similarity x = similarity e q
                     /\ (length e = length q ->
                         sc_similarity x = Some (dot_product e q)))
  /\ (forall i j x y, i < j ->
        ranked q g !! i = Some x -> ranked q g !! j = Some y ->
        (forall a b, sc_similarity x = Some a -> sc_similarity y = Some b ->
                     nleb b a = true)
        /\ (sc_similarity y = None -> sc_similarity x = None))
  /\ (forall k n e,
        g_nodes g !! k = Some n -> n_label n = Product ->
        n_embedding n = Some e ->
        k ∈ sc_id <$> ranked q g
        \/ (length (ranked q g) = 3
            /\ forall x, x ∈ ranked q g ->
                 (forall a b, sc_similarity x = Some a ->
                              similarity e q = Some b -> nleb b a = true)
                 /\ (similarity e q = None -> sc_similarity x = None))).
Proof.
  intros Htot Htr.
  pose proof (order_by_similarity_desc_sorted (candidates q g) Htot Htr)
    as Hsorted.
  pose proof (order_by_similarity_desc_perm (candidates q g)) as Hperm.
  assert (Hlen : length (ranked q g) <= 3).
  { unfold ranked. rewrite length_take. lia. }
  assert (Hsub : forall x, x ∈ ranked q g -> x ∈ candidates q g).
  { intros x Hx. rewrite <- Hperm. by eapply subseteq_take. }
  split; [done|]. split.
  { etrans; [apply aggregate_length_le | done]. }
  split; [rewrite q_similarity_keys; apply distinct_NoDup|].
  split.
  { intros k. rewrite q_similarity_keys, elem_of_distinct.
    split; [tauto|]. intros Hk. split; [done|]. apply not_elem_of_nil. }
  split.
  { unfold ranked. rewrite fmap_take.
    apply (sublist_NoDup _ (sc_id <$> order_by_similarity_desc (candidates q g)));
      [|apply sublist_take].
    rewrite Hperm. apply candidates_from_NoDup. }
  split.
  { intros x Hx. apply Hsub in Hx. unfold candidates in Hx.
    apply elem_of_candidates_from in Hx as (j & n & e & Hj & Hl & He & ->).
    simpl. repeat split; try done. exists e. repeat split; try done.
    intros Hdim. apply similarity_dot_product. lia. }
  split.
  { intros i j x y Hij Hi Hj. apply desc_leb_true.
    apply (StronglySorted_lookup_lt before (ranked q g) i j); try done.
    unfold ranked. eapply StronglySorted_app_1_l.
    rewrite take_drop. exact Hsorted. }
  intros k n e Hk Hl He.
  set (c := Scored k n (similarity e q)).
  assert (Hc : c ∈ order_by_similarity_desc (candidates q g)).
  { rewrite Hperm. unfold candidates. apply elem_of_candidates_from.
    by exists k, n, e. }
  rewrite <- (take_drop 3) in Hc. apply elem_of_app in Hc as [Hc|Hc].
  - left. apply list_elem_of_fmap. by exists c.
  - right. split.
    + unfold ranked. rewrite length_take.
      assert (3 < length (order_by_similarity_desc (candidates q g))
              \/ length (order_by_similarity_desc (candidates q g)) <= 3)
        as [?|Hshort] by lia; [lia|].
      rewrite drop_ge in Hc by done. by apply elem_of_nil in Hc.
    + intros x Hx.
      apply (desc_leb_true (sc_similarity x) (similarity e q)).
      change (before x c).
      eapply (StronglySorted_app_1_elem_of before); [|exact Hx|exact Hc].
      unfold ranked. rewrite take_drop. exact Hsorted.
Qed.

End Ranking.

Lemma Z_total_order : total_order (num := Z).
Proof.
  intros a b. simpl. destruct (Z.leb_spec a b); [by left|].
  right. apply Z.leb_le. lia.
Qed.

Lemma Z_transitive_order : transitive_order (num := Z).
Proof.
  intros a b c. simpl. rewrite !Z.leb_le. lia.
Qed.

Lemma ranked_top3_by_dot_product_witness :
  total_order (num := Z) /\ transitive_order (num := Z)
  /\ length (candidates (scenario_encode scenario_question) crowded_graph)
     = 5
  /\ length (ranked (scenario_encode scenario_question) crowded_graph) <= 3
  /\ length (q_similarity (scenario_encode scenario_question)
                          crowded_graph) <= 3
  /\ (0 ∈ sc_id <$> ranked (scenario_encode scenario_question)
                           crowded_graph
      \/ (length (ranked (scenario_encode scenario_question) crowded_graph)
          = 3
          /\ forall x,
               x ∈ ranked (scenario_encode scenario_question)
                     crowded_graph ->
               (forall a b,
                  sc_similarity x = Some a ->
                  similarity [1; 0]%Z (scenario_encode scenario_question)
                  = Some b ->
                  nleb b a = true)
               /\ (similarity [1; 0]%Z (scenario_encode scenario_question)
                   = None ->
                   sc_similarity x = None))).
Proof.
  split; [exact Z_total_order|]. split; [exact Z_transitive_order|].
  split; [reflexivity|].
  destruct (ranked_top3_by_dot_product
              (scenario_encode scenario_question) crowded_graph
              Z_total_order Z_transitive_order)
    as (Hlen & Hrows & _ & _ & _ & _ & _ & Hout).
  split; [exact Hlen|]. split; [exact Hrows|].
  exact (Hout 0 _ [1; 0]%Z eq_refl eq_refl eq_refl).
Defined.

(** C1 as it is worded has the rows returned in descending order of
    score.  On the crowded store the three ranked products score 90, 72
    and 54, and a store that hands the groups of the [RETURN] back last
    first returns them lowest score first. *)
Lemma returned_order_counterexample :
  sc_similarity <$> ranked (scenario_encode scenario_question) crowded_graph
  = [Some 90; Some 72; Some 54]%Z
  /\ group_key <$> ranked (scenario_encode scenario_question) crowded_graph
     = [(Some "B", None); (Some "E", None); (Some "C", None)]
  /\ record_key <$> @q_similarity Z Z_numeric last_first_order
                      (scenario_encode scenario_question) crowded_graph
     = [(Some "C", None); (Some "E", None); (Some "B", None)].
Proof. split; [|split]; by vm_compute. Qed.

Section Merging.
Context {num : Type} `{Numeric num} `{GroupOrder}.

Implicit Types (g : graph num) (n : node num) (e : edge num).

(** *** Matching is decided by the keys *)

Lemma is_node_key (l : label) (i : string) n :
  is_node l i n = bool_decide (node_key n = (l, Some i)).
Proof.
  unfold is_node, node_key.
  repeat case_bool_decide; simpl; congruence.
Qed.

Lemma elem_of_match_from (l : label) (i : string) (k : nat)
    (ns : list (node num)) (j : nat) :
  j ∈ match_from l i k ns <->
  exists n, k <= j /\ ns !! (j - k) = Some n /\ node_key n = (l, Some i).
Proof.
  revert k. induction ns as [|n ns IH]; intros k; simpl.
  - split; [by intros ?%elem_of_nil | by intros (? & _ & ? & _)].
  - rewrite is_node_key.
    assert (Hrest : j ∈ match_from l i (S k) ns <->
              exists n', k <= j /\ (n :: ns) !! (j - k) = Some n'
                         /\ node_key n' = (l, Some i) /\ j <> k).
    { rewrite IH. split.
      - intros (n' & Hle & Hj & Hk). exists n'.
        replace (j - k) with (S (j - S k)) by lia. repeat split; try done; lia.
      - intros (n' & Hle & Hj & Hk & Hne). exists n'.
        replace (j - k) with (S (j - S k)) in Hj by lia.
        repeat split; try done; lia. }
    case_bool_decide as Hn; rewrite ?elem_of_cons, Hrest; split.
    + intros [->|(n' & ? & ? & ? & _)]; [|by exists n'].
      exists n. by rewrite Nat.sub_diag.
    + intros (n' & Hle & Hj & Hk).
      destruct (decide (j = k)) as [->|Hne]; [by left|]. right. by exists n'.
    + intros (n' & ? & ? & ? & _). by exists n'.
    + intros (n' & Hle & Hj & Hk).
      destruct (decide (j = k)) as [->|Hne]; [|by exists n'].
      rewrite Nat.sub_diag in Hj. simpl in Hj. congruence.
Qed.

Lemma elem_of_match_nodes (l : label) (i : string) g (j : nat) :
  j ∈ match_nodes l i g <->
  exists n, g_nodes g !! j = Some n /\ node_key n = (l, Some i).
Proof.
  unfold match_nodes. rewrite elem_of_match_from.
  rewrite Nat.sub_0_r. split.
  - intros (n & _ & ? & ?). by exists n.
  - intros (n & ? & ?). exists n. repeat split; try done; lia.
Qed.

Lemma match_from_keys (l : label) (i : string) (k : nat)
    (ns ns' : list (node num)) :
  node_key <$> ns = node_key <$> ns' ->
  match_from l i k ns = match_from l i k ns'.
Proof.
  revert k ns'. induction ns as [|n ns IH]; intros k [|n' ns'] Hkeys;
    try done.
  rewrite !fmap_cons in Hkeys. apply (inj2 cons) in Hkeys as [Hn Hrest].
  simpl. rewrite !is_node_key, Hn, (IH (S k) ns' Hrest). done.
Qed.

Lemma match_nodes_keys (l : label) (i : string) g g' :
  node_keys g = node_keys g' -> match_nodes l i g = match_nodes l i g'.
Proof. apply match_from_keys. Qed.

Lemma match_nodes_nil (l : label) (i : string) g :
  match_nodes l i g = [] <-> (l, Some i) ∉ node_keys g.
Proof.
  split.
  - intros Hnil Hin. apply list_elem_of_fmap in Hin as (n & Hk & Hn).
    apply list_elem_of_lookup in Hn as (j & Hj).
    assert (j ∈ match_nodes l i g) as Hm
      by (apply elem_of_match_nodes; by exists n).
    rewrite Hnil in Hm. by apply elem_of_nil in Hm.
  - intros Hnot. destruct (match_nodes l i g) as [|j js] eqn:Hm; [done|].
    exfalso. apply Hnot.
    assert (j ∈ match_nodes l i g) as Hj by (rewrite Hm; left).
    apply elem_of_match_nodes in Hj as (n & Hj & Hk).
    apply list_elem_of_fmap. exists n. split; [done|].
    apply list_elem_of_lookup. by exists j.
Qed.

(** *** Node upserts *)

Lemma set_prop_lookup_ne {V : Type} (k k' : string) (v : option V)
    (m : gmap string V) :
  k <> k' -> set_prop k v m !! k' = m !! k'.
Proof.
  intros Hne. destruct v; simpl.
  - by apply lookup_insert_ne.
  - by apply lookup_delete_ne.
Qed.

Lemma set_product_keeps_key (r : product_rec num) (emb : list num) :
  keeps_node_key (set_product r emb).
Proof.
  intros n. unfold node_key, set_product. cbn [n_label n_props].
  by rewrite !set_prop_lookup_ne.
Qed.

Lemma set_supplier_keeps_key (r : supplier_rec) :
  keeps_node_key (num := num) (set_supplier r).
Proof.
  intros n. unfold node_key, set_supplier. cbn [n_label n_props].
  by rewrite !set_prop_lookup_ne.
Qed.

Lemma set_warehouse_keeps_key (r : warehouse_rec num) :
  keeps_node_key (set_warehouse r).
Proof.
  intros n. unfold node_key, set_warehouse. cbn [n_label n_props].
  by rewrite !set_prop_lookup_ne.
Qed.

Lemma merge_node_edges (l : label) (i : string) (upd : node num -> node num) g :
  g_edges (merge_node l i upd g) = g_edges g
  /\ g_vector_index (merge_node l i upd g) = g_vector_index g.
Proof. unfold merge_node. by destruct (match_nodes l i g). Qed.

Lemma merge_node_present (l : label) (i : string)
    (upd : node num -> node num) g :
  keeps_node_key upd ->
  (l, Some i) ∈ node_keys g ->
  node_keys (merge_node l i upd g) = node_keys g.
Proof.
  intros Hkeep Hin. unfold merge_node.
  destruct (match_nodes l i g) as [|j js] eqn:Hm.
  - by apply match_nodes_nil in Hm.
  - unfold node_keys. simpl. rewrite <- list_fmap_compose.
    apply list_fmap_ext. intros _ x _. simpl.
    by destruct (is_node l i x).
Qed.

Lemma merge_node_absent (l : label) (i : string)
    (upd : node num -> node num) g :
  keeps_node_key upd ->
  (l, Some i) ∉ node_keys g ->
  node_keys (merge_node l i upd g) = node_keys g ++ [(l, Some i)].
Proof.
  intros Hkeep Hnot. unfold merge_node.
  apply match_nodes_nil in Hnot. rewrite Hnot.
  unfold node_keys. simpl. rewrite fmap_app. simpl.
  rewrite Hkeep. done.
Qed.

(** After an upsert the key is in the graph, and the keys that were
    there stay where they were. *)
Lemma merge_node_keys (l : label) (i : string)
    (upd : node num -> node num) g :
  keeps_node_key upd ->
  (l, Some i) ∈ node_keys (merge_node l i upd g)
  /\ exists extra, node_keys (merge_node l i upd g) = node_keys g ++ extra.
Proof.
  intros Hkeep.
  destruct (decide ((l, Some i) ∈ node_keys g)) as [Hin|Hnot].
  - rewrite merge_node_present by done. split; [done|].
    exists []. by rewrite app_nil_r.
  - rewrite merge_node_absent by done. split.
    + apply elem_of_app. right. left.
    + by eexists.
Qed.

Lemma set_prop_lookup {V : Type} (k : string) (v : option V)
    (m : gmap string V) :
  set_prop k v m !! k = v.
Proof.
  destruct v; simpl; [apply lookup_insert_eq | apply lookup_delete_eq].
Qed.

(** After an upsert every node that carries the key went through the
    [SET]. *)
Lemma merge_node_overwrites (l : label) (i : string)
    (upd : node num -> node num) g (j : nat) n :
  keeps_node_key upd ->
  g_nodes (merge_node l i upd g) !! j = Some n ->
  node_key n = (l, Some i) ->
  exists n0, n = upd n0.
Proof.
  intros Hkeep Hj Hk. unfold merge_node in Hj.
  destruct (match_nodes l i g) as [|j0 js] eqn:Hm; simpl in Hj.
  - apply lookup_app_Some in Hj as [Hj|[_ Hj]].
    + exfalso. apply match_nodes_nil in Hm. apply Hm.
      apply list_elem_of_fmap. exists n. split; [done|].
      apply list_elem_of_lookup. by exists j.
    + apply list_lookup_singleton_Some in Hj as [_ <-]. by eexists.
  - rewrite list_lookup_fmap in Hj.
    destruct (g_nodes g !! j) as [n0|] eqn:Hn0; [|done].
    simpl in Hj. injection Hj as <-. rewrite is_node_key in *.
    case_bool_decide as Hn0k; [by eexists|]. congruence.
Qed.

(** The product upsert leaves the values of the record on every Product
    node with the id of the record. *)
Lemma q_merge_product_overwrites (r : product_rec num) (emb : list num) g
    (j : nat) n :
  g_nodes (q_merge_product r emb g) !! j = Some n ->
  node_key n = (Product, Some (p_id r)) ->
  n_props n !! "name" = p_name r
  /\ n_props n !! "description" = Some (p_description r)
  /\ n_props n !! "category" = p_category r
  /\ n_nums n !! "price" = p_price r
  /\ n_embedding n = Some emb.
Proof.
  intros Hj Hk.
  destruct (merge_node_overwrites Product (p_id r) (set_product r emb) g j n
              (set_product_keeps_key r emb) Hj Hk) as (n0 & ->).
  unfold set_product. cbn [n_props n_nums n_embedding].
  split; [|split; [|split; [|split]]].
  - rewrite !set_prop_lookup_ne by done. apply set_prop_lookup.
  - rewrite set_prop_lookup_ne by done. apply (set_prop_lookup _ (Some _)).
  - apply set_prop_lookup.
  - apply set_prop_lookup.
  - done.
Qed.

(** *** Relationship merges *)

Lemma is_edge_key (t : reltype) (s d : nat) e :
  is_edge t s d e = bool_decide (edge_key e = (t, s, d)).
Proof.
  unfold is_edge, edge_key.
  destruct (Nat.eqb_spec (e_src e) s), (Nat.eqb_spec (e_dst e) d);
    repeat case_bool_decide; simpl; congruence.
Qed.

Lemma existsb_is_edge (t : reltype) (s d : nat) g :
  existsb (is_edge t s d) (g_edges g) = true <-> (t, s, d) ∈ edge_keys g.
Proof.
  rewrite existsb_exists. unfold edge_keys. rewrite list_elem_of_fmap.
  split.
  - intros (e & Hin & He). rewrite is_edge_key in He.
    apply bool_decide_eq_true in He. exists e.
    split; [done | by apply list_elem_of_In].
  - intros (e & Hk & Hin). exists e. split; [by apply list_elem_of_In|].
    rewrite is_edge_key. by apply bool_decide_eq_true.
Qed.

Lemma set_route_keeps_key (r : route_rec num) : keeps_edge_key (set_route r).
Proof. by intros e. Qed.

Lemma id_keeps_edge_key : keeps_edge_key (num := num) id.
Proof. by intros e. Qed.

Lemma merge_edge_nodes (t : reltype) (upd : edge num -> edge num) g
    (sd : nat * nat) :
  g_nodes (merge_edge t upd g sd) = g_nodes g
  /\ g_vector_index (merge_edge t upd g sd) = g_vector_index g.
Proof. unfold merge_edge. by destruct (existsb _ _). Qed.

Lemma merge_edge_present (t : reltype) (upd : edge num -> edge num) g
    (sd : nat * nat) :
  keeps_edge_key upd ->
  (t, sd.1, sd.2) ∈ edge_keys g ->
  edge_keys (merge_edge t upd g sd) = edge_keys g.
Proof.
  intros Hkeep Hin. unfold merge_edge.
  apply existsb_is_edge in Hin. rewrite Hin.
  unfold edge_keys. simpl. rewrite <- list_fmap_compose.
  apply list_fmap_ext. intros _ x _. simpl.
  by destruct (is_edge t sd.1 sd.2 x).
Qed.

Lemma merge_edge_absent (t : reltype) (upd : edge num -> edge num) g
    (sd : nat * nat) :
  keeps_edge_key upd ->
  (t, sd.1, sd.2) ∉ edge_keys g ->
  edge_keys (merge_edge t upd g sd) = edge_keys g ++ [(t, sd.1, sd.2)].
Proof.
  intros Hkeep Hnot. unfold merge_edge.
  rewrite <- existsb_is_edge in Hnot. apply not_true_is_false in Hnot.
  rewrite Hnot. unfold edge_keys. simpl. rewrite fmap_app. simpl.
  by rewrite Hkeep.
Qed.

Lemma merge_edge_keys (t : reltype) (upd : edge num -> edge num) g
    (sd : nat * nat) :
  keeps_edge_key upd ->
  (t, sd.1, sd.2) ∈ edge_keys (merge_edge t upd g sd)
  /\ exists extra,
       edge_keys (merge_edge t upd g sd) = edge_keys g ++ extra
       /\ length extra <= 1
       /\ forall k, k ∈ extra -> k = (t, sd.1, sd.2).
Proof.
  intros Hkeep.
  destruct (decide ((t, sd.1, sd.2) ∈ edge_keys g)) as [Hin|Hnot].
  - rewrite merge_edge_present by done. split; [done|].
    exists []. rewrite app_nil_r. repeat split; [simpl; lia|].
    by intros k ?%elem_of_nil.
  - rewrite merge_edge_absent by done. split.
    + apply elem_of_app. right. left.
    + eexists. repeat split; [simpl; lia|].
      by intros k ->%list_elem_of_singleton.
Qed.

Lemma fold_merge_edge_nodes (t : reltype) (upd : edge num -> edge num)
    (ps : list (nat * nat)) g :
  g_nodes (fold_left (merge_edge t upd) ps g) = g_nodes g
  /\ g_vector_index (fold_left (merge_edge t upd) ps g) = g_vector_index g.
Proof.
  revert g. induction ps as [|sd ps IH]; intros g; simpl; [done|].
  destruct (IH (merge_edge t upd g sd)) as [-> ->].
  apply merge_edge_nodes.
Qed.

Lemma fold_merge_edge_grow (t : reltype) (upd : edge num -> edge num)
    (ps : list (nat * nat)) g :
  keeps_edge_key upd ->
  exists extra,
    edge_keys (fold_left (merge_edge t upd) ps g) = edge_keys g ++ extra
    /\ length extra <= length ps
    /\ forall k, k ∈ extra -> exists sd, sd ∈ ps /\ k = (t, sd.1, sd.2).
Proof.
  intros Hkeep. revert g. induction ps as [|sd ps IH]; intros g; simpl.
  - exists []. rewrite app_nil_r. repeat split; [done|].
    by intros k ?%elem_of_nil.
  - destruct (IH (merge_edge t upd g sd)) as (ex2 & -> & Hlen2 & Hex2).
    destruct (merge_edge_keys t upd g sd Hkeep)
      as (_ & ex1 & -> & Hlen1 & Hex1).
    exists (ex1 ++ ex2). rewrite app_assoc. repeat split.
    + rewrite length_app. lia.
    + intros k [Hk|Hk]%elem_of_app.
      * exists sd. split; [left | by apply Hex1].
      * destruct (Hex2 k Hk) as (sd' & Hsd' & ->). exists sd'.
        split; [by right | done].
Qed.

Lemma fold_merge_edge_covers (t : reltype) (upd : edge num -> edge num)
    (ps : list (nat * nat)) g (sd : nat * nat) :
  keeps_edge_key upd ->
  sd ∈ ps ->
  (t, sd.1, sd.2) ∈ edge_keys (fold_left (merge_edge t upd) ps g).
Proof.
  intros Hkeep. revert g. induction ps as [|sd' ps IH]; intros g Hin.
  - by apply elem_of_nil in Hin.
  - simpl. apply elem_of_cons in Hin as [->|Hin]; [|by apply IH].
    destruct (fold_merge_edge_grow t upd ps (merge_edge t upd g sd') Hkeep)
      as (extra & -> & _).
    apply elem_of_app. left. by apply merge_edge_keys.
Qed.

Lemma fold_merge_edge_saturated (t : reltype) (upd : edge num -> edge num)
    (ps : list (nat * nat)) g :
  keeps_edge_key upd ->
  (forall sd, sd ∈ ps -> (t, sd.1, sd.2) ∈ edge_keys g) ->
  edge_keys (fold_left (merge_edge t upd) ps g) = edge_keys g.
Proof.
  intros Hkeep. revert g. induction ps as [|sd ps IH]; intros g Hall;
    simpl; [done|].
  assert (Hstep : edge_keys (merge_edge t upd g sd) = edge_keys g).
  { apply merge_edge_present; [done|]. apply Hall. left. }
  rewrite IH; [done|]. intros sd' Hsd'. rewrite Hstep. apply Hall. by right.
Qed.

(** *** The two shapes of write *)

Lemma run_edge_op_nodes g (o : edge_op num) :
  g_nodes (run_edge_op g o) = g_nodes g
  /\ g_vector_index (run_edge_op g o) = g_vector_index g.
Proof. apply fold_merge_edge_nodes. Qed.

Lemma run_edge_op_node_keys g (o : edge_op num) :
  node_keys (run_edge_op g o) = node_keys g.
Proof. unfold node_keys. by rewrite (proj1 (run_edge_op_nodes g o)). Qed.

Lemma run_edge_op_grow g (o : edge_op num) :
  well_formed_edge_op o ->
  exists extra, edge_keys (run_edge_op g o) = edge_keys g ++ extra.
Proof.
  intros Hwf. unfold run_edge_op, merge_edges.
  destruct (fold_merge_edge_grow (eo_type o) (eo_set o)
              (list_prod (match_nodes (eo_src o).1 (eo_src o).2 g)
                         (match_nodes (eo_dst o).1 (eo_dst o).2 g)) g Hwf)
    as (extra & Hk & _). by exists extra.
Qed.

Lemma run_edge_op_stable g (o : edge_op num) :
  well_formed_edge_op o ->
  edge_saturated g o ->
  edge_keys (run_edge_op g o) = edge_keys g.
Proof.
  intros Hwf Hsat. apply fold_merge_edge_saturated; [done|].
  intros [s d] Hsd. apply list_elem_of_In, in_prod_iff in Hsd as [Hs Hd].
  apply Hsat; by apply list_elem_of_In.
Qed.

Lemma edge_saturated_mono g g' (o : edge_op num) :
  node_keys g' = node_keys g ->
  (forall k, k ∈ edge_keys g -> k ∈ edge_keys g') ->
  edge_saturated g o -> edge_saturated g' o.
Proof.
  intros Hn He Hsat s d Hs Hd.
  rewrite (match_nodes_keys _ _ g' g Hn) in Hs.
  rewrite (match_nodes_keys _ _ g' g Hn) in Hd.
  by apply He, Hsat.
Qed.

Lemma run_edge_op_saturates g (o : edge_op num) :
  well_formed_edge_op o ->
  edge_saturated (run_edge_op g o) o.
Proof.
  intros Hwf s d Hs Hd.
  rewrite (match_nodes_keys _ _ _ g (run_edge_op_node_keys g o)) in Hs.
  rewrite (match_nodes_keys _ _ _ g (run_edge_op_node_keys g o)) in Hd.
  apply (fold_merge_edge_covers (eo_type o) (eo_set o) _ g (s, d) Hwf).
  apply list_elem_of_In, in_prod_iff. split; by apply list_elem_of_In.
Qed.

Lemma run_node_op_edges g (o : node_op num) :
  g_edges (run_node_op g o) = g_edges g.
Proof. apply merge_node_edges. Qed.

(** *** Sequences of writes *)

Lemma fold_edge_ops_node_keys (os : list (edge_op num)) g :
  g_nodes (fold_left run_edge_op os g) = g_nodes g.
Proof.
  revert g. induction os as [|o os IH]; intros g; simpl; [done|].
  rewrite IH. apply run_edge_op_nodes.
Qed.

Lemma fold_edge_ops_grow (os : list (edge_op num)) g :
  Forall well_formed_edge_op os ->
  exists extra, edge_keys (fold_left run_edge_op os g) = edge_keys g ++ extra.
Proof.
  intros Hwf. revert g. induction Hwf as [|o os Ho Hos IH]; intros g; simpl.
  - exists []. by rewrite app_nil_r.
  - destruct (IH (run_edge_op g o)) as (ex2 & ->).
    destruct (run_edge_op_grow g o Ho) as (ex1 & ->).
    exists (ex1 ++ ex2). by rewrite app_assoc.
Qed.

Lemma fold_edge_ops_stable (os : list (edge_op num)) g :
  Forall well_formed_edge_op os ->
  (forall o, o ∈ os -> edge_saturated g o) ->
  edge_keys (fold_left run_edge_op os g) = edge_keys g.
Proof.
  intros Hwf. revert g. induction Hwf as [|o os Ho Hos IH]; intros g Hsat;
    simpl; [done|].
  assert (Hstep : edge_keys (run_edge_op g o) = edge_keys g).
  { apply run_edge_op_stable; [done|]. apply Hsat. left. }
  rewrite IH; [done|]. intros o' Ho'.
  apply (edge_saturated_mono g); [apply run_edge_op_node_keys| |].
  - intros k. by rewrite Hstep.
  - apply Hsat. by right.
Qed.

Lemma fold_edge_ops_saturates (os : list (edge_op num)) g (o : edge_op num) :
  Forall well_formed_edge_op os ->
  o ∈ os ->
  edge_saturated (fold_left run_edge_op os g) o.
Proof.
  intros Hwf. revert g. induction Hwf as [|o' os Ho' Hos IH]; intros g Hin.
  - by apply elem_of_nil in Hin.
  - simpl. apply elem_of_cons in Hin as [->|Hin]; [|by apply IH].
    apply (edge_saturated_mono (run_edge_op g o')).
    + unfold node_keys. by rewrite fold_edge_ops_node_keys.
    + intros k Hk.
      destruct (fold_edge_ops_grow os (run_edge_op g o') Hos) as (extra & ->).
      apply elem_of_app. by left.
    + by apply run_edge_op_saturates.
Qed.

Lemma fold_node_ops_edges (os : list (node_op num)) g :
  g_edges (fold_left run_node_op os g) = g_edges g.
Proof.
  revert g. induction os as [|o os IH]; intros g; simpl; [done|].
  rewrite IH. apply run_node_op_edges.
Qed.

Lemma fold_node_ops_grow (os : list (node_op num)) g :
  Forall well_formed_node_op os ->
  exists extra, node_keys (fold_left run_node_op os g) = node_keys g ++ extra.
Proof.
  intros Hwf. revert g. induction Hwf as [|o os Ho Hos IH]; intros g; simpl.
  - exists []. by rewrite app_nil_r.
  - destruct (IH (run_node_op g o)) as (ex2 & ->).
    destruct (merge_node_keys (no_label o) (no_id o) (no_set o) g Ho)
      as (_ & ex1 & Hex1).
    unfold run_node_op. rewrite Hex1.
    exists (ex1 ++ ex2). by rewrite app_assoc.
Qed.

Lemma fold_node_ops_covers (os : list (node_op num)) g (o : node_op num) :
  Forall well_formed_node_op os ->
  o ∈ os ->
  (no_label o, Some (no_id o)) ∈ node_keys (fold_left run_node_op os g).
Proof.
  intros Hwf. revert g. induction Hwf as [|o' os Ho' Hos IH]; intros g Hin.
  - by apply elem_of_nil in Hin.
  - simpl. apply elem_of_cons in Hin as [->|Hin]; [|by apply IH].
    destruct (fold_node_ops_grow os (run_node_op g o') Hos) as (extra & ->).
    apply elem_of_app. left. by apply merge_node_keys.
Qed.

Lemma fold_node_ops_stable (os : list (node_op num)) g :
  Forall well_formed_node_op os ->
  (forall o, o ∈ os -> (no_label o, Some (no_id o)) ∈ node_keys g) ->
  node_keys (fold_left run_node_op os g) = node_keys g.
Proof.
  intros Hwf. revert g. induction Hwf as [|o os Ho Hos IH]; intros g Hall;
    simpl; [done|].
  assert (Hstep : node_keys (run_node_op g o) = node_keys g).
  { apply merge_node_present; [done|]. apply Hall. left. }
  rewrite IH; [done|]. intros o' Ho'. rewrite Hstep. apply Hall. by right.
Qed.

Lemma node_ops_well_formed (enc : string -> list num) (fx : fixtures num) :
  Forall well_formed_node_op (node_ops enc fx).
Proof.
  unfold node_ops. rewrite !Forall_app, !Forall_fmap. repeat split;
    apply Forall_true; intros r.
  - apply set_product_keeps_key.
  - apply set_supplier_keeps_key.
  - apply set_warehouse_keeps_key.
Qed.

Lemma edge_ops_well_formed (fx : fixtures num) :
  Forall well_formed_edge_op (edge_ops fx).
Proof.
  unfold edge_ops. rewrite Forall_app, Forall_fmap. split.
  - apply Forall_true. intros r. apply set_route_keeps_key.
  - apply Forall_forall. intros o (r & Ho & _)%list_elem_of_bind.
    apply elem_of_cons in Ho as [->|Ho]; [apply id_keeps_edge_key|].
    apply list_elem_of_singleton in Ho as ->. apply id_keeps_edge_key.
Qed.

(** *** A second run finds everything in place *)

Lemma ingest_twice_keys (enc : string -> list num) (fx : fixtures num) g :
  node_keys (ingest enc fx (ingest enc fx g)) = node_keys (ingest enc fx g)
  /\ edge_keys (ingest enc fx (ingest enc fx g))
     = edge_keys (ingest enc fx g).
Proof.
  pose proof (node_ops_well_formed enc fx) as Hnwf.
  pose proof (edge_ops_well_formed fx) as Hewf.
  set (g1 := ingest enc fx g).
  set (g2 := fold_left run_node_op (node_ops enc fx) (q_create_index g1)).
  assert (Hn1 : node_keys g1
                = node_keys (fold_left run_node_op (node_ops enc fx)
                                       (q_create_index g))).
  { unfold g1, ingest, node_keys. by rewrite fold_edge_ops_node_keys. }
  assert (Hn2 : node_keys g2 = node_keys g1).
  { unfold g2. rewrite fold_node_ops_stable; [done|done|].
    intros o Ho. change (node_keys (q_create_index g1)) with (node_keys g1).
    rewrite Hn1. by apply fold_node_ops_covers. }
  assert (He2 : edge_keys g2 = edge_keys g1).
  { unfold g2, edge_keys. by rewrite fold_node_ops_edges. }
  change (ingest enc fx g1) with (fold_left run_edge_op (edge_ops fx) g2).
  split.
  - unfold node_keys at 1. by rewrite fold_edge_ops_node_keys.
  - rewrite fold_edge_ops_stable; [done|done|].
    intros o Ho. apply (edge_saturated_mono g1); [done| |].
    + intros k. by rewrite He2.
    + unfold g1, ingest. by apply fold_edge_ops_saturates.
Qed.

Lemma ingest_twice_counts (enc : string -> list num) (fx : fixtures num) g :
  node_count (ingest enc fx (ingest enc fx g)) = node_count (ingest enc fx g)
  /\ edge_count (ingest enc fx (ingest enc fx g))
     = edge_count (ingest enc fx g).
Proof.
  destruct (ingest_twice_keys enc fx g) as [Hn He].
  unfold node_count, edge_count. split.
  - rewrite <- !(length_fmap node_key). exact (f_equal length Hn).
  - rewrite <- !(length_fmap edge_key). exact (f_equal length He).
Qed.

(** *** Unique keys *)

Lemma match_from_absent (l : label) (i : string) (k : nat)
    (ns : list (node num)) :
  (l, Some i) ∉ node_key <$> ns -> match_from l i k ns = [].
Proof.
  revert k. induction ns as [|n ns IH]; intros k Hnot; simpl; [done|].
  rewrite fmap_cons, not_elem_of_cons in Hnot. destruct Hnot as [Hn Hns].
  rewrite is_node_key. case_bool_decide; [congruence|]. by apply IH.
Qed.

Lemma match_from_unique (l : label) (i : string) (k : nat)
    (ns : list (node num)) :
  NoDup (node_key <$> ns) -> length (match_from l i k ns) <= 1.
Proof.
  revert k. induction ns as [|n ns IH]; intros k Hnd; simpl; [lia|].
  rewrite fmap_cons in Hnd. apply NoDup_cons in Hnd as [Hn Hns].
  rewrite is_node_key. case_bool_decide as Hk; [|by apply IH].
  rewrite match_from_absent; [simpl; lia|]. by rewrite <- Hk.
Qed.

Lemma match_nodes_unique (l : label) (i : string) g :
  NoDup (node_keys g) -> length (match_nodes l i g) <= 1.
Proof. apply match_from_unique. Qed.

Lemma merge_node_NoDup (l : label) (i : string)
    (upd : node num -> node num) g :
  keeps_node_key upd ->
  NoDup (node_keys g) -> NoDup (node_keys (merge_node l i upd g)).
Proof.
  intros Hkeep Hnd.
  destruct (decide ((l, Some i) ∈ node_keys g)) as [Hin|Hnot].
  - by rewrite merge_node_present.
  - rewrite merge_node_absent by done. apply NoDup_app. repeat split.
    + done.
    + intros k Hk ->%list_elem_of_singleton. done.
    + apply NoDup_singleton.
Qed.

Lemma merge_edge_NoDup (t : reltype) (upd : edge num -> edge num) g
    (sd : nat * nat) :
  keeps_edge_key upd ->
  NoDup (edge_keys g) -> NoDup (edge_keys (merge_edge t upd g sd)).
Proof.
  intros Hkeep Hnd.
  destruct (decide ((t, sd.1, sd.2) ∈ edge_keys g)) as [Hin|Hnot].
  - by rewrite merge_edge_present.
  - rewrite merge_edge_absent by done. apply NoDup_app. repeat split.
    + done.
    + intros k Hk ->%list_elem_of_singleton. done.
    + apply NoDup_singleton.
Qed.

Lemma run_edge_op_NoDup g (o : edge_op num) :
  well_formed_edge_op o ->
  NoDup (edge_keys g) -> NoDup (edge_keys (run_edge_op g o)).
Proof.
  intros Hwf. unfold run_edge_op, merge_edges.
  generalize (list_prod (match_nodes (eo_src o).1 (eo_src o).2 g)
                        (match_nodes (eo_dst o).1 (eo_dst o).2 g)) as ps.
  intros ps. revert g. induction ps as [|sd ps IH]; intros g Hnd; simpl;
    [done|].
  by apply IH, merge_edge_NoDup.
Qed.

Lemma ingest_NoDup (enc : string -> list num) (fx : fixtures num) g :
  (NoDup (node_keys g) -> NoDup (node_keys (ingest enc fx g)))
  /\ (NoDup (edge_keys g) -> NoDup (edge_keys (ingest enc fx g))).
Proof.
  pose proof (node_ops_well_formed enc fx) as Hnwf.
  pose proof (edge_ops_well_formed fx) as Hewf.
  unfold ingest. split; intros Hnd.
  - unfold node_keys at 1. rewrite fold_edge_ops_node_keys.
    change (NoDup (node_keys (q_create_index g))) in Hnd.
    revert Hnd. generalize (q_create_index g) as g0.
    induction Hnwf as [|o os Ho Hos IH]; intros g0 Hnd; simpl; [done|].
    by apply IH, merge_node_NoDup.
  - assert (Hnd0 : NoDup (edge_keys (fold_left run_node_op (node_ops enc fx)
                                               (q_create_index g)))).
    { unfold edge_keys at 1. by rewrite fold_node_ops_edges. }
    revert Hnd0. generalize (fold_left run_node_op (node_ops enc fx)
                                       (q_create_index g)) as g0.
    induction Hewf as [|o os Ho Hos IH]; intros g0 Hnd0; simpl; [done|].
    by apply IH, run_edge_op_NoDup.
Qed.

(** *** A merge with a missing endpoint *)

Lemma list_prod_nil_r {A B : Type} (l : list A) : list_prod l (@nil B) = [].
Proof. induction l as [|a l IH]; simpl; [done|exact IH]. Qed.

Lemma run_edge_op_dangling g (o : edge_op num) :
  ((eo_src o).1, Some (eo_src o).2) ∉ node_keys g
  \/ ((eo_dst o).1, Some (eo_dst o).2) ∉ node_keys g ->
  run_edge_op g o = g.
Proof.
  intros [Hs|Hd]; unfold run_edge_op, merge_edges.
  - apply match_nodes_nil in Hs. by rewrite Hs.
  - apply match_nodes_nil in Hd. by rewrite Hd, list_prod_nil_r.
Qed.

End Merging.

Section Loading.
Context {num : Type} `{Numeric num} `{GroupOrder}.
Variable enc : string -> list num.

Lemma runs_as_bind {A B : Type} (m1 : M num A) (m2 : M num B)
    (f1 f2 : graph num -> graph num) :
  runs_as enc m1 f1 -> runs_as enc m2 f2 ->
  runs_as enc (m1 ;; m2) (fun g => f2 (f1 g)).
Proof.
  intros H1 H2 g gem ms tr.
  destruct (H1 g gem ms tr) as (a1 & t1 & Hr1).
  destruct (H2 (f1 g) gem ms (tr ++ t1)) as (a2 & t2 & Hr2).
  exists a2, (t1 ++ t2). unfold bind. rewrite Hr1, Hr2. by rewrite app_assoc.
Qed.

Lemma runs_as_for_each {A : Type} (xs : list A) (body : A -> M num unit)
    (step : graph num -> A -> graph num) :
  (forall x, runs_as enc (body x) (fun g => step g x)) ->
  runs_as enc (for_each xs body) (fun g => fold_left step xs g).
Proof.
  intros Hbody. induction xs as [|x xs IH]; simpl.
  - intros g gem ms tr. exists tt, []. by rewrite app_nil_r.
  - apply (runs_as_bind _ _ (fun g => step g x)); [apply Hbody | apply IH].
Qed.

Lemma runs_as_with_session {A : Type} (m : M num A)
    (f : graph num -> graph num) :
  runs_as enc m f -> runs_as enc (with_session m) f.
Proof.
  intros Hm g gem ms tr.
  destruct (Hm g gem ms (tr ++ [EvSessionOpen])) as (a & t & Hr).
  exists a, ([EvSessionOpen] ++ t ++ [EvSessionClose]).
  unfold with_session, bind, try_finally. cbn [emit w_graph w_faults
    w_encode w_gemini w_messages w_trace].
  rewrite Hr. cbn. by rewrite <- !app_assoc.
Qed.

Lemma runs_as_session_run (q : query num) :
  runs_as enc (session_run q) (query_write q).
Proof. intros g gem ms tr. by exists (query_rows q g), [EvRun q]. Qed.

Lemma runs_as_ret {A : Type} (a : A) : runs_as enc (ret a) (fun g => g).
Proof. intros g gem ms tr. exists a, []. by rewrite app_nil_r. Qed.

Lemma runs_as_ext {A : Type} (m : M num A) (f f' : graph num -> graph num) :
  (forall g, f g = f' g) -> runs_as enc m f -> runs_as enc m f'.
Proof.
  intros Hext Hm g gem ms tr. destruct (Hm g gem ms tr) as (a & t & Hr).
  exists a, t. by rewrite <- Hext.
Qed.

Lemma fold_left_fmap {A B C : Type} (f : A -> B -> A) (h : C -> B)
    (l : list C) (a : A) :
  fold_left f (h <$> l) a = fold_left (fun x c => f x (h c)) l a.
Proof. revert a. induction l as [|c l IH]; intros a; simpl; [done|apply IH]. Qed.

Lemma fold_left_bind_pair {A B C : Type} (f : A -> B -> A) (h1 h2 : C -> B)
    (l : list C) (a : A) :
  fold_left f (c ← l; [h1 c; h2 c]) a
  = fold_left (fun x c => f (f x (h1 c)) (h2 c)) l a.
Proof. revert a. induction l as [|c l IH]; intros a; simpl; [done|apply IH]. Qed.

Lemma load_products_runs (fx : fixtures num) :
  runs_as enc (load_products fx)
    (fun g => fold_left run_node_op (product_op enc <$> products fx)
                        (q_create_index g)).
Proof.
  unfold load_products.
  apply (runs_as_bind _ _ q_create_index
           (fold_left run_node_op (product_op enc <$> products fx))).
  - apply runs_as_with_session, (runs_as_session_run QCreateIndex).
  - eapply runs_as_ext; [intros g; symmetry; apply fold_left_fmap|].
    apply runs_as_for_each. intros r g gem ms tr.
    exists tt, [EvEncode (p_description r); EvSessionOpen;
                EvRun (QMergeProduct r (enc (p_description r)));
                EvSessionClose].
    cbn. by rewrite <- !app_assoc.
Qed.

Lemma run_then_ret (q : query num) :
  runs_as enc (session_run q ;; ret tt) (query_write q).
Proof.
  apply (runs_as_bind _ _ (query_write q) (fun g => g));
    [apply runs_as_session_run | apply runs_as_ret].
Qed.

Lemma load_suppliers_runs (fx : fixtures num) :
  runs_as enc (load_suppliers fx)
    (fold_left run_node_op (supplier_op <$> suppliers fx)).
Proof.
  eapply runs_as_ext; [intros g; symmetry; apply fold_left_fmap|].
  apply runs_as_with_session, runs_as_for_each. intros r.
  apply (run_then_ret (QMergeSupplier r)).
Qed.

Lemma load_warehouses_runs (fx : fixtures num) :
  runs_as enc (load_warehouses fx)
    (fold_left run_node_op (warehouse_op <$> warehouses fx)).
Proof.
  eapply runs_as_ext; [intros g; symmetry; apply fold_left_fmap|].
  apply runs_as_with_session, runs_as_for_each. intros r.
  apply (run_then_ret (QMergeWarehouse r)).
Qed.

Lemma load_transportation_routes_runs (fx : fixtures num) :
  runs_as enc (load_transportation_routes fx)
    (fold_left run_edge_op (route_op <$> routes fx)).
Proof.
  eapply runs_as_ext; [intros g; symmetry; apply fold_left_fmap|].
  apply runs_as_with_session, runs_as_for_each. intros r.
  apply (run_then_ret (QMergeRoute r)).
Qed.

Lemma create_relationships_runs (fx : fixtures num) :
  runs_as enc (create_relationships fx)
    (fold_left run_edge_op
       (r ← relationships fx; [supplies_op r; stored_at_op r])).
Proof.
  eapply runs_as_ext; [intros g; symmetry; apply fold_left_bind_pair|].
  apply runs_as_with_session, runs_as_for_each. intros r g gem ms tr.
  exists tt, [EvRun (QMergeSupplies r); EvRun (QMergeStoredAt r)].
  cbn. by rewrite <- !app_assoc.
Qed.

(** Without failures [load_all_data] succeeds and leaves the graph that
    the sequence of its writes produces. *)
Lemma load_all_data_runs (fx : fixtures num) :
  runs_as enc (load_all_data fx) (ingest enc fx).
Proof.
  pose proof (runs_as_bind _ _ _ _ (load_transportation_routes_runs fx)
                (create_relationships_runs fx)) as H4.
  pose proof (runs_as_bind _ _ _ _ (load_warehouses_runs fx) H4) as H3.
  pose proof (runs_as_bind _ _ _ _ (load_suppliers_runs fx) H3) as H2.
  pose proof (runs_as_bind _ _ _ _ (load_products_runs fx) H2) as H1.
  eapply runs_as_ext; [|exact H1].
  intros g. unfold ingest, node_ops, edge_ops. cbn beta.
  by rewrite !fold_left_app.
Qed.

End Loading.

Section Ingestion.
Context {num : Type} `{Numeric num} `{GroupOrder}.

Implicit Types (g : graph num) (w : world num) (fx : fixtures num).

Lemma run_edge_op_adds_at_most_one g (o : edge_op num) :
  well_formed_edge_op o ->
  NoDup (node_keys g) ->
  exists extra,
    edge_keys (run_edge_op g o) = edge_keys g ++ extra
    /\ length extra <= 1
    /\ forall k, k ∈ extra -> k.1.1 = eo_type o.
Proof.
  intros Hwf Hnd. unfold run_edge_op, merge_edges.
  destruct (fold_merge_edge_grow (eo_type o) (eo_set o)
              (list_prod (match_nodes (eo_src o).1 (eo_src o).2 g)
                         (match_nodes (eo_dst o).1 (eo_dst o).2 g)) g Hwf)
    as (extra & Hk & Hlen & Hex).
  exists extra. split; [done|]. split.
  - rewrite length_prod in Hlen.
    pose proof (match_nodes_unique (eo_src o).1 (eo_src o).2 g Hnd).
    pose proof (match_nodes_unique (eo_dst o).1 (eo_dst o).2 g Hnd).
    nia.
  - intros k Hin. by destruct (Hex k Hin) as (sd & _ & ->).
Qed.

Lemma load_all_data_result fx w :
  no_failure w ->
  exists w',
    load_all_data fx w = (Ret tt, w')
    /\ w_graph w' = ingest (w_encode w) fx (w_graph w)
    /\ no_failure w'
    /\ w_encode w' = w_encode w.
Proof.
  destruct w as [g faults enc gem ms tr]. unfold no_failure. simpl.
  intros ->.
  destruct (load_all_data_runs enc fx g gem ms tr) as ([] & t & Hrun).
  eexists. split; [exact Hrun|]. done.
Qed.

(** C5. With a store that does not fail, a run of [load_all_data]
    followed by a second run on the same fixtures both succeed, and the
    second run leaves the number of nodes and the number of edges as the
    first run left them: every upsert of the second run finds the node
    with its label and id, and every relationship merge finds the edge
    with its type and endpoints, so the lists of node keys and of edge
    keys are unchanged.  No run introduces a second node with a key
    already present nor a second edge with the same type and endpoints. *)
Theorem ingestion_twice_same_counts fx w :
  no_failure w ->
  exists w1 w2,
    load_all_data fx w = (Ret tt, w1)
    /\ load_all_data fx w1 = (Ret tt, w2)
    /\ node_count (w_graph w2) = node_count (w_graph w1)
    /\ edge_count (w_graph w2) = edge_count (w_graph w1)
    /\ node_keys (w_graph w2) = node_keys (w_graph w1)
    /\ edge_keys (w_graph w2) = edge_keys (w_graph w1)
    /\ (NoDup (node_keys (w_graph w)) -> NoDup (node_keys (w_graph w1)))
    /\ (NoDup (edge_keys (w_graph w)) -> NoDup (edge_keys (w_graph w1))).
Proof.
  intros Hok.
  destruct (load_all_data_result fx w Hok) as (w1 & Hrun1 & Hg1 & Hok1 & He1).
  destruct (load_all_data_result fx w1 Hok1) as (w2 & Hrun2 & Hg2 & _ & _).
  exists w1, w2. rewrite Hg2, He1, Hg1.
  destruct (ingest_twice_counts (w_encode w) fx (w_graph w)) as [Hn He].
  destruct (ingest_twice_keys (w_encode w) fx (w_graph w)) as [Hnk Hek].
  destruct (ingest_NoDup (w_encode w) fx (w_graph w)) as [Hnd Hed].
  repeat split; done.
Qed.

(** C6. A relationship merge whose supplier, product or warehouse id is
    not the id of a loaded node, and a route merge whose [from] or [to] is
    not the id of a loaded warehouse, leave the graph as it is: the match
    has no row and nothing is merged.  Nothing is raised for it and
    nothing checks it afterwards: with a store that does not fail, the
    route loader, the relationship loader and the whole of
    [load_all_data] return normally for every set of fixtures. *)
Theorem dangling_records_create_nothing (r : relationship_rec)
    (rt : route_rec num) g :
  ((Supplier, Some (supplier_id r)) ∉ node_keys g
   \/ (Product, Some (product_id r)) ∉ node_keys g ->
   q_merge_supplies r g = g)
  /\ ((Product, Some (product_id r)) ∉ node_keys g
      \/ (Warehouse, Some (warehouse_id r)) ∉ node_keys g ->
      q_merge_stored_at r g = g)
  /\ ((Warehouse, Some (r_from rt)) ∉ node_keys g
      \/ (Warehouse, Some (r_to rt)) ∉ node_keys g ->
      q_merge_route rt g = g)
  /\ (forall fx enc gem ms tr,
        (exists t, load_transportation_routes fx (World g [] enc gem ms tr)
                   = (Ret tt,
                      World (fold_left (fun g0 r0 => q_merge_route r0 g0)
                                       (routes fx) g)
                            [] enc gem ms (tr ++ t)))
        /\ (exists t, create_relationships fx (World g [] enc gem ms tr)
                      = (Ret tt,
                         World (fold_left
                                  (fun g0 r0 =>
                                     q_merge_stored_at r0
                                       (q_merge_supplies r0 g0))
                                  (relationships fx) g)
                               [] enc gem ms (tr ++ t)))
        /\ (exists t, load_all_data fx (World g [] enc gem ms tr)
                      = (Ret tt,
                         World (ingest enc fx g) [] enc gem ms (tr ++ t)))).
Proof.
  split; [|split; [|split]].
  - apply (run_edge_op_dangling g (supplies_op r)).
  - apply (run_edge_op_dangling g (stored_at_op r)).
  - apply (run_edge_op_dangling g (route_op rt)).
  - intros fx enc gem ms tr. split; [|split].
    + destruct (load_transportation_routes_runs enc fx g gem ms tr)
        as ([] & t & Hrun).
      exists t. rewrite Hrun. by rewrite fold_left_fmap.
    + destruct (create_relationships_runs enc fx g gem ms tr)
        as ([] & t & Hrun).
      exists t. rewrite Hrun. by rewrite fold_left_bind_pair.
    + destruct (load_all_data_runs enc fx g gem ms tr) as ([] & t & Hrun).
      by exists t.
Qed.

Lemma three_nodes_keys :
  node_keys (num := num) three_nodes
  = [(Supplier, Some "s1"); (Product, Some "p1"); (Warehouse, Some "w1")].
Proof. reflexivity. Qed.

Lemma three_nodes_NoDup : NoDup (node_keys (num := num) three_nodes).
Proof.
  rewrite three_nodes_keys.
  repeat (apply NoDup_cons; split;
          [rewrite ?elem_of_cons, ?elem_of_nil; intros Hin;
           repeat destruct Hin as [Hin|Hin]; done|]).
  apply NoDup_nil_2.
Qed.

(** C10. One relationship record is two queries.  The SUPPLIES merge
    needs the supplier and the product, the STORED_AT merge needs the
    product and the warehouse, and neither looks at what the other found:
    when the supplier id matches no node while the product and the
    warehouse exist, the STORED_AT edge is in the graph afterwards and no
    SUPPLIES edge was added; when only the warehouse is missing, the
    SUPPLIES edge is there and no STORED_AT edge was added.  With ids that
    are unique per label a record adds at most two edges, and each of
    zero, one and two occurs. *)
Theorem relationship_merges_are_independent (r : relationship_rec) g :
  g_nodes (q_merge_stored_at r (q_merge_supplies r g)) = g_nodes g
  /\ (forall enc gem ms tr,
        create_relationships (only_relationship r) (World g [] enc gem ms tr)
        = (Ret tt,
           World (q_merge_stored_at r (q_merge_supplies r g)) [] enc gem ms
                 (tr ++ [EvSessionOpen; EvRun (QMergeSupplies r);
                         EvRun (QMergeStoredAt r); EvSessionClose])))
  /\ (forall p wh : nat,
        (Supplier, Some (supplier_id r)) ∉ node_keys g ->
        p ∈ match_nodes Product (product_id r) g ->
        wh ∈ match_nodes Warehouse (warehouse_id r) g ->
        (STORED_AT, p, wh)
          ∈ edge_keys (q_merge_stored_at r (q_merge_supplies r g))
        /\ forall k,
             k ∈ edge_keys (q_merge_stored_at r (q_merge_supplies r g)) ->
             k ∈ edge_keys g \/ k.1.1 = STORED_AT)
  /\ (forall s p : nat,
        (Warehouse, Some (warehouse_id r)) ∉ node_keys g ->
        s ∈ match_nodes Supplier (supplier_id r) g ->
        p ∈ match_nodes Product (product_id r) g ->
        (SUPPLIES, s, p)
          ∈ edge_keys (q_merge_stored_at r (q_merge_supplies r g))
        /\ forall k,
             k ∈ edge_keys (q_merge_stored_at r (q_merge_supplies r g)) ->
             k ∈ edge_keys g \/ k.1.1 = SUPPLIES)
  /\ (NoDup (node_keys g) ->
        edge_count g
          <= edge_count (q_merge_stored_at r (q_merge_supplies r g))
          <= edge_count g + 2)
  /\ (forall k, k <= 2 ->
        exists r0 : relationship_rec,
          edge_count (q_merge_stored_at r0
                        (q_merge_supplies r0 (three_nodes (num := num))))
          = edge_count (three_nodes (num := num)) + k).
Proof.
  change (q_merge_supplies r g) with (run_edge_op g (supplies_op r)).
  set (g1 := run_edge_op g (supplies_op r)).
  change (q_merge_stored_at r g1) with (run_edge_op g1 (stored_at_op r)).
  set (g2 := run_edge_op g1 (stored_at_op r)).
  assert (Hwf1 : well_formed_edge_op (supplies_op (num := num) r))
    by apply id_keeps_edge_key.
  assert (Hwf2 : well_formed_edge_op (stored_at_op (num := num) r))
    by apply id_keeps_edge_key.
  assert (Hk1 : node_keys g1 = node_keys g) by apply run_edge_op_node_keys.
  assert (Hk2 : node_keys g2 = node_keys g1) by apply run_edge_op_node_keys.
  split; [|split; [|split; [|split; [|split]]]].
  - unfold g2. rewrite (proj1 (run_edge_op_nodes g1 _)).
    apply run_edge_op_nodes.
  - intros enc gem ms tr. cbn. by rewrite <- !app_assoc.
  - intros p wh Hs Hp Hw.
    assert (Hg1 : g1 = g) by (apply run_edge_op_dangling; by left).
    split.
    + apply (run_edge_op_saturates g1 (stored_at_op r) Hwf2); simpl;
        fold g2; rewrite (match_nodes_keys _ _ g2 g); try done;
        by rewrite Hk2, Hk1.
    + intros k Hk.
      destruct (fold_merge_edge_grow STORED_AT id
                  (list_prod (match_nodes Product (product_id r) g1)
                             (match_nodes Warehouse (warehouse_id r) g1))
                  g1 Hwf2) as (extra & Hkeys & _ & Hex).
      change (edge_keys g2 = edge_keys g1 ++ extra) in Hkeys.
      rewrite Hkeys, Hg1 in Hk. apply elem_of_app in Hk as [Hk|Hk];
        [by left|].
      right. by destruct (Hex k Hk) as (sd & _ & ->).
  - intros s p Hw Hs Hp.
    assert (Hg2 : g2 = g1) by (apply run_edge_op_dangling; right;
                               simpl; by rewrite Hk1).
    rewrite Hg2. split.
    + apply (run_edge_op_saturates g (supplies_op r) Hwf1); simpl;
        fold g1; rewrite (match_nodes_keys _ _ g1 g); done.
    + intros k Hk.
      destruct (fold_merge_edge_grow SUPPLIES id
                  (list_prod (match_nodes Supplier (supplier_id r) g)
                             (match_nodes Product (product_id r) g))
                  g Hwf1) as (extra & Hkeys & _ & Hex).
      change (edge_keys g1 = edge_keys g ++ extra) in Hkeys.
      rewrite Hkeys in Hk. apply elem_of_app in Hk as [Hk|Hk]; [by left|].
      right. by destruct (Hex k Hk) as (sd & _ & ->).
  - intros Hnd.
    destruct (run_edge_op_adds_at_most_one g (supplies_op r) Hwf1 Hnd)
      as (ex1 & He1 & Hl1 & _).
    assert (Hnd1 : NoDup (node_keys g1)) by by rewrite Hk1.
    destruct (run_edge_op_adds_at_most_one g1 (stored_at_op r) Hwf2 Hnd1)
      as (ex2 & He2 & Hl2 & _).
    fold g1 in He1. fold g2 in He2.
    unfold edge_count. rewrite <- !(length_fmap edge_key).
    change (length (edge_keys g) <= length (edge_keys g2)
            <= length (edge_keys g) + 2).
    rewrite He2, He1, !length_app. lia.
  - intros [|[|[|k]]] Hk; [| | |lia].
    + by exists (RelationshipRec "s9" "p9" "w9").
    + by exists (RelationshipRec "s9" "p1" "w1").
    + by exists (RelationshipRec "s1" "p1" "w1").
Qed.

End Ingestion.

Lemma ingestion_twice_same_counts_witness :
  no_failure empty_world
  /\ exists w1 w2,
       load_all_data scenario_fixtures empty_world = (Ret tt, w1)
       /\ load_all_data scenario_fixtures w1 = (Ret tt, w2)
       /\ node_count (w_graph w2) = node_count (w_graph w1)
       /\ edge_count (w_graph w2) = edge_count (w_graph w1).
Proof.
  split; [reflexivity|].
  destruct (ingestion_twice_same_counts scenario_fixtures empty_world
              eq_refl) as (w1 & w2 & Hr1 & Hr2 & Hn & He & _).
  exists w1, w2. repeat split; assumption.
Defined.

Lemma three_nodes_without_s9 :
  (Supplier, Some "s9") ∉ node_keys (num := Z) three_nodes.
Proof.
  rewrite three_nodes_keys, !elem_of_cons, elem_of_nil.
  intros Hin. repeat destruct Hin as [Hin|Hin]; done.
Qed.

Lemma dangling_records_create_nothing_witness :
  ((Supplier, Some "s9") ∉ node_keys (num := Z) three_nodes)
  /\ q_merge_supplies (RelationshipRec "s9" "p1" "w1") three_nodes
     = three_nodes (num := Z).
Proof.
  split; [exact three_nodes_without_s9|].
  apply (proj1 (dangling_records_create_nothing
                  (RelationshipRec "s9" "p1" "w1")
                  (RouteRec "w1" "w7" None None) three_nodes)).
  left. exact three_nodes_without_s9.
Defined.

Lemma relationship_merges_are_independent_witness :
  ((Supplier, Some "s9") ∉ node_keys (num := Z) three_nodes)
  /\ 1 ∈ match_nodes Product "p1" (three_nodes (num := Z))
  /\ 2 ∈ match_nodes Warehouse "w1" (three_nodes (num := Z))
  /\ NoDup (node_keys (num := Z) three_nodes)
  /\ (STORED_AT, 1, 2)
       ∈ edge_keys (q_merge_stored_at (RelationshipRec "s9" "p1" "w1")
                      (q_merge_supplies (RelationshipRec "s9" "p1" "w1")
                         (three_nodes (num := Z))))
  /\ edge_count (q_merge_stored_at (RelationshipRec "s9" "p1" "w1")
                   (q_merge_supplies (RelationshipRec "s9" "p1" "w1")
                      (three_nodes (num := Z))))
     <= edge_count (three_nodes (num := Z)) + 2.
Proof.
  assert (Hp : 1 ∈ match_nodes Product "p1" (three_nodes (num := Z)))
    by (apply list_elem_of_singleton; reflexivity).
  assert (Hw : 2 ∈ match_nodes Warehouse "w1" (three_nodes (num := Z)))
    by (apply list_elem_of_singleton; reflexivity).
  split; [exact three_nodes_without_s9|]. split; [exact Hp|].
  split; [exact Hw|]. split; [exact three_nodes_NoDup|].
  destruct (relationship_merges_are_independent
              (RelationshipRec "s9" "p1" "w1") (three_nodes (num := Z)))
    as (_ & _ & Hmissing & _ & Hcount & _).
  split; [exact (proj1 (Hmissing 1 2 three_nodes_without_s9 Hp Hw))|].
  exact (proj2 (Hcount three_nodes_NoDup)).
Defined.

Section Retrieval.
Context {num : Type} `{Numeric num} `{GroupOrder}.

Implicit Types (w : world num) (gl : app_globals) (question : string).

(** *** An empty ranking *)

Lemma candidates_from_no_embedding (q : list num) (k : nat)
    (ns : list (node num)) :
  (forall n, n ∈ ns -> n_label n = Product -> n_embedding n = None) ->
  candidates_from q k ns = [].
Proof.
  revert k. induction ns as [|n ns IH]; intros k Hnone; simpl; [done|].
  assert (Hn := Hnone n (list_elem_of_here _ _)).
  destruct (n_label n); rewrite ?Hn by done; apply IH;
    intros n' Hin; apply Hnone; by right.
Qed.

Lemma q_similarity_no_embedding (q : list num) (g : graph num) :
  no_embedding g -> q_similarity q g = [].
Proof.
  intros Hnone. unfold q_similarity, ranked, candidates.
  rewrite candidates_from_no_embedding by done.
  unfold aggregate. cbn.
  by rewrite (proj1 (Permutation_nil_r _) (group_order_perm [])).
Qed.

(** C2. When no Product node has an embedding, and the model is loaded
    and neither the store nor the model fails, the similarity query has no
    row and [get_relevant_context] returns the sentinel "No relevant
    context found.", for every question. *)
Theorem no_embedding_gives_sentinel gl question w :
  no_embedding (w_graph w) ->
  embedding_model gl = true ->
  no_failure w ->
  query_rows (QSimilarity (w_encode w question)) (w_graph w) = []
  /\ exists w', get_relevant_context gl question w
                = (Ret "No relevant context found.", w').
Proof.
  intros Hnone Hmodel Hok.
  assert (Hrows : q_similarity (w_encode w question) (w_graph w) = [])
    by by apply q_similarity_no_embedding.
  split; [exact Hrows|].
  destruct w as [g faults enc gem ms tr], gl as [u un pw key model].
  unfold no_failure in Hok. simpl in Hok, Hmodel, Hrows. subst faults model.
  cbn -[q_similarity render_context]. rewrite Hrows.
  eauto.
Qed.

(** *** The handler and the cleanup *)

(** Every way the first three external calls of a retrieval can go. *)
Ltac retrieval_cases w gl :=
  let g := fresh "g" in
  let faults := fresh "faults" in
  let model := fresh "model" in
  destruct w as [g faults ? ? ? ?], gl as [? ? ? ? model];
  destruct faults as [|[|] [|[|] [|[|] faults]]], model;
  cbn -[q_similarity render_context].

(** C3. [get_relevant_context] returns a string on every run, whatever
    the store and the embedding library do: when a statement inside its
    [try] raises, the string is "Error retrieving context."; when none
    does, it is the string they computed.  A model that failed to load
    when the script started leaves [embedding_model] unbound without
    stopping the script, and retrieval then returns the same error
    string. *)
Theorem get_relevant_context_never_raises gl question w :
  (exists s w', get_relevant_context gl question w = (Ret s, w'))
  /\ (forall e w1,
        retrieval_attempt gl question w = (Raise e, w1) ->
        exists w', get_relevant_context gl question w
                   = (Ret "Error retrieving context.", w'))
  /\ (forall s w1,
        retrieval_attempt gl question w = (Ret s, w1) ->
        exists w', get_relevant_context gl question w = (Ret s, w'))
  /\ (embedding_model gl = false ->
        exists w', get_relevant_context gl question w
                   = (Ret "Error retrieving context.", w'))
  /\ (forall env, exists gl0 w0,
        app_module env w = (Ret gl0, w0)
        /\ (forall rest, w_faults w = true :: rest ->
              embedding_model gl0 = false)).
Proof.
  repeat split.
  - retrieval_cases w gl; eauto.
  - intros e w1. retrieval_cases w gl; intros Hrun; try discriminate; eauto.
  - intros s w1. retrieval_cases w gl; intros Hrun; try discriminate;
      injection Hrun as <- _; eauto.
  - retrieval_cases w gl; intros Hmodel; try discriminate; eauto.
  - intros env. destruct w as [g [|[|] faults] ? ? [ms|] ?]; cbn;
      eexists _, _; (split; [reflexivity|]); intros rest Hrest; simpl in *;
      congruence.
Qed.

(** *** Rendering *)

Lemma truthy_Some (name : string) :
  truthy (Some name) = negb (bool_decide (name = "")).
Proof. by destruct name. Qed.

Lemma if_nonempty_bind {A B : Type} (l : list A) (f : A -> list B) :
  if_nonempty l (l ≫= f) = l ≫= f.
Proof. by destruct l. Qed.

Lemma render_record_named_block (r : record) :
  render_record r = named_block r.
Proof.
  unfold render_record, named_block, named_supplier_lines,
    named_warehouse_lines. rewrite !if_nonempty_bind.
  do 2 f_equal; [|f_equal]; apply list_bind_ext; try done.
  - intros [[name|]]; simpl; [|done].
    change (match name with "" => false | _ => true end)
      with (truthy (Some name)).
    rewrite truthy_Some. by case_bool_decide.
  - intros [[name|] loc]; simpl; [|done].
    change (match name with "" => false | _ => true end)
      with (truthy (Some name)).
    rewrite truthy_Some. by case_bool_decide.
Qed.

Lemma render_records_nonempty (result : list record) :
  result <> [] -> result ≫= render_record <> [].
Proof. destruct result as [|r result]; [done|]. intros _. by simpl. Qed.

(** C4, amended.  For a result with at least one row the context is the
    lines of the blocks joined by newlines, the blocks following the order
    of the rows, and each block being: the [Product:] line, the
    [Description:] line, one [Supplied by:] line for every collected
    supplier whose name is neither null nor empty, one [Stored at: .. in
    ..] line for every collected warehouse whose name is neither null nor
    empty, and the separator line. *)
Theorem render_context_blocks (result : list record) :
  result <> [] ->
  render_context result = join newline (result ≫= named_block).
Proof.
  intros Hne. unfold render_context.
  pose proof (render_records_nonempty result Hne) as Hlines.
  rewrite <- (list_bind_ext render_record named_block result result
                render_record_named_block eq_refl).
  by destruct (result ≫= render_record).
Qed.

End Retrieval.

(** *** The model at work *)

Example similarity_same_dimension :
  similarity [1; 2; 3]%Z [4; 5; 6]%Z = Some 32%Z.
Proof. reflexivity. Qed.

Example similarity_short_question :
  similarity [1; 2; 3]%Z [4; 5]%Z = None.
Proof. reflexivity. Qed.

Example strip_reply :
  strip scenario_gemini_text = "The headphones are stored in Berlin.".
Proof. reflexivity. Qed.

(** A reply with a no-break space (U+00A0) before it and an ideographic
    space (U+3000) and a line feed after it. *)
Example strip_unicode_reply :
  strip (of_utf8 ((Ascii.ascii_of_nat <$> [194; 160]) ++ utf8 "Hello"
                  ++ (Ascii.ascii_of_nat <$> [227; 128; 128; 10])))
  = "Hello".
Proof. reflexivity. Qed.

(** The scenario of the specification: the product [p1] is supplied by
    [s1] and stored at [w1] in Berlin, and it is the product closest to
    the question. *)
Example scenario_retrieval :
  (get_relevant_context scenario_globals scenario_question session_world).1
  = Ret (join newline
           ["Product: Headphones";
            "Description: wireless headphones";
            "Supplied by: Acme";
            "Stored at: Central in Berlin";
            "---";
            "Product: Laptop";
            "Description: fast laptop";
            "Stored at: Central in Berlin";
            "---"]).
Proof. by vm_compute. Qed.

Example scenario_counts :
  node_count scenario_graph = 4 /\ edge_count scenario_graph = 4.
Proof. by vm_compute. Qed.

Lemma unembedded_graph_no_embedding : no_embedding unembedded_graph.
Proof.
  intros n Hn Hl. unfold unembedded_graph in Hn. simpl in Hn.
  apply elem_of_cons in Hn as [->|Hn]; [done|].
  apply list_elem_of_singleton in Hn as ->. discriminate Hl.
Qed.

Lemma no_embedding_gives_sentinel_witness :
  no_embedding (w_graph unembedded_world)
  /\ embedding_model scenario_globals = true
  /\ no_failure unembedded_world
  /\ exists w', get_relevant_context scenario_globals scenario_question
                  unembedded_world
                = (Ret "No relevant context found.", w').
Proof.
  split; [exact unembedded_graph_no_embedding|].
  split; [reflexivity|]. split; [reflexivity|].
  exact (proj2 (no_embedding_gives_sentinel scenario_globals
                  scenario_question unembedded_world
                  unembedded_graph_no_embedding eq_refl eq_refl)).
Defined.

(** C4 as it is worded, with a line for every supplier whose name is not
    null, fails on a supplier whose name is the empty string: Python
    treats that name as false and writes no line for it. *)
Lemma spec_block_counterexample :
  ~ (forall result : list record,
       result <> [] ->
       render_context result = join newline (result ≫= spec_block)).
Proof.
  intros Hspec.
  specialize (Hspec unnamed_supplier_result ltac:(discriminate)).
  vm_compute in Hspec. discriminate Hspec.
Qed.

Lemma render_context_blocks_witness :
  unnamed_supplier_result <> []
  /\ render_context unnamed_supplier_result
     = join newline (unnamed_supplier_result ≫= named_block).
Proof.
  split; [discriminate|].
  apply (render_context_blocks unnamed_supplier_result). discriminate.
Defined.

Section Chat.
Context {num : Type} `{Numeric num} `{GroupOrder}.

Implicit Types (w : world num) (gl : app_globals).

(** What each step of a turn leaves untouched. *)
Lemma app_module_result (env : gmap string string) w :
  exists gl w0,
    app_module env w = (Ret gl, w0)
    /\ w_messages w0 = Some (default [] (w_messages w))
    /\ w_gemini w0 = w_gemini w.
Proof.
  destruct w as [g [|[|] faults] enc gem [ms|] tr]; cbn; by eexists _, _.
Qed.

Lemma append_message_result (m : message) w (history : list message) :
  w_messages w = Some history ->
  exists w',
    append_message m w = (Ret tt, w')
    /\ w_messages w' = Some (history ++ [m])
    /\ w_gemini w' = w_gemini w
    /\ w_trace w' = w_trace w.
Proof.
  intros Hms. unfold append_message. rewrite Hms. by eexists.
Qed.

Lemma get_relevant_context_result gl (question : string) w :
  exists context w',
    get_relevant_context gl question w = (Ret context, w')
    /\ w_messages w' = w_messages w
    /\ w_gemini w' = w_gemini w.
Proof.
  destruct w as [g faults enc gem ms tr], gl as [? ? ? ? model].
  destruct faults as [|[|] [|[|] [|[|] faults]]], model;
    cbn -[q_similarity render_context]; by eexists _, _.
Qed.

Lemma generate_gemini_response_result (context question : string) w :
  exists response w',
    generate_gemini_response context question w = (Ret response, w')
    /\ w_messages w' = w_messages w
    /\ (exists t, w_trace w'
                  = w_trace w
                    ++ EvGenerate (gemini_prompt context question) :: t)
    /\ (w_gemini w (gemini_prompt context question) = GenRaise ->
        response = "Error generating response.").
Proof.
  destruct w as [g faults enc gem ms tr].
  unfold generate_gemini_response, generate_content, try_except, bind, emit.
  cbn [w_graph w_faults w_encode w_gemini w_messages w_trace].
  destruct (gem (gemini_prompt context question)) as [| |text] eqn:Hreply;
    cbn; eexists _, _; (split; [reflexivity|]); cbn;
    (split; [reflexivity|]);
    (split; [rewrite <- ?app_assoc; by eexists | done]).
Qed.

(** C7. A run of the script with a submitted question leaves the
    conversation with the history it had, followed by the user message
    and then the assistant message, and nothing else: the question is
    appended, the context is retrieved, generation is called with that
    context, and the answer is appended.  Neither retrieval nor
    generation can stop the turn; when the generation call raises, the
    context was computed by then and the assistant message is "Error
    generating response.". *)
Theorem chat_turn_appends_two (env : gmap string string) (prompt : string) w :
  prompt <> "" ->
  exists gl w0 wu context wc response wr w',
    app_module env w = (Ret gl, w0)
    /\ append_message (Message User prompt) w0 = (Ret tt, wu)
    /\ get_relevant_context gl prompt wu = (Ret context, wc)
    /\ generate_gemini_response context prompt wc = (Ret response, wr)
    /\ (exists t, w_trace wr
                  = w_trace wc ++ EvGenerate (gemini_prompt context prompt) :: t)
    /\ (w_gemini w (gemini_prompt context prompt) = GenRaise ->
        response = "Error generating response.")
    /\ app_script env (Some prompt) w = (Ret tt, w')
    /\ w_messages w'
       = Some (default [] (w_messages w)
               ++ [Message User prompt; Message Assistant response]).
Proof.
  intros Hprompt.
  destruct (app_module_result env w) as (gl & w0 & Hmod & Hms0 & Hgem0).
  destruct (append_message_result (Message User prompt) w0 _ Hms0)
    as (wu & Huser & Hmsu & Hgemu & _).
  destruct (get_relevant_context_result gl prompt wu)
    as (context & wc & Hctx & Hmsc & Hgemc).
  destruct (generate_gemini_response_result context prompt wc)
    as (response & wr & Hgen & Hmsr & Htrace & Hraise).
  assert (Hmsr' : w_messages wr
                  = Some (default [] (w_messages w) ++ [Message User prompt]))
    by by rewrite Hmsr, Hmsc.
  destruct (append_message_result (Message Assistant response) wr _ Hmsr')
    as (w' & Hasst & Hms' & _ & _).
  exists gl, w0, wu, context, wc, response, wr, w'.
  repeat split; try done.
  - intros Hreply. apply Hraise. by rewrite Hgemc, Hgemu, Hgem0.
  - unfold app_script, bind at 1. rewrite Hmod.
    assert (Htruthy : truthy (Some prompt) = true)
      by by destruct prompt.
    rewrite Htruthy. unfold chat_turn, bind.
    by rewrite Huser, Hctx, Hgen, Hasst.
  - by rewrite Hms', <- app_assoc.
Qed.

End Chat.

Lemma chat_turn_appends_two_witness :
  scenario_question <> ""
  /\ exists response w',
       app_script {["NEO4J_URI" := "bolt://localhost:7687"]}
         (Some scenario_question) scenario_world = (Ret tt, w')
       /\ w_messages w'
          = Some ([] ++ [Message User scenario_question;
                         Message Assistant response]).
Proof.
  split; [discriminate|].
  destruct (chat_turn_appends_two {["NEO4J_URI" := "bolt://localhost:7687"]}
              scenario_question scenario_world ltac:(discriminate))
    as (gl & w0 & wu & context & wc & response & wr & w' & _ & _ & _ & _
        & _ & _ & Hrun & Hms).
  exists response, w'. split; [exact Hrun|exact Hms].
Defined.

Section Connections.
Context {num : Type} `{Numeric num} `{GroupOrder}.

Implicit Types (w : world num) (t : list (event num)).

Lemma count_event_app (sel : event num -> bool) t1 t2 :
  count_event sel (t1 ++ t2) = count_event sel t1 + count_event sel t2.
Proof. unfold count_event. by rewrite List.filter_app, length_app. Qed.

Lemma count_event_singleton (sel : event num -> bool) (ev : event num) :
  count_event sel [ev] = if sel ev then 1 else 0.
Proof. unfold count_event. simpl. by destruct (sel ev). Qed.

Lemma session_scoped_nil : session_scoped (num := num) [].
Proof. by repeat split. Qed.

Lemma session_scoped_app t1 t2 :
  session_scoped t1 -> session_scoped t2 -> session_scoped (t1 ++ t2).
Proof.
  unfold session_scoped, sessions_released.
  intros (Hs1 & Ho1 & Hc1) (Hs2 & Ho2 & Hc2). rewrite !count_event_app. lia.
Qed.

Lemma emits_ret {A : Type} (a : A) (P : list (event num) -> Prop) :
  P [] -> emits (ret a) P.
Proof. intros HP w. exists []. by rewrite app_nil_r. Qed.

Lemma emits_emit (ev : event num) (P : list (event num) -> Prop) :
  P [ev] -> emits (emit ev) P.
Proof. intros HP w. by exists [ev]. Qed.

Lemma emits_external (e : exn) (P : list (event num) -> Prop) :
  P [] -> emits (external e) P.
Proof.
  intros HP w. exists []. rewrite app_nil_r. split; [|done].
  unfold external. by destruct (w_faults w) as [|[|] rest].
Qed.

Lemma emits_bind {A B : Type} (m : M num A) (k : A -> M num B) :
  emits m session_scoped -> (forall a, emits (k a) session_scoped) ->
  emits (bind m k) session_scoped.
Proof.
  intros Hm Hk w. destruct (Hm w) as (t1 & Ht1 & HP1). unfold bind.
  destruct (m w) as [[a|e] w1]; simpl in Ht1.
  - destruct (Hk a w1) as (t2 & Ht2 & HP2). exists (t1 ++ t2).
    rewrite Ht2, Ht1, app_assoc. split; [done|]. by apply session_scoped_app.
  - by exists t1.
Qed.

Lemma emits_for_each {A : Type} (xs : list A) (body : A -> M num unit) :
  (forall x, emits (body x) session_scoped) ->
  emits (for_each xs body) session_scoped.
Proof.
  intros Hbody. induction xs as [|x xs IH]; simpl.
  - apply emits_ret, session_scoped_nil.
  - apply emits_bind; [apply Hbody | intros _; apply IH].
Qed.

Lemma emits_session_run (q : query num) :
  emits (session_run q) session_scoped.
Proof.
  unfold session_run.
  apply emits_bind; [by apply emits_external|]. intros _.
  apply emits_bind; [by apply emits_emit|]. intros _ w.
  exists []. rewrite app_nil_r. split; [done|apply session_scoped_nil].
Qed.

Lemma emits_model_encode (text : string) :
  emits (num := num) (model_encode text) session_scoped.
Proof.
  unfold model_encode.
  apply emits_bind; [by apply emits_external|]. intros _.
  apply emits_bind; [by apply emits_emit|]. intros _ w.
  exists []. rewrite app_nil_r. split; [done|apply session_scoped_nil].
Qed.

(** The [with] block releases its session on both exits. *)
Lemma emits_with_session {A : Type} (body : M num A) :
  emits body session_scoped -> emits (with_session body) session_scoped.
Proof.
  intros Hbody w. unfold with_session, bind, try_finally, emit.
  cbn [w_graph w_faults w_encode w_gemini w_messages w_trace].
  set (w1 := World _ _ _ _ _ _).
  destruct (Hbody w1) as (t & Ht & (Hs & Ho & Hc)).
  destruct (body w1) as [o w2]. simpl in Ht.
  exists ([EvSessionOpen] ++ t ++ [EvSessionClose]).
  split.
  - cbn [w_trace snd]. rewrite Ht. subst w1. cbn [w_trace].
    by rewrite <- !app_assoc.
  - unfold session_scoped, sessions_released in *.
    rewrite !count_event_app, !count_event_singleton. simpl. lia.
Qed.

(** *** The loaders work on the shared driver *)

Lemma emits_run_then_ret (q : query num) :
  emits (session_run q ;; ret tt) session_scoped.
Proof.
  apply emits_bind; [apply emits_session_run|]. intros _.
  apply emits_ret, session_scoped_nil.
Qed.

Lemma load_products_scoped (fx : fixtures num) :
  emits (load_products fx) session_scoped.
Proof.
  unfold load_products. apply emits_bind.
  - apply emits_with_session, emits_session_run.
  - intros _. apply emits_for_each. intros r.
    apply emits_bind; [apply emits_model_encode|]. intros emb.
    apply emits_bind; [apply emits_with_session, emits_session_run|].
    intros _. apply emits_ret, session_scoped_nil.
Qed.

Lemma load_suppliers_scoped (fx : fixtures num) :
  emits (load_suppliers fx) session_scoped.
Proof.
  apply emits_with_session, emits_for_each. intros r.
  apply emits_run_then_ret.
Qed.

Lemma load_warehouses_scoped (fx : fixtures num) :
  emits (load_warehouses fx) session_scoped.
Proof.
  apply emits_with_session, emits_for_each. intros r.
  apply emits_run_then_ret.
Qed.

Lemma load_transportation_routes_scoped (fx : fixtures num) :
  emits (load_transportation_routes fx) session_scoped.
Proof.
  apply emits_with_session, emits_for_each. intros r.
  apply emits_run_then_ret.
Qed.

Lemma create_relationships_scoped (fx : fixtures num) :
  emits (create_relationships fx) session_scoped.
Proof.
  apply emits_with_session, emits_for_each. intros r.
  apply emits_bind; [apply emits_session_run|]. intros _.
  apply emits_run_then_ret.
Qed.

Lemma load_all_data_scoped (fx : fixtures num) :
  emits (load_all_data fx) session_scoped.
Proof.
  unfold load_all_data.
  apply emits_bind; [apply load_products_scoped|]. intros _.
  apply emits_bind; [apply load_suppliers_scoped|]. intros _.
  apply emits_bind; [apply load_warehouses_scoped|]. intros _.
  apply emits_bind; [apply load_transportation_routes_scoped|]. intros _.
  apply create_relationships_scoped.
Qed.

Lemma load_data_main_trace (env : gmap string string) (fx : fixtures num)
    w w' :
  load_data_main env fx w = (Ret tt, w') ->
  exists t,
    w_trace w'
    = w_trace w
      ++ [EvDriverOpen (env !! "NEO4J_URI") (env !! "NEO4J_USERNAME")
                       (env !! "NEO4J_PASSWORD");
          EvModelLoad]
      ++ t ++ [EvDriverClose]
    /\ session_scoped t.
Proof.
  destruct w as [g faults enc gem ms tr].
  unfold load_data_main, load_data_module, graph_database_driver,
    driver_close, bind, external, emit.
  cbn [w_graph w_faults w_encode w_gemini w_messages w_trace].
  destruct faults as [|[|] [|[|] faults]]; try discriminate;
    cbn [w_graph w_faults w_encode w_gemini w_messages w_trace];
    match goal with
    | |- context [load_all_data fx ?w1] =>
        destruct (load_all_data_scoped fx w1) as (t & Ht & Hscoped);
        destruct (load_all_data fx w1) as [[[]|e] w2]; try discriminate;
        intros [= <-]; exists t; split; [|exact Hscoped];
        cbn [w_trace snd] in *; rewrite Ht; by rewrite <- !app_assoc
    end.
Qed.

(** *** The chat application opens a driver per call *)

Lemma get_relevant_context_own_connection (gl : app_globals)
    (question : string) :
  emits (num := num) (get_relevant_context gl question) own_connection.
Proof.
  intros w. destruct w as [g faults enc gem ms tr], gl as [? ? ? ? model].
  destruct faults as [|[|] [|[|] [|[|] faults]]], model;
    cbn -[q_similarity render_context];
    eexists; (split; [rewrite <- ?app_assoc; reflexivity|]);
    unfold own_connection, drivers_released, sessions_released;
    cbn; repeat split; lia.
Qed.

(** C8, amended.  In the chat application every retrieval call creates
    its own driver, opens its session on it and has closed both when it
    returns, whether the body of the call returned or raised.  The
    ingestion script instead creates one driver when the module is loaded
    and shares it: each loading function opens its sessions on that
    driver and releases them on every exit path, and neither opens nor
    closes a driver; the driver is closed once, after [load_all_data] has
    returned. *)
Theorem connections_are_scoped (gl : app_globals) (question : string)
    (fx : fixtures num) (env : gmap string string) :
  emits (num := num) (get_relevant_context gl question) own_connection
  /\ emits (load_products fx) session_scoped
  /\ emits (load_suppliers fx) session_scoped
  /\ emits (load_warehouses fx) session_scoped
  /\ emits (load_transportation_routes fx) session_scoped
  /\ emits (create_relationships fx) session_scoped
  /\ emits (load_all_data fx) session_scoped
  /\ (forall w w',
        load_data_main env fx w = (Ret tt, w') ->
        exists t,
          w_trace w'
          = w_trace w
            ++ [EvDriverOpen (env !! "NEO4J_URI") (env !! "NEO4J_USERNAME")
                             (env !! "NEO4J_PASSWORD");
                EvModelLoad]
            ++ t ++ [EvDriverClose]
          /\ session_scoped t).
Proof.
  split; [apply get_relevant_context_own_connection|].
  split; [apply load_products_scoped|].
  split; [apply load_suppliers_scoped|].
  split; [apply load_warehouses_scoped|].
  split; [apply load_transportation_routes_scoped|].
  split; [apply create_relationships_scoped|].
  split; [apply load_all_data_scoped|].
  apply load_data_main_trace.
Qed.

End Connections.

(** C8 as it is worded fails on the ingestion script: [load_suppliers]
    runs its queries without opening a driver of its own. *)
Lemma shared_driver_counterexample :
  ~ emits (num := Z) (load_suppliers scenario_fixtures) own_connection.
Proof.
  intros Hown. destruct (Hown empty_world) as (t & Ht & _ & _ & Hrun).
  vm_compute in Ht. subst t.
  assert (Hopen : 0 < 0) by (apply Hrun; vm_compute; lia).
  lia.
Qed.

(** When the first query of the ingestion script fails, the script ends
    with the exception and the shared driver is never closed. *)
Lemma failed_ingestion_leaves_driver_open :
  exists w',
    load_data_main partial_env scenario_fixtures failing_store_world
    = (Raise StoreError, w')
    /\ count_event is_driver_open (w_trace w') = 1
    /\ count_event is_driver_close (w_trace w') = 0.
Proof.
  exists (load_data_main partial_env scenario_fixtures failing_store_world).2.
  split; [|split]; by vm_compute.
Qed.

(** ** Missing configuration *)

(** C9, the code at a failing input.  With [NEO4J_PASSWORD] and
    [GEMINI_API_KEY] unset, a chat turn of [app.py] configures the
    generation client with no key, opens the driver with a null password,
    runs the similarity query on it and calls the generation model; no
    error about the configuration is reported.  The smoke test
    [test_gemini_connection] stops on the same environment with
    [ValueError("GEMINI_API_KEY environment variable is not set")] before
    any call to the generation client. *)
Theorem missing_credentials_are_used_unchecked :
  (exists w',
     app_script partial_env (Some scenario_question) session_world
     = (Ret tt, w')
     /\ w_trace w'
        = [EvConfigure None; EvModelLoad;
           EvDriverOpen (Some "bolt://localhost:7687") (Some "neo4j") None;
           EvSessionOpen; EvEncode scenario_question;
           EvRun (QSimilarity (scenario_encode scenario_question));
           EvSessionClose; EvDriverClose;
           EvGenerate
             (gemini_prompt
                (render_context
                   (q_similarity (scenario_encode scenario_question)
                                 scenario_graph))
                scenario_question)])
  /\ (exists w',
        test_gemini_connection partial_env session_world = (Ret tt, w')
        /\ w_trace w'
           = [EvError "Gemini API connection error"
                (ValueError
                   "GEMINI_API_KEY environment variable is not set")]).
Proof.
  split.
  - exists (app_script partial_env (Some scenario_question) session_world).2.
    split; by vm_compute.
  - exists (test_gemini_connection partial_env session_world).2.
    split; by vm_compute.
Qed.

(** * Further properties of the store layer *)

Section Upserts.
Context {num : Type} `{Numeric num} `{GroupOrder}.

Implicit Types (g : graph num) (n : node num) (e : edge num).

Lemma is_node_false_absent (l : label) (i : string) g (j : nat) n :
  (l, Some i) ∉ node_keys g -> g_nodes g !! j = Some n ->
  node_key n <> (l, Some i).
Proof.
  intros Hnot Hj Hk. apply Hnot. apply list_elem_of_fmap. exists n.
  split; [done|]. apply list_elem_of_lookup. by exists j.
Qed.

Lemma merge_node_effect (l : label) (i : string)
    (upd : node num -> node num) g :
  keeps_node_key upd ->
  upsert_effect l i upd g (merge_node l i upd g).
Proof.
  intros Hkeep. split; [|split; [|split]].
  - intros j n Hj. unfold merge_node.
    destruct (match_nodes l i g) as [|j0 js] eqn:Hm; simpl.
    + apply match_nodes_nil in Hm.
      rewrite bool_decide_eq_false_2
        by by apply (is_node_false_absent l i g j).
      by apply lookup_app_l_Some.
    + rewrite list_lookup_fmap, Hj. simpl. by rewrite is_node_key.
  - intros Hin. unfold node_count.
    rewrite <- !(length_fmap node_key).
    change (length (node_keys (merge_node l i upd g))
            = length (node_keys g)).
    by rewrite merge_node_present.
  - intros Hnot. unfold merge_node.
    apply match_nodes_nil in Hnot. by rewrite Hnot.
  - apply merge_node_edges.
Qed.

(** X1.  Each of the three node queries of [load_data.py] is an
    upsert on its label and id: nodes with another label or id are left
    as they are and where they are, nodes with the key go through the
    [SET], a node is created only when none has the key, and no edge is
    touched.  The [SET] of a supplier changes nothing but the three
    properties it names. *)
Theorem node_queries_are_upserts (rp : product_rec num) (emb : list num)
    (rs : supplier_rec) (rw : warehouse_rec num) g :
  upsert_effect Product (p_id rp) (set_product rp emb) g
                (q_merge_product rp emb g)
  /\ upsert_effect Supplier (s_id rs) (set_supplier rs) g
                   (q_merge_supplier rs g)
  /\ upsert_effect Warehouse (wh_id rw) (set_warehouse rw) g
                   (q_merge_warehouse rw g)
  /\ (forall n k,
        k <> "name" -> k <> "location" -> k <> "specialization" ->
        n_props (set_supplier rs n) !! k = n_props n !! k)
  /\ (forall n, n_nums (set_supplier rs n) = n_nums n
                /\ n_embedding (set_supplier rs n) = n_embedding n
                /\ n_label (set_supplier rs n) = n_label n).
Proof.
  split; [apply merge_node_effect, set_product_keeps_key|].
  split; [apply merge_node_effect, set_supplier_keeps_key|].
  split; [apply merge_node_effect, set_warehouse_keeps_key|].
  split; [|done].
  intros n k Hn Hl Hs. unfold set_supplier. cbn [n_props].
  by rewrite !set_prop_lookup_ne.
Qed.

(** *** The last record with an id decides *)

Lemma carries_product_set (r : product_rec num) (emb : list num) n :
  carries_product r emb (set_product r emb n).
Proof.
  unfold carries_product, set_product. cbn [n_props n_nums n_embedding].
  split; [|split; [|split; [|split]]].
  - rewrite !set_prop_lookup_ne by done. apply set_prop_lookup.
  - rewrite set_prop_lookup_ne by done. apply (set_prop_lookup _ (Some _)).
  - apply set_prop_lookup.
  - apply set_prop_lookup.
  - done.
Qed.

(** An upsert on another key leaves what holds of the nodes with the key
    [k]. *)
Lemma merge_node_other_key (l : label) (i : string)
    (upd : node num -> node num) g (k : label * option string)
    (P : node num -> Prop) :
  keeps_node_key upd ->
  (l, Some i) <> k ->
  (forall n, n ∈ g_nodes g -> node_key n = k -> P n) ->
  forall n, n ∈ g_nodes (merge_node l i upd g) -> node_key n = k -> P n.
Proof.
  intros Hkeep Hne Hall n Hn Hk.
  destruct (merge_node_effect l i upd g Hkeep) as (Hold & _ & Hnew & _).
  apply list_elem_of_lookup in Hn as (j & Hj).
  destruct (g_nodes g !! j) as [n0|] eqn:Hj0.
  - rewrite (Hold j n0 Hj0) in Hj. injection Hj as <-.
    case_bool_decide as Hk0.
    + rewrite Hkeep in Hk. congruence.
    + apply Hall; [|done]. apply list_elem_of_lookup. by exists j.
  - destruct (decide ((l, Some i) ∈ node_keys g)) as [Hin|Hnot].
    + exfalso. apply lookup_ge_None in Hj0.
      apply lookup_lt_Some in Hj.
      pose proof (merge_node_present l i upd g Hkeep Hin) as Hkeys.
      apply (f_equal length) in Hkeys. unfold node_keys in Hkeys.
      rewrite !length_fmap in Hkeys. lia.
    + rewrite (Hnew Hnot) in Hj.
      apply lookup_app_Some in Hj as [Hj|[_ Hj]]; [congruence|].
      apply list_lookup_singleton_Some in Hj as [_ <-].
      rewrite Hkeep in Hk. simpl in Hk. unfold node_key in Hk. simpl in Hk.
      rewrite lookup_singleton_eq in Hk. congruence.
Qed.

Lemma fold_products_other_ids (enc : string -> list num)
    (rs : list (product_rec num)) (i : string) g (P : node num -> Prop) :
  i ∉ p_id <$> rs ->
  (forall n, n ∈ g_nodes g -> node_key n = (Product, Some i) -> P n) ->
  forall n,
    n ∈ g_nodes (fold_left run_node_op (product_op enc <$> rs) g) ->
    node_key n = (Product, Some i) -> P n.
Proof.
  revert g. induction rs as [|r rs IH]; intros g Hnot Hall; [done|].
  rewrite fmap_cons, not_elem_of_cons in Hnot. destruct Hnot as [Hr Hrs].
  simpl. apply IH; [done|].
  apply merge_node_other_key; [apply set_product_keeps_key| |done].
  simpl. congruence.
Qed.

(** X2.  When [load_products] runs on a store that does not fail, the
    vector index exists afterwards, and for every id of the products file
    the last record with that id decides: a Product node with the id
    exists, and every such node carries the name, description, category
    and price of that record and the embedding of its description. *)
Theorem load_products_last_record_wins (fx : fixtures num) (w : world num)
    (before after : list (product_rec num)) (r : product_rec num) :
  no_failure w ->
  products fx = before ++ r :: after ->
  p_id r ∉ p_id <$> after ->
  exists w',
    load_products fx w = (Ret tt, w')
    /\ g_vector_index (w_graph w') = true
    /\ (Product, Some (p_id r)) ∈ node_keys (w_graph w')
    /\ forall n,
         n ∈ g_nodes (w_graph w') ->
         node_key n = (Product, Some (p_id r)) ->
         carries_product r (w_encode w (p_description r)) n.
Proof.
  destruct w as [g faults enc gem ms tr]. unfold no_failure. simpl.
  intros -> Hsplit Hlast.
  destruct (load_products_runs enc fx g gem ms tr) as ([] & t & Hrun).
  eexists. split; [exact Hrun|]. cbn [w_graph].
  rewrite Hsplit, fmap_app, fmap_cons, fold_left_app. cbn [fold_left].
  set (g1 := fold_left run_node_op (product_op enc <$> before)
                       (q_create_index g)).
  set (g2 := run_node_op g1 (product_op enc r)).
  split; [|split].
  - assert (Hidx : forall (os : list (node_op num)) g0,
               g_vector_index (fold_left run_node_op os g0)
               = g_vector_index g0).
    { induction os as [|o os IH]; intros g0; simpl; [done|].
      rewrite IH. apply merge_node_edges. }
    rewrite Hidx. unfold g2, run_node_op.
    rewrite (proj2 (merge_node_edges _ _ _ _)). unfold g1. by rewrite Hidx.
  - destruct (fold_node_ops_grow (product_op enc <$> after) g2) as (ex & ->).
    { apply Forall_fmap, Forall_true. intros r0.
      apply set_product_keeps_key. }
    apply elem_of_app. left.
    apply (merge_node_keys Product (p_id r)), set_product_keeps_key.
  - apply fold_products_other_ids; [done|].
    intros n Hn Hk. apply list_elem_of_lookup in Hn as (j & Hj).
    destruct (merge_node_overwrites Product (p_id r)
                (set_product r (enc (p_description r))) g1 j n
                (set_product_keeps_key _ _) Hj Hk) as (n0 & ->).
    apply carries_product_set.
Qed.

End Upserts.

Lemma load_products_last_record_wins_witness :
  no_failure empty_world
  /\ products scenario_fixtures
     = [] ++ ProductRec "p1" (Some "Headphones") "wireless headphones"
                        (Some 99%Z) (Some "audio")
          :: [ProductRec "p2" (Some "Laptop") "fast laptop" (Some 999%Z) None]
  /\ ("p1" ∉ p_id <$> [ProductRec "p2" (Some "Laptop") "fast laptop"
                                  (Some 999%Z) None])
  /\ exists w',
       load_products scenario_fixtures empty_world = (Ret tt, w')
       /\ forall n,
            n ∈ g_nodes (w_graph w') ->
            node_key n = (Product, Some "p1") ->
            n_props n !! "name" = Some "Headphones".
Proof.
  split; [reflexivity|]. split; [reflexivity|].
  assert (Hlast : "p1" ∉ p_id <$> [ProductRec "p2" (Some "Laptop")
                                              "fast laptop" (Some 999%Z) None]).
  { intros Hin. apply list_elem_of_singleton in Hin. discriminate Hin. }
  split; [exact Hlast|].
  destruct (load_products_last_record_wins scenario_fixtures empty_world []
              [ProductRec "p2" (Some "Laptop") "fast laptop"
                          (Some 999%Z) None]
              (ProductRec "p1" (Some "Headphones") "wireless headphones"
                          (Some 99%Z) (Some "audio"))
              eq_refl eq_refl Hlast) as (w' & Hrun & _ & _ & Hall).
  exists w'. split; [exact Hrun|].
  intros n Hn Hk. exact (proj1 (Hall n Hn Hk)).
Defined.

Section Routes.
Context {num : Type} `{Numeric num} `{GroupOrder}.

Implicit Types (g : graph num) (e : edge num).

Lemma existsb_is_edge_false (t : reltype) (sd : nat * nat) g e :
  existsb (is_edge t sd.1 sd.2) (g_edges g) = false ->
  e ∈ g_edges g -> is_edge t sd.1 sd.2 e = false.
Proof.
  intros Hnone He. destruct (is_edge t sd.1 sd.2 e) eqn:Hedge; [|done].
  assert (existsb (is_edge t sd.1 sd.2) (g_edges g) = true) as Hsome.
  { apply existsb_exists. exists e. split; [by apply list_elem_of_In|done]. }
  congruence.
Qed.

Lemma merge_edge_lookup_old (t : reltype) (upd : edge num -> edge num) g
    (sd : nat * nat) (k : nat) e :
  g_edges g !! k = Some e ->
  g_edges (merge_edge t upd g sd) !! k
  = Some (if is_edge t sd.1 sd.2 e then upd e else e).
Proof.
  intros Hk. unfold merge_edge.
  destruct (existsb (is_edge t sd.1 sd.2) (g_edges g)) eqn:Hex; simpl.
  - by rewrite list_lookup_fmap, Hk.
  - rewrite (existsb_is_edge_false t sd g e Hex)
      by (apply list_elem_of_lookup; by exists k).
    by apply lookup_app_l_Some.
Qed.

Lemma merge_edge_elem (t : reltype) (upd : edge num -> edge num) g
    (sd : nat * nat) e :
  keeps_edge_key upd ->
  e ∈ g_edges (merge_edge t upd g sd) ->
  (exists e0, e = upd e0 /\ edge_key e = (t, sd.1, sd.2))
  \/ (e ∈ g_edges g /\ edge_key e <> (t, sd.1, sd.2)).
Proof.
  intros Hkeep. unfold merge_edge.
  destruct (existsb (is_edge t sd.1 sd.2) (g_edges g)) eqn:Hex; simpl.
  - intros (e0 & -> & He0)%list_elem_of_fmap.
    destruct (is_edge t sd.1 sd.2 e0) eqn:Hedge.
    + left. exists e0. split; [done|]. rewrite Hkeep.
      rewrite is_edge_key in Hedge. by apply bool_decide_eq_true in Hedge.
    + right. split; [done|]. rewrite is_edge_key in Hedge.
      by apply bool_decide_eq_false in Hedge.
  - intros [He|He]%elem_of_app.
    + right. split; [done|].
      pose proof (existsb_is_edge_false t sd g e Hex He) as Hedge.
      rewrite is_edge_key in Hedge. by apply bool_decide_eq_false in Hedge.
    + apply list_elem_of_singleton in He as ->. left. eexists.
      split; [done|]. by rewrite Hkeep.
Qed.

Lemma fold_merge_edge_carries (t : reltype) (upd : edge num -> edge num)
    (P : edge num -> Prop) (ps : list (nat * nat)) g
    (D : reltype * nat * nat -> Prop) :
  keeps_edge_key upd ->
  (forall e, P (upd e)) ->
  (forall e, e ∈ g_edges g -> D (edge_key e) -> P e) ->
  forall e,
    e ∈ g_edges (fold_left (merge_edge t upd) ps g) ->
    D (edge_key e) \/ (exists sd, sd ∈ ps /\ edge_key e = (t, sd.1, sd.2)) ->
    P e.
Proof.
  intros Hkeep Hupd. revert g D.
  induction ps as [|sd ps IH]; intros g D Hdone e He Hkey; simpl in He.
  - destruct Hkey as [Hd|(sd & Hsd & _)]; [by apply Hdone|].
    by apply elem_of_nil in Hsd.
  - apply (IH (merge_edge t upd g sd)
              (fun k => D k \/ k = (t, sd.1, sd.2))); [|done|].
    + intros e1 He1 Hk1.
      apply (merge_edge_elem t upd g sd e1 Hkeep) in He1
        as [(e0 & -> & _)|[He1 Hne]]; [apply Hupd|].
      destruct Hk1 as [Hd|Heq]; [by apply Hdone | done].
    + destruct Hkey as [Hd|(sd' & Hsd' & Heq)]; [by left; left|].
      apply elem_of_cons in Hsd' as [->|Hsd']; [by left; right|].
      right. by exists sd'.
Qed.

Lemma fold_merge_edge_lookup_other (t : reltype)
    (upd : edge num -> edge num) (ps : list (nat * nat)) g (k : nat) e :
  (forall sd, sd ∈ ps -> edge_key e <> (t, sd.1, sd.2)) ->
  g_edges g !! k = Some e ->
  g_edges (fold_left (merge_edge t upd) ps g) !! k = Some e.
Proof.
  revert g. induction ps as [|sd ps IH]; intros g Hother Hk; [done|].
  simpl. apply IH; [intros sd' Hsd'; apply Hother; by right|].
  rewrite (merge_edge_lookup_old t upd g sd k e Hk), is_edge_key.
  rewrite bool_decide_eq_false_2; [done|]. apply Hother. left.
Qed.

Lemma carries_route_set (r : route_rec num) e :
  carries_route r (set_route r e).
Proof.
  unfold carries_route, set_route. cbn [e_nums]. split.
  - rewrite set_prop_lookup_ne by done. apply set_prop_lookup.
  - apply set_prop_lookup.
Qed.

(** X3.  The route query links every pair of Warehouse nodes that its
    [from] and [to] ids match, and leaves on every CONNECTED_TO edge
    between such a pair the distance and the duration of the record,
    whether the edge was there before or not.  Every other edge, and every
    node, is left as it was and where it was. *)
Theorem route_merge_effect (r : route_rec num) g :
  g_nodes (q_merge_route r g) = g_nodes g
  /\ (forall s d,
        s ∈ match_nodes Warehouse (r_from r) g ->
        d ∈ match_nodes Warehouse (r_to r) g ->
        (CONNECTED_TO, s, d) ∈ edge_keys (q_merge_route r g))
  /\ (forall e,
        e ∈ g_edges (q_merge_route r g) ->
        e_type e = CONNECTED_TO ->
        e_src e ∈ match_nodes Warehouse (r_from r) g ->
        e_dst e ∈ match_nodes Warehouse (r_to r) g ->
        carries_route r e)
  /\ (forall k e,
        g_edges g !! k = Some e ->
        ~ (e_type e = CONNECTED_TO
           /\ e_src e ∈ match_nodes Warehouse (r_from r) g
           /\ e_dst e ∈ match_nodes Warehouse (r_to r) g) ->
        g_edges (q_merge_route r g) !! k = Some e).
Proof.
  split; [apply (run_edge_op_nodes g (route_op r))|].
  split; [|split].
  - intros s d Hs Hd.
    apply (fold_merge_edge_covers CONNECTED_TO (set_route r) _ g (s, d)
             (set_route_keeps_key r)).
    apply list_elem_of_In, in_prod_iff. split; by apply list_elem_of_In.
  - intros e He Ht Hs Hd.
    apply (fold_merge_edge_carries CONNECTED_TO (set_route r)
             (carries_route r)
             (list_prod (match_nodes Warehouse (r_from r) g)
                        (match_nodes Warehouse (r_to r) g))
             g (fun _ => False) (set_route_keeps_key r)
             (carries_route_set r)); [done|exact He|].
    right. exists (e_src e, e_dst e). split.
    + apply list_elem_of_In, in_prod_iff. split; by apply list_elem_of_In.
    + unfold edge_key. by rewrite Ht.
  - intros k e Hk Hnot.
    apply fold_merge_edge_lookup_other; [|done].
    intros [s d] Hsd Hkey.
    apply list_elem_of_In, in_prod_iff in Hsd as [Hs Hd].
    apply Hnot. unfold edge_key in Hkey. simpl in Hkey.
    injection Hkey as -> -> ->. split; [done|].
    split; by apply list_elem_of_In.
Qed.

End Routes.

Section LoadedGraph.
Context {num : Type} `{Numeric num} `{GroupOrder}.

Implicit Types (g : graph num) (w : world num) (fx : fixtures num).

Lemma distinct_seen_equiv {A : Type} `{EqDecision A} (s1 s2 l : list A) :
  (forall x, x ∈ s1 <-> x ∈ s2) -> distinct s1 l = distinct s2 l.
Proof.
  revert s1 s2. induction l as [|x l IH]; intros s1 s2 Heq; simpl; [done|].
  rewrite (bool_decide_ext (x ∈ s1) (x ∈ s2)) by apply Heq.
  case_bool_decide; [by apply IH|]. f_equal. apply IH.
  intros y. rewrite !elem_of_cons, Heq. done.
Qed.

Lemma fold_node_ops_keys (os : list (node_op num)) g :
  Forall well_formed_node_op os ->
  node_keys (fold_left run_node_op os g)
  = node_keys g ++ distinct (node_keys g) (op_key <$> os).
Proof.
  intros Hwf. revert g. induction Hwf as [|o os Ho Hos IH]; intros g; simpl.
  - by rewrite app_nil_r.
  - rewrite IH. unfold run_node_op. case_bool_decide as Hin.
    + by rewrite merge_node_present.
    + rewrite merge_node_absent by done. rewrite <- app_assoc. simpl.
      do 2 f_equal. apply distinct_seen_equiv. intros x.
      rewrite elem_of_app, !elem_of_cons, elem_of_nil. tauto.
Qed.

Lemma node_ops_keys (enc : string -> list num) fx :
  op_key <$> node_ops enc fx = fixture_node_keys fx.
Proof.
  unfold node_ops, fixture_node_keys.
  by rewrite !fmap_app, <- !list_fmap_compose.
Qed.

(** X4.  After a run of [load_all_data] on a store that does not fail,
    the nodes are those the store had, in place, followed by one node for
    each label and id of the fixtures that the store did not have, each
    once however often the files repeat it: on an empty store the number
    of nodes is the number of distinct ids per label. *)
Theorem load_all_data_node_set fx w :
  no_failure w ->
  exists w',
    load_all_data fx w = (Ret tt, w')
    /\ node_keys (w_graph w')
       = node_keys (w_graph w)
         ++ distinct (node_keys (w_graph w)) (fixture_node_keys fx)
    /\ node_count (w_graph w')
       = node_count (w_graph w)
         + length (distinct (node_keys (w_graph w)) (fixture_node_keys fx)).
Proof.
  intros Hok.
  destruct (load_all_data_result fx w Hok) as (w' & Hrun & Hg & _ & _).
  exists w'. split; [exact Hrun|].
  assert (Hkeys : node_keys (w_graph w')
                  = node_keys (w_graph w)
                    ++ distinct (node_keys (w_graph w))
                                (fixture_node_keys fx)).
  { rewrite Hg. unfold ingest, node_keys at 1.
    rewrite fold_edge_ops_node_keys.
    pose proof (fold_node_ops_keys (node_ops (w_encode w) fx)
                  (q_create_index (w_graph w))
                  (node_ops_well_formed (w_encode w) fx)) as Hfold.
    rewrite node_ops_keys in Hfold. exact Hfold. }
  split; [exact Hkeys|].
  apply (f_equal length) in Hkeys. rewrite length_app in Hkeys.
  unfold node_keys in Hkeys at 1 2. rewrite !length_fmap in Hkeys.
  exact Hkeys.
Qed.

Lemma edge_ops_supplies fx (r : relationship_rec) :
  r ∈ relationships fx ->
  supplies_op r ∈ edge_ops fx /\ stored_at_op r ∈ edge_ops fx.
Proof.
  intros Hr. unfold edge_ops. split; apply elem_of_app; right;
    apply list_elem_of_bind; exists r; (split; [|done]).
  - left.
  - right. left.
Qed.

Lemma ingest_has_fixture_node (enc : string -> list num) fx g
    (l : label) (i : string) :
  (l, Some i) ∈ fixture_node_keys fx ->
  match_nodes l i (ingest enc fx g) <> [].
Proof.
  intros Hin Hnil. apply match_nodes_nil in Hnil. apply Hnil.
  unfold ingest, node_keys. rewrite fold_edge_ops_node_keys.
  rewrite <- node_ops_keys with (enc := enc) in Hin.
  apply list_elem_of_fmap in Hin as (o & Hk & Ho).
  unfold op_key in Hk. injection Hk as -> ->.
  by apply fold_node_ops_covers; [apply node_ops_well_formed|].
Qed.

(** X5.  After a run of [load_all_data] on a store that does not fail,
    every relationship record and every route record of the fixtures is
    honoured wherever its ids match nodes: each matching Supplier is
    linked to each matching Product by a SUPPLIES edge, each matching
    Product to each matching Warehouse by a STORED_AT edge, and the
    matching Warehouses of a route by a CONNECTED_TO edge.  An id that
    occurs in the node files of the same run does match a node, in
    whatever order the files list their records, since every node is
    written before the first edge. *)
Theorem loaded_records_are_linked fx w :
  no_failure w ->
  exists w',
    load_all_data fx w = (Ret tt, w')
    /\ (forall r : relationship_rec,
          r ∈ relationships fx ->
          (forall s p : nat,
             s ∈ match_nodes Supplier (supplier_id r) (w_graph w') ->
             p ∈ match_nodes Product (product_id r) (w_graph w') ->
             (SUPPLIES, s, p) ∈ edge_keys (w_graph w'))
          /\ (forall p wh : nat,
                p ∈ match_nodes Product (product_id r) (w_graph w') ->
                wh ∈ match_nodes Warehouse (warehouse_id r) (w_graph w') ->
                (STORED_AT, p, wh) ∈ edge_keys (w_graph w'))
          /\ (supplier_id r ∈ s_id <$> suppliers fx ->
              match_nodes Supplier (supplier_id r) (w_graph w') <> [])
          /\ (product_id r ∈ p_id <$> products fx ->
              match_nodes Product (product_id r) (w_graph w') <> [])
          /\ (warehouse_id r ∈ wh_id <$> warehouses fx ->
              match_nodes Warehouse (warehouse_id r) (w_graph w') <> []))
    /\ (forall rt : route_rec num,
          rt ∈ routes fx ->
          (forall s d : nat,
             s ∈ match_nodes Warehouse (r_from rt) (w_graph w') ->
             d ∈ match_nodes Warehouse (r_to rt) (w_graph w') ->
             (CONNECTED_TO, s, d) ∈ edge_keys (w_graph w'))
          /\ (r_from rt ∈ wh_id <$> warehouses fx ->
              match_nodes Warehouse (r_from rt) (w_graph w') <> [])
          /\ (r_to rt ∈ wh_id <$> warehouses fx ->
              match_nodes Warehouse (r_to rt) (w_graph w') <> [])).
Proof.
  intros Hok.
  destruct (load_all_data_result fx w Hok) as (w' & Hrun & Hg & _ & _).
  exists w'. split; [exact Hrun|]. rewrite Hg. clear Hrun Hg.
  pose proof (edge_ops_well_formed fx) as Hewf.
  assert (Hsuppliers : forall i, i ∈ s_id <$> suppliers fx ->
            (Supplier, Some i) ∈ fixture_node_keys fx).
  { intros i (r0 & -> & Hr0)%list_elem_of_fmap. unfold fixture_node_keys.
    rewrite !elem_of_app. right. left. apply list_elem_of_fmap.
    by exists r0. }
  assert (Hproducts : forall i, i ∈ p_id <$> products fx ->
            (Product, Some i) ∈ fixture_node_keys fx).
  { intros i (r0 & -> & Hr0)%list_elem_of_fmap. unfold fixture_node_keys.
    rewrite !elem_of_app. left. apply list_elem_of_fmap. by exists r0. }
  assert (Hwarehouses : forall i, i ∈ wh_id <$> warehouses fx ->
            (Warehouse, Some i) ∈ fixture_node_keys fx).
  { intros i (r0 & -> & Hr0)%list_elem_of_fmap. unfold fixture_node_keys.
    rewrite !elem_of_app. right. right. apply list_elem_of_fmap.
    by exists r0. }
  split.
  - intros r Hr. destruct (edge_ops_supplies fx r Hr) as [Hsup Hsto].
    split; [|split; [|split; [|split]]].
    + apply (fold_edge_ops_saturates (edge_ops fx) _ (supplies_op r) Hewf
               Hsup).
    + apply (fold_edge_ops_saturates (edge_ops fx) _ (stored_at_op r) Hewf
               Hsto).
    + intros Hin. by apply ingest_has_fixture_node, Hsuppliers.
    + intros Hin. by apply ingest_has_fixture_node, Hproducts.
    + intros Hin. by apply ingest_has_fixture_node, Hwarehouses.
  - intros rt Hrt.
    assert (Hop : route_op rt ∈ edge_ops fx).
    { unfold edge_ops. apply elem_of_app. left. apply list_elem_of_fmap.
      by exists rt. }
    split; [|split].
    + apply (fold_edge_ops_saturates (edge_ops fx) _ (route_op rt) Hewf Hop).
    + intros Hin. by apply ingest_has_fixture_node, Hwarehouses.
    + intros Hin. by apply ingest_has_fixture_node, Hwarehouses.
Qed.

End LoadedGraph.

Lemma load_all_data_node_set_witness :
  no_failure empty_world
  /\ exists w',
       load_all_data scenario_fixtures empty_world = (Ret tt, w')
       /\ node_count (w_graph w')
          = node_count (w_graph empty_world)
            + length (distinct (node_keys (w_graph empty_world))
                               (fixture_node_keys scenario_fixtures)).
Proof.
  split; [reflexivity|].
  destruct (load_all_data_node_set scenario_fixtures empty_world eq_refl)
    as (w' & Hrun & _ & Hcount).
  exists w'. split; [exact Hrun|exact Hcount].
Defined.

Lemma loaded_records_are_linked_witness :
  no_failure empty_world
  /\ exists w',
       load_all_data scenario_fixtures empty_world = (Ret tt, w')
       /\ match_nodes Supplier "s1" (w_graph w') <> [].
Proof.
  split; [reflexivity|].
  destruct (loaded_records_are_linked scenario_fixtures empty_world eq_refl)
    as (w' & Hrun & Hrel & _).
  exists w'. split; [exact Hrun|].
  destruct (Hrel (RelationshipRec "s1" "p1" "w1")) as (_ & _ & Hs & _).
  - left.
  - apply Hs. left.
Defined.

Section Growth.
Context {num : Type} `{Numeric num} `{GroupOrder}.

Implicit Types (g : graph num) (w : world num) (fx : fixtures num).

Lemma graph_grows_refl g : graph_grows g g.
Proof. split; exists []; by rewrite app_nil_r. Qed.

Lemma graph_grows_trans g1 g2 g3 :
  graph_grows g1 g2 -> graph_grows g2 g3 -> graph_grows g1 g3.
Proof.
  intros [(n1 & Hn1) (e1 & He1)] [(n2 & Hn2) (e2 & He2)]. split.
  - exists (n1 ++ n2). by rewrite Hn2, Hn1, app_assoc.
  - exists (e1 ++ e2). by rewrite He2, He1, app_assoc.
Qed.

Lemma merge_node_grows (l : label) (i : string)
    (upd : node num -> node num) g :
  keeps_node_key upd -> graph_grows g (merge_node l i upd g).
Proof.
  intros Hkeep. split.
  - by apply merge_node_keys.
  - exists []. unfold edge_keys.
    by rewrite (proj1 (merge_node_edges l i upd g)), app_nil_r.
Qed.

Lemma run_edge_op_grows g (o : edge_op num) :
  well_formed_edge_op o -> graph_grows g (run_edge_op g o).
Proof.
  intros Hwf. split.
  - exists []. by rewrite run_edge_op_node_keys, app_nil_r.
  - by apply run_edge_op_grow.
Qed.

(** No query of the program removes a node or an edge. *)
Lemma query_write_grows (q : query num) g : graph_grows g (query_write q g).
Proof.
  destruct q as [|r emb|r|r|r|r|r|emb|]; simpl.
  - split; exists []; by rewrite app_nil_r.
  - apply merge_node_grows, set_product_keeps_key.
  - apply merge_node_grows, set_supplier_keeps_key.
  - apply merge_node_grows, set_warehouse_keeps_key.
  - apply (run_edge_op_grows g (route_op r)), set_route_keeps_key.
  - apply (run_edge_op_grows g (supplies_op r)), id_keeps_edge_key.
  - apply (run_edge_op_grows g (stored_at_op r)), id_keeps_edge_key.
  - apply graph_grows_refl.
  - apply graph_grows_refl.
Qed.

Lemma never_shrinks_ret {A : Type} (a : A) : never_shrinks (num := num) (ret a).
Proof. intros w. apply graph_grows_refl. Qed.

Lemma never_shrinks_emit (ev : event num) : never_shrinks (emit ev).
Proof. intros w. apply graph_grows_refl. Qed.

Lemma never_shrinks_external (e : exn) :
  never_shrinks (num := num) (external e).
Proof.
  intros w. unfold external.
  destruct (w_faults w) as [|[|] rest]; apply graph_grows_refl.
Qed.

Lemma never_shrinks_bind {A B : Type} (m : M num A) (k : A -> M num B) :
  never_shrinks m -> (forall a, never_shrinks (k a)) ->
  never_shrinks (bind m k).
Proof.
  intros Hm Hk w. unfold bind. pose proof (Hm w) as Hw.
  destruct (m w) as [[a|e] w1]; simpl in Hw; [|done].
  eapply graph_grows_trans; [exact Hw|apply Hk].
Qed.

Lemma never_shrinks_for_each {A : Type} (xs : list A)
    (body : A -> M num unit) :
  (forall x, never_shrinks (body x)) -> never_shrinks (for_each xs body).
Proof.
  intros Hbody. induction xs as [|x xs IH]; simpl.
  - apply never_shrinks_ret.
  - apply never_shrinks_bind; [apply Hbody | intros _; apply IH].
Qed.

Lemma never_shrinks_try_finally {A : Type} (body : M num A)
    (cleanup : M num unit) :
  never_shrinks body -> never_shrinks cleanup ->
  never_shrinks (try_finally body cleanup).
Proof.
  intros Hbody Hclean w. unfold try_finally. pose proof (Hbody w) as Hw.
  destruct (body w) as [o w1]. simpl in Hw. pose proof (Hclean w1) as Hw1.
  destruct (cleanup w1) as [[[]|e] w2]; simpl in *;
    by eapply graph_grows_trans.
Qed.

Lemma never_shrinks_with_session {A : Type} (body : M num A) :
  never_shrinks body -> never_shrinks (with_session body).
Proof.
  intros Hbody. unfold with_session.
  apply never_shrinks_bind; [apply never_shrinks_emit|]. intros _.
  apply never_shrinks_try_finally; [done|apply never_shrinks_emit].
Qed.

Lemma never_shrinks_session_run (q : query num) :
  never_shrinks (session_run q).
Proof.
  unfold session_run.
  apply never_shrinks_bind; [apply never_shrinks_external|]. intros _.
  apply never_shrinks_bind; [apply never_shrinks_emit|]. intros _ w.
  apply query_write_grows.
Qed.

Lemma never_shrinks_run_then_ret (q : query num) :
  never_shrinks (session_run q ;; ret tt).
Proof.
  apply never_shrinks_bind; [apply never_shrinks_session_run|].
  intros _. apply never_shrinks_ret.
Qed.

Lemma never_shrinks_model_encode (text : string) :
  never_shrinks (num := num) (model_encode text).
Proof.
  unfold model_encode.
  apply never_shrinks_bind; [apply never_shrinks_external|]. intros _.
  apply never_shrinks_bind; [apply never_shrinks_emit|]. intros _ w.
  apply graph_grows_refl.
Qed.

(** X6.  Ingestion only adds: whatever the store and the embedding model
    do during a run of [load_all_data] or of the whole script, and whether
    the run ends normally or with an exception, the nodes and the edges
    that were in the graph before are in it afterwards, in the same
    places, with the same label, id, type and endpoints.  The same holds
    for each of the five loading functions. *)
Theorem ingestion_never_removes (env : gmap string string) fx :
  never_shrinks (load_products fx)
  /\ never_shrinks (load_suppliers fx)
  /\ never_shrinks (load_warehouses fx)
  /\ never_shrinks (load_transportation_routes fx)
  /\ never_shrinks (create_relationships fx)
  /\ never_shrinks (load_all_data fx)
  /\ never_shrinks (load_data_main env fx).
Proof.
  assert (Hp : never_shrinks (load_products fx)).
  { unfold load_products. apply never_shrinks_bind.
    - apply never_shrinks_with_session, never_shrinks_session_run.
    - intros _. apply never_shrinks_for_each. intros r.
      apply never_shrinks_bind; [apply never_shrinks_model_encode|].
      intros emb. apply never_shrinks_bind.
      + apply never_shrinks_with_session, never_shrinks_session_run.
      + intros _. apply never_shrinks_ret. }
  assert (Hs : never_shrinks (load_suppliers fx)).
  { apply never_shrinks_with_session, never_shrinks_for_each. intros r.
    apply never_shrinks_run_then_ret. }
  assert (Hw : never_shrinks (load_warehouses fx)).
  { apply never_shrinks_with_session, never_shrinks_for_each. intros r.
    apply never_shrinks_run_then_ret. }
  assert (Hr : never_shrinks (load_transportation_routes fx)).
  { apply never_shrinks_with_session, never_shrinks_for_each. intros r.
    apply never_shrinks_run_then_ret. }
  assert (Hc : never_shrinks (create_relationships fx)).
  { apply never_shrinks_with_session, never_shrinks_for_each. intros r.
    apply never_shrinks_bind; [apply never_shrinks_session_run|].
    intros _. apply never_shrinks_run_then_ret. }
  assert (Hall : never_shrinks (load_all_data fx)).
  { unfold load_all_data.
    apply never_shrinks_bind; [exact Hp|]. intros _.
    apply never_shrinks_bind; [exact Hs|]. intros _.
    apply never_shrinks_bind; [exact Hw|]. intros _.
    apply never_shrinks_bind; [exact Hr|]. intros _. exact Hc. }
  split; [exact Hp|]. split; [exact Hs|]. split; [exact Hw|].
  split; [exact Hr|]. split; [exact Hc|]. split; [exact Hall|].
  unfold load_data_main. apply never_shrinks_bind.
  - unfold load_data_module. apply never_shrinks_bind.
    + unfold graph_database_driver.
      apply never_shrinks_bind; [apply never_shrinks_external|].
      intros _. apply never_shrinks_emit.
    + intros _. apply never_shrinks_bind; [apply never_shrinks_external|].
      intros _. apply never_shrinks_emit.
  - intros _. apply never_shrinks_bind; [exact Hall|].
    intros _. apply never_shrinks_emit.
Qed.

End Growth.

Section FailFast.
Context {num : Type} `{Numeric num} `{GroupOrder}.

Lemma for_each_stops {A : Type} (Q : A -> query num) (xs : list A)
    (k : nat) (g : graph num) (rest : list bool) enc gem ms
    (tr : list (event num)) :
  k < length xs ->
  for_each xs (fun x => session_run (Q x) ;; ret tt)
    (World g (replicate k false ++ true :: rest) enc gem ms tr)
  = (Raise StoreError,
     World (fold_left (fun g0 x => query_write (Q x) g0) (take k xs) g)
           rest enc gem ms
           (tr ++ ((fun x => EvRun (Q x)) <$> take k xs))).
Proof.
  revert xs g tr. induction k as [|k IH]; intros [|x xs] g tr Hk;
    simpl in Hk; try lia.
  - cbn. by rewrite app_nil_r.
  - cbn [replicate app for_each]. unfold bind at 1.
    replace ((session_run (Q x) ;; ret tt)
               (World g (false :: replicate k false ++ true :: rest)
                      enc gem ms tr))
      with (@Ret unit tt,
            World (query_write (Q x) g)
                  (replicate k false ++ true :: rest) enc gem ms
                  (tr ++ [EvRun (Q x)])) by reflexivity.
    rewrite (IH xs (query_write (Q x) g) (tr ++ [EvRun (Q x)])) by lia.
    cbn [take fold_left fmap list_fmap]. by rewrite <- app_assoc.
Qed.

Lemma session_loop_stops {A : Type} (Q : A -> query num) (xs : list A)
    (k : nat) (g : graph num) (rest : list bool) enc gem ms
    (tr : list (event num)) :
  k < length xs ->
  with_session (for_each xs (fun x => session_run (Q x) ;; ret tt))
    (World g (replicate k false ++ true :: rest) enc gem ms tr)
  = (Raise StoreError,
     World (fold_left (fun g0 x => query_write (Q x) g0) (take k xs) g)
           rest enc gem ms
           (tr ++ [EvSessionOpen]
               ++ ((fun x => EvRun (Q x)) <$> take k xs)
               ++ [EvSessionClose])).
Proof.
  intros Hk. unfold with_session, bind at 1, try_finally.
  cbn [emit w_graph w_faults w_encode w_gemini w_messages w_trace].
  rewrite (for_each_stops Q xs k g rest enc gem ms _ Hk).
  cbn. by rewrite <- !app_assoc.
Qed.

(** X7.  A loader stops at the first query the store refuses and keeps
    what it wrote before: when the query number [k] of [load_suppliers],
    of [load_warehouses] or of [load_transportation_routes] fails, the
    function raises the store error, the graph holds the writes of the
    first [k] records and of no later one, and the session has been
    released. *)
Theorem loaders_stop_at_the_first_failure (fx : fixtures num) (k : nat)
    (g : graph num) (rest : list bool) enc gem ms (tr : list (event num)) :
  (k < length (suppliers fx) ->
   load_suppliers fx
     (World g (replicate k false ++ true :: rest) enc gem ms tr)
   = (Raise StoreError,
      World (fold_left (fun g0 r => q_merge_supplier r g0)
                       (take k (suppliers fx)) g)
            rest enc gem ms
            (tr ++ [EvSessionOpen]
                ++ ((fun r => EvRun (QMergeSupplier r))
                      <$> take k (suppliers fx))
                ++ [EvSessionClose])))
  /\ (k < length (warehouses fx) ->
      load_warehouses fx
        (World g (replicate k false ++ true :: rest) enc gem ms tr)
      = (Raise StoreError,
         World (fold_left (fun g0 r => q_merge_warehouse r g0)
                          (take k (warehouses fx)) g)
               rest enc gem ms
               (tr ++ [EvSessionOpen]
                   ++ ((fun r => EvRun (QMergeWarehouse r))
                         <$> take k (warehouses fx))
                   ++ [EvSessionClose])))
  /\ (k < length (routes fx) ->
      load_transportation_routes fx
        (World g (replicate k false ++ true :: rest) enc gem ms tr)
      = (Raise StoreError,
         World (fold_left (fun g0 r => q_merge_route r g0)
                          (take k (routes fx)) g)
               rest enc gem ms
               (tr ++ [EvSessionOpen]
                   ++ ((fun r => EvRun (QMergeRoute r))
                         <$> take k (routes fx))
                   ++ [EvSessionClose]))).
Proof.
  split; [|split]; intros Hk.
  - exact (session_loop_stops QMergeSupplier (suppliers fx) k g rest
             enc gem ms tr Hk).
  - exact (session_loop_stops QMergeWarehouse (warehouses fx) k g rest
             enc gem ms tr Hk).
  - exact (session_loop_stops QMergeRoute (routes fx) k g rest
             enc gem ms tr Hk).
Qed.

End FailFast.

Lemma loaders_stop_at_the_first_failure_witness :
  0 < length (suppliers scenario_fixtures)
  /\ load_suppliers scenario_fixtures
       (World empty_graph (replicate 0 false ++ true :: [])
              scenario_encode scenario_gemini None [])
     = (Raise StoreError,
        World (fold_left (fun g0 r => q_merge_supplier r g0)
                         (take 0 (suppliers scenario_fixtures)) empty_graph)
              [] scenario_encode scenario_gemini None
              ([] ++ [EvSessionOpen]
                  ++ ((fun r => EvRun (QMergeSupplier r))
                        <$> take 0 (suppliers scenario_fixtures))
                  ++ [EvSessionClose])).
Proof.
  assert (Hk : 0 < length (suppliers scenario_fixtures)) by (simpl; lia).
  split; [exact Hk|].
  exact (proj1 (loaders_stop_at_the_first_failure scenario_fixtures 0
                  empty_graph [] scenario_encode scenario_gemini None [])
               Hk).
Defined.

(** * Further properties of the scripts *)

Section ReadOnly.
Context {num : Type} `{Numeric num} `{GroupOrder}.

Implicit Types (w : world num) (gl : app_globals).

Lemma read_only_ret {A : Type} (a : A) : read_only (num := num) (ret a).
Proof. by intros w. Qed.

Lemma read_only_raise {A : Type} (e : exn) :
  read_only (num := num) (raise (A := A) e).
Proof. by intros w. Qed.

Lemma read_only_emit (ev : event num) : read_only (emit ev).
Proof. by intros w. Qed.

Lemma read_only_external (e : exn) : read_only (num := num) (external e).
Proof. intros w. unfold external. by destruct (w_faults w) as [|[|] rest]. Qed.

Lemma read_only_bind {A B : Type} (m : M num A) (k : A -> M num B) :
  read_only m -> (forall a, read_only (k a)) -> read_only (bind m k).
Proof.
  intros Hm Hk w. unfold bind. specialize (Hm w).
  destruct (m w) as [[a|e] w1]; simpl in Hm; [|done].
  by rewrite (Hk a w1).
Qed.

Lemma read_only_try_except {A : Type} (body : M num A)
    (handler : exn -> M num A) :
  read_only body -> (forall e, read_only (handler e)) ->
  read_only (try_except body handler).
Proof.
  intros Hb Hh w. unfold try_except. specialize (Hb w).
  destruct (body w) as [[a|e] w1]; simpl in Hb; [done|].
  by rewrite (Hh e w1).
Qed.

Lemma read_only_try_finally {A : Type} (body : M num A)
    (cleanup : M num unit) :
  read_only body -> read_only cleanup -> read_only (try_finally body cleanup).
Proof.
  intros Hb Hc w. unfold try_finally. specialize (Hb w).
  destruct (body w) as [o w1]. simpl in Hb. specialize (Hc w1).
  destruct (cleanup w1) as [[u|e] w2]; simpl in *; congruence.
Qed.

Lemma read_only_with_session {A : Type} (body : M num A) :
  read_only body -> read_only (with_session body).
Proof.
  intros Hb. unfold with_session.
  apply read_only_bind; [apply read_only_emit|]. intros _.
  apply read_only_try_finally; [done|apply read_only_emit].
Qed.

(** A query that writes nothing leaves the graph alone. *)
Lemma read_only_session_run (q : query num) :
  (forall g, query_write q g = g) -> read_only (session_run q).
Proof.
  intros Hq. unfold session_run.
  apply read_only_bind; [apply read_only_external|]. intros _.
  apply read_only_bind; [apply read_only_emit|]. intros _ w. apply Hq.
Qed.

Lemma read_only_model_encode (text : string) :
  read_only (num := num) (model_encode text).
Proof.
  unfold model_encode.
  apply read_only_bind; [apply read_only_external|]. intros _.
  apply read_only_bind; [apply read_only_emit|]. by intros _ w.
Qed.

Lemma read_only_generate_content (prompt : string) :
  read_only (num := num) (generate_content prompt).
Proof.
  unfold generate_content.
  apply read_only_bind; [apply read_only_emit|]. intros _ w.
  by destruct (w_gemini w prompt).
Qed.

Lemma read_only_init_messages : read_only (num := num) init_messages.
Proof. intros w. unfold init_messages. by destruct (w_messages w). Qed.

Lemma read_only_append_message (m : message) :
  read_only (num := num) (append_message m).
Proof. intros w. unfold append_message. by destruct (w_messages w). Qed.

Lemma read_only_driver (u un pw : option string) :
  read_only (num := num) (graph_database_driver u un pw).
Proof.
  unfold graph_database_driver.
  apply read_only_bind; [apply read_only_external|]. intros _.
  apply read_only_emit.
Qed.

Lemma read_only_retrieval_failed (e : exn) :
  read_only (num := num) (retrieval_failed e).
Proof.
  unfold retrieval_failed.
  apply read_only_bind; [apply read_only_emit|]. intros _.
  apply read_only_ret.
Qed.

Lemma read_only_get_relevant_context gl (question : string) :
  read_only (num := num) (get_relevant_context gl question).
Proof.
  intros w. unfold get_relevant_context.
  pose proof (read_only_driver (uri gl) (username gl) (password gl) w) as Hd.
  destruct (graph_database_driver _ _ _ w) as [[[]|e] w1]; simpl in Hd;
    rewrite <- Hd.
  - apply read_only_try_finally; [|apply read_only_emit].
    apply read_only_try_except; [|apply read_only_retrieval_failed].
    unfold retrieve_in_session. apply read_only_with_session.
    apply read_only_bind.
    + unfold encode_question.
      destruct (embedding_model gl);
        [apply read_only_model_encode | apply read_only_raise].
    + intros emb. apply read_only_bind; [by apply read_only_session_run|].
      intros result. apply read_only_ret.
  - apply read_only_retrieval_failed.
Qed.

Lemma read_only_generate_gemini_response (context question : string) :
  read_only (num := num) (generate_gemini_response context question).
Proof.
  unfold generate_gemini_response. apply read_only_try_except.
  - apply read_only_bind; [apply read_only_generate_content|].
    intros [text|]; apply read_only_ret.
  - intros e. apply read_only_bind; [apply read_only_emit|]. intros _.
    apply read_only_ret.
Qed.

Lemma read_only_app_module (env : gmap string string) :
  read_only (num := num) (app_module env).
Proof.
  unfold app_module.
  apply read_only_bind; [apply read_only_init_messages|]. intros _.
  apply read_only_bind; [apply read_only_emit|]. intros _.
  apply read_only_bind; [|intros loaded; apply read_only_ret].
  apply read_only_try_except.
  - apply read_only_bind; [apply read_only_external|]. intros _.
    apply read_only_bind; [apply read_only_emit|]. intros _.
    apply read_only_ret.
  - intros e. apply read_only_bind; [apply read_only_emit|]. intros _.
    apply read_only_ret.
Qed.

Lemma read_only_test_neo4j_connection (env : gmap string string) :
  read_only (num := num) (test_neo4j_connection env).
Proof.
  intros w. unfold test_neo4j_connection.
  pose proof (read_only_driver (env !! "NEO4J_URI") (env !! "NEO4J_USERNAME")
                (env !! "NEO4J_PASSWORD") w) as Hd.
  destruct (graph_database_driver _ _ _ w) as [[[]|e] w1]; simpl in Hd;
    rewrite <- Hd.
  - apply read_only_try_finally; [|apply read_only_emit].
    apply read_only_try_except; [|intros e; apply read_only_emit].
    apply read_only_with_session.
    apply read_only_bind; [by apply read_only_session_run|]. intros _.
    apply read_only_emit.
  - apply read_only_bind; [apply read_only_emit|]. intros _.
    apply read_only_raise.
Qed.

Lemma read_only_test_gemini_connection (env : gmap string string) :
  read_only (num := num) (test_gemini_connection env).
Proof.
  unfold test_gemini_connection.
  apply read_only_try_except; [|intros e; apply read_only_emit].
  destruct (truthy (env !! "GEMINI_API_KEY")); [|apply read_only_raise].
  apply read_only_bind; [apply read_only_emit|]. intros _.
  apply read_only_bind; [apply read_only_generate_content|].
  intros [text|]; [|apply read_only_emit].
  apply read_only_bind; [apply read_only_emit|]. intros _.
  apply read_only_emit.
Qed.

(** X8.  The chat application and the two connection tests never write
    to the store: whatever fails or succeeds, the graph after a retrieval
    call, a generation call, a whole execution of [app.py] with or without
    a question, [test_neo4j_connection], [test_gemini_connection] and the
    main block of [test_connection.py] is the graph before it. *)
Theorem chat_and_tests_are_read_only (gl : app_globals)
    (env : gmap string string) (context question : string)
    (prompt : option string) :
  read_only (num := num) (get_relevant_context gl question)
  /\ read_only (num := num) (generate_gemini_response context question)
  /\ read_only (num := num) (chat_turn gl question)
  /\ read_only (num := num) (app_script env prompt)
  /\ read_only (num := num) (test_neo4j_connection env)
  /\ read_only (num := num) (test_gemini_connection env)
  /\ read_only (num := num) (test_connection_main env).
Proof.
  assert (Hturn : forall gl0 p, read_only (num := num) (chat_turn gl0 p)).
  { intros gl0 p. unfold chat_turn.
    apply read_only_bind; [apply read_only_append_message|]. intros _.
    apply read_only_bind; [apply read_only_get_relevant_context|].
    intros ctx.
    apply read_only_bind; [apply read_only_generate_gemini_response|].
    intros response. apply read_only_append_message. }
  split; [apply read_only_get_relevant_context|].
  split; [apply read_only_generate_gemini_response|].
  split; [apply Hturn|].
  split; [|split; [apply read_only_test_neo4j_connection|]].
  - unfold app_script. apply read_only_bind; [apply read_only_app_module|].
    intros gl0. destruct prompt as [p|]; [|apply read_only_ret].
    destruct (truthy (Some p)); [apply Hturn|apply read_only_ret].
  - split; [apply read_only_test_gemini_connection|].
    unfold test_connection_main.
    apply read_only_bind; [apply read_only_test_neo4j_connection|].
    intros _. apply read_only_test_gemini_connection.
Qed.

End ReadOnly.

Section Joins.
Context {num : Type} `{Numeric num} `{GroupOrder}.

Implicit Types (g : graph num) (q : list num).

(** *** What the optional matches find *)

Lemma elem_of_optional_rows (found : list (node num)) (n : node num) :
  Some n ∈ optional_rows found <-> n ∈ found.
Proof.
  destruct found as [|m found]; cbn [optional_rows].
  - rewrite list_elem_of_singleton, elem_of_nil. split; [done|tauto].
  - rewrite list_elem_of_fmap. split.
    + by intros (x & [= ->] & Hx).
    + intros Hn. by exists n.
Qed.

Lemma elem_of_neighbour g (l : label) (k : nat) (n : node num) :
  n ∈ neighbour g l k <-> g_nodes g !! k = Some n /\ n_label n = l.
Proof.
  unfold neighbour. destruct (g_nodes g !! k) as [m|].
  - case_bool_decide as Hl.
    + rewrite list_elem_of_singleton. split; [by intros ->|].
      by intros [[= ->] _].
    + rewrite elem_of_nil. split; [done|]. by intros [[= ->] ?].
  - rewrite elem_of_nil. split; [done|]. by intros [? _].
Qed.

Lemma elem_of_suppliers_of g (p : nat) (n : node num) :
  Some n ∈ suppliers_of g p <-> supplies_to g p n.
Proof.
  unfold suppliers_of, supplies_to.
  rewrite elem_of_optional_rows, list_elem_of_bind. split.
  - intros (e & Hn & He).
    destruct (bool_decide (e_type e = SUPPLIES) && Nat.eqb (e_dst e) p)
      eqn:Hmatch; [|by apply elem_of_nil in Hn].
    apply andb_true_iff in Hmatch as [Ht%bool_decide_eq_true Hd%Nat.eqb_eq].
    apply elem_of_neighbour in Hn as [Hsrc Hl]. by exists e.
  - intros (e & He & Ht & Hd & Hsrc & Hl). exists e. split; [|done].
    rewrite (bool_decide_eq_true_2 _ Ht), (proj2 (Nat.eqb_eq _ _) Hd).
    simpl. by apply elem_of_neighbour.
Qed.

Lemma elem_of_warehouses_of g (p : nat) (n : node num) :
  Some n ∈ warehouses_of g p <-> stores g p n.
Proof.
  unfold warehouses_of, stores.
  rewrite elem_of_optional_rows, list_elem_of_bind. split.
  - intros (e & Hn & He).
    destruct (bool_decide (e_type e = STORED_AT) && Nat.eqb (e_src e) p)
      eqn:Hmatch; [|by apply elem_of_nil in Hn].
    apply andb_true_iff in Hmatch as [Ht%bool_decide_eq_true Hd%Nat.eqb_eq].
    apply elem_of_neighbour in Hn as [Hdst Hl]. by exists e.
  - intros (e & He & Ht & Hd & Hdst & Hl). exists e. split; [|done].
    rewrite (bool_decide_eq_true_2 _ Ht), (proj2 (Nat.eqb_eq _ _) Hd).
    simpl. by apply elem_of_neighbour.
Qed.

Lemma elem_of_joined_rows g (ps : list (scored num))
    (k : option string * option string) (se : supplier_entry)
    (we : warehouse_entry) :
  (k, se, we) ∈ joined_rows g ps
  <-> exists p s wn,
        p ∈ ps /\ group_key p = k
        /\ s ∈ suppliers_of g (sc_id p) /\ se = SupplierEntry (prop_of "name" s)
        /\ wn ∈ warehouses_of g (sc_id p)
        /\ we = WarehouseEntry (prop_of "name" wn) (prop_of "location" wn).
Proof.
  unfold joined_rows. rewrite list_elem_of_bind. split.
  - intros (p & Hr & Hp).
    apply list_elem_of_bind in Hr as (s & Hr & Hs).
    apply list_elem_of_bind in Hr as (wn & Hr & Hw).
    apply list_elem_of_singleton in Hr. injection Hr as Hk Hse Hwe.
    subst k se we. by exists p, s, wn.
  - intros (p & s & wn & Hp & Hk & Hs & Hse & Hw & Hwe). subst k se we.
    exists p. split; [|done].
    apply list_elem_of_bind. exists s. split; [|done].
    apply list_elem_of_bind. exists wn. split; [|done].
    by apply list_elem_of_singleton.
Qed.

Lemma elem_of_aggregate
    (rows : list ((option string * option string)
                  * supplier_entry * warehouse_entry)) (r : record) :
  r ∈ aggregate rows ->
  NoDup (rec_suppliers r) /\ NoDup (rec_warehouses r)
  /\ (forall se, se ∈ rec_suppliers r
                 <-> exists we, (record_key r, se, we) ∈ rows)
  /\ (forall we, we ∈ rec_warehouses r
                 <-> exists se, (record_key r, se, we) ∈ rows).
Proof.
  unfold aggregate. rewrite list_elem_of_fmap. intros ([k1 k2] & -> & _).
  unfold record_key.
  cbn [rec_suppliers rec_warehouses product_name product_description
       fst snd].
  set (k := (k1, k2)).
  split; [apply distinct_NoDup|]. split; [apply distinct_NoDup|]. split.
  - intros se. rewrite elem_of_distinct, list_elem_of_fmap. split.
    + intros [([[k' se'] we] & -> & Hrow) _].
      apply list_elem_of_filter in Hrow as [Hkey Hrow]. simpl in Hkey.
      subst k'. by exists we.
    + intros (we & Hrow). split; [|apply not_elem_of_nil].
      exists (k, se, we). split; [done|].
      by apply list_elem_of_filter.
  - intros we. rewrite elem_of_distinct, list_elem_of_fmap. split.
    + intros [([[k' se] we'] & -> & Hrow) _].
      apply list_elem_of_filter in Hrow as [Hkey Hrow]. simpl in Hkey.
      subst k'. by exists se.
    + intros (se & Hrow). split; [|apply not_elem_of_nil].
      exists (k, se, we). split; [done|].
      by apply list_elem_of_filter.
Qed.

Lemma suppliers_of_inhabited g (p : nat) : exists s, s ∈ suppliers_of g p.
Proof.
  pose proof (suppliers_of_nonempty g p) as Hne.
  destruct (suppliers_of g p) as [|s ss]; [done|]. exists s. by left.
Qed.

Lemma warehouses_of_inhabited g (p : nat) : exists wn, wn ∈ warehouses_of g p.
Proof.
  pose proof (warehouses_of_nonempty g p) as Hne.
  destruct (warehouses_of g p) as [|s ss]; [done|]. exists s. by left.
Qed.

(** X9.  The two collected lists of a returned row hold what the graph
    links to the ranked products of that row, and nothing else: a supplier
    name is listed exactly when a ranked product with the name and the
    description of the row has a [SUPPLIES] relationship from a Supplier
    node of that name, and a warehouse with its location is listed exactly
    when such a product has a [STORED_AT] relationship to a Warehouse node
    with that name and that location.  Neither list repeats an entry. *)
Theorem collected_lists_follow_the_relationships q g (r : record) :
  r ∈ q_similarity q g ->
  NoDup (rec_suppliers r) /\ NoDup (rec_warehouses r)
  /\ (forall name : string,
        SupplierEntry (Some name) ∈ rec_suppliers r
        <-> exists p n,
              p ∈ ranked q g /\ group_key p = record_key r
              /\ supplies_to g (sc_id p) n
              /\ n_props n !! "name" = Some name)
  /\ (forall (name : string) (location : option string),
        WarehouseEntry (Some name) location ∈ rec_warehouses r
        <-> exists p n,
              p ∈ ranked q g /\ group_key p = record_key r
              /\ stores g (sc_id p) n
              /\ n_props n !! "name" = Some name
              /\ n_props n !! "location" = location).
Proof.
  intros Hr. unfold q_similarity in Hr.
  destruct (elem_of_aggregate _ r Hr) as (Hnds & Hndw & Hsup & Hwh).
  split; [done|]. split; [done|]. split.
  - intros name. rewrite Hsup. split.
    + intros (we & Hrow).
      apply elem_of_joined_rows in Hrow
        as (p & s & wn & Hp & Hkey & Hs & Hse & _).
      destruct s as [n|]; [|discriminate]. injection Hse as Hname.
      exists p, n. split; [done|]. split; [done|].
      split; [by apply elem_of_suppliers_of|done].
    + intros (p & n & Hp & Hkey & Hlink & Hname).
      destruct (warehouses_of_inhabited g (sc_id p)) as (wn & Hwn).
      exists (WarehouseEntry (prop_of "name" wn) (prop_of "location" wn)).
      apply elem_of_joined_rows. exists p, (Some n), wn.
      split; [done|]. split; [done|].
      split; [by apply elem_of_suppliers_of|].
      split; [simpl; by rewrite Hname|done].
  - intros name location. rewrite Hwh. split.
    + intros (se & Hrow).
      apply elem_of_joined_rows in Hrow
        as (p & s & wn & Hp & Hkey & _ & _ & Hw & Hwe).
      destruct wn as [n|]; [|discriminate]. injection Hwe as Hname Hloc.
      exists p, n. split; [done|]. split; [done|].
      split; [by apply elem_of_warehouses_of|done].
    + intros (p & n & Hp & Hkey & Hlink & Hname & Hloc).
      destruct (suppliers_of_inhabited g (sc_id p)) as (s & Hs).
      exists (SupplierEntry (prop_of "name" s)).
      apply elem_of_joined_rows. exists p, s, (Some n).
      split; [done|]. split; [done|]. split; [done|]. split; [done|].
      split; [by apply elem_of_warehouses_of|].
      simpl. by rewrite Hname, Hloc.
Qed.

(** *** Vectors of the wrong size *)

Lemma elem_of_candidates_embedding q (k : nat) (ns : list (node num))
    (n : node num) (e : list num) :
  n ∈ ns -> n_label n = Product -> n_embedding n = Some e ->
  exists x, x ∈ candidates_from q k ns /\ sc_similarity x = similarity e q.
Proof.
  revert k. induction ns as [|m ns IH]; intros k Hn Hl He.
  - by apply elem_of_nil in Hn.
  - apply elem_of_cons in Hn as [<-|Hn].
    + simpl. rewrite Hl, He. eexists. split; [by left|done].
    + destruct (IH (S k) Hn Hl He) as (x & Hx & Hsim).
      exists x. split; [|done]. simpl.
      destruct (n_label m), (n_embedding m); try done; by right.
Qed.

Lemma insert_desc_null_head (x : scored num) (l : list (scored num)) :
  sc_similarity x = None \/ (exists y, head l = Some y /\ sc_similarity y = None) ->
  exists y, head (insert_desc x l) = Some y /\ sc_similarity y = None.
Proof.
  intros [Hx|(y & Hy & Hnull)].
  - destruct l as [|y l]; simpl; [by exists x|].
    rewrite Hx. destruct (sc_similarity y) eqn:Hy; simpl.
    + by exists x.
    + by exists y.
  - destruct l as [|y' l]; [done|]. injection Hy as ->. simpl.
    rewrite Hnull. simpl. by exists y.
Qed.

Lemma order_by_similarity_desc_null_head (l : list (scored num))
    (x : scored num) :
  x ∈ l -> sc_similarity x = None ->
  exists y, head (order_by_similarity_desc l) = Some y
            /\ sc_similarity y = None.
Proof.
  induction l as [|z l IH]; intros Hx Hnull.
  - by apply elem_of_nil in Hx.
  - simpl. apply insert_desc_null_head.
    apply elem_of_cons in Hx as [<-|Hx]; [by left|right]. by apply IH.
Qed.

(** X10.  A stored vector longer than the question vector takes the top
    of the ranking: the reduce expression reads the question vector past
    its end, the score of that product is [null], and [null] comes first
    in a descending order.  So as soon as one Product node has such a
    vector, the first ranked row has no score. *)
Theorem longer_vector_ranks_first q g (n : node num) (e : list num) :
  n ∈ g_nodes g -> n_label n = Product -> n_embedding n = Some e ->
  length q < length e ->
  similarity e q = None
  /\ exists x, ranked q g !! 0 = Some x /\ sc_similarity x = None.
Proof.
  intros Hn Hl He Hlen.
  pose proof (similarity_null_when_longer e q Hlen) as Hnull.
  split; [done|].
  destruct (elem_of_candidates_embedding q 0 (g_nodes g) n e Hn Hl He)
    as (x & Hx & Hsim).
  rewrite Hnull in Hsim.
  destruct (order_by_similarity_desc_null_head (candidates q g) x Hx Hsim)
    as (y & Hy & Hynull).
  exists y. split; [|done]. unfold ranked.
  destruct (order_by_similarity_desc (candidates q g)) as [|y' l];
    [done|]. simpl in Hy. by injection Hy as ->.
Qed.

(** X11.  The ranking has no threshold: with three embedded products or
    fewer, every one of them is ranked, whatever the question is. *)
Theorem small_catalogue_is_ranked_whole q g :
  length (candidates q g) <= 3 ->
  ranked q g ≡ₚ candidates q g
  /\ forall n e, n ∈ g_nodes g -> n_label n = Product ->
                 n_embedding n = Some e ->
                 exists x, x ∈ ranked q g /\ sc_similarity x = similarity e q.
Proof.
  intros Hlen.
  assert (Hperm : ranked q g ≡ₚ candidates q g).
  { unfold ranked. rewrite take_ge.
    - apply order_by_similarity_desc_perm.
    - by rewrite (Permutation_length (order_by_similarity_desc_perm _)). }
  split; [done|]. intros n e Hn Hl He.
  destruct (elem_of_candidates_embedding q 0 (g_nodes g) n e Hn Hl He)
    as (x & Hx & Hsim).
  exists x. split; [|done]. by rewrite Hperm.
Qed.

End Joins.

Lemma collected_lists_follow_the_relationships_witness :
  headphones_row
    ∈ q_similarity (scenario_encode scenario_question) scenario_graph
  /\ NoDup (rec_suppliers headphones_row)
  /\ exists p n,
       p ∈ ranked (scenario_encode scenario_question) scenario_graph
       /\ group_key p = record_key headphones_row
       /\ supplies_to scenario_graph (sc_id p) n
       /\ n_props n !! "name" = Some "Acme".
Proof.
  assert (Hrow : headphones_row
                 ∈ q_similarity (scenario_encode scenario_question)
                     scenario_graph).
  { assert (Hq : exists rest,
              q_similarity (scenario_encode scenario_question) scenario_graph
              = headphones_row :: rest) by (eexists; by vm_compute).
    destruct Hq as (rest & ->). by left. }
  split; [exact Hrow|].
  destruct (collected_lists_follow_the_relationships
              (scenario_encode scenario_question) scenario_graph
              headphones_row Hrow) as (Hnd & _ & Hsup & _).
  split; [exact Hnd|].
  apply (proj1 (Hsup "Acme")). by left.
Defined.

Lemma longer_vector_ranks_first_witness :
  (Node Product {["id" := "p1"]} ∅ (Some [1; 2; 3]%Z) : node Z)
    ∈ g_nodes oversized_graph
  /\ length (scenario_encode scenario_question) < length [1; 2; 3]%Z
  /\ similarity [1; 2; 3]%Z (scenario_encode scenario_question) = None
  /\ exists x,
       ranked (scenario_encode scenario_question) oversized_graph !! 0
       = Some x
       /\ sc_similarity x = None.
Proof.
  assert (Hin : (Node Product {["id" := "p1"]} ∅ (Some [1; 2; 3]%Z) : node Z)
                  ∈ g_nodes oversized_graph) by (by left).
  assert (Hlen : length (scenario_encode scenario_question)
                 < length [1; 2; 3]%Z) by (simpl; lia).
  split; [exact Hin|]. split; [exact Hlen|].
  exact (longer_vector_ranks_first (scenario_encode scenario_question)
           oversized_graph _ [1; 2; 3]%Z Hin eq_refl eq_refl Hlen).
Defined.

Lemma small_catalogue_is_ranked_whole_witness :
  length (candidates (scenario_encode scenario_question) scenario_graph) <= 3
  /\ ranked (scenario_encode scenario_question) scenario_graph
     ≡ₚ candidates (scenario_encode scenario_question) scenario_graph.
Proof.
  assert (Hlen : length (candidates (scenario_encode scenario_question)
                           scenario_graph) <= 3)
    by (vm_compute; lia).
  split; [exact Hlen|].
  exact (proj1 (small_catalogue_is_ranked_whole
                  (scenario_encode scenario_question) scenario_graph Hlen)).
Defined.

Section Answers.
Context {num : Type} `{Numeric num} `{GroupOrder}.

Implicit Types (w : world num) (gl : app_globals).

(** *** The sentinel *)

(** X12.  The sentinel "No relevant context found." is returned for a
    result without rows and for no other result: the text made from one
    row or more begins with a [Product:] line. *)
Theorem sentinel_means_no_row (result : list record) :
  render_context result = "No relevant context found." <-> result = [].
Proof.
  split; [|by intros ->].
  destruct result as [|r rest]; [done|]. intros Hs. exfalso.
  unfold render_context in Hs.
  assert (Hlines : exists l rest',
            (r :: rest) ≫= render_record
            = ("Product: " +:+ py_str (product_name r)) :: l :: rest')
    by (unfold render_record; simpl; eauto).
  destruct Hlines as (l & rest' & Hlines). rewrite Hlines in Hs.
  unfold join in Hs. simpl in Hs. discriminate.
Qed.

(** *** Where a retrieval can fail *)

(** X13.  A retrieval makes three external calls, in this order: it
    creates the driver, it encodes the question inside the session, it
    runs the query.  When the first fails nothing was opened and nothing
    is closed; when the second or the third fails the session is released
    first, then the error is logged, then the driver is closed; each
    failure gives "Error retrieving context." and no call is tried
    again.  When none fails the result is the rendering of the rows of
    the query for the encoded question. *)
Theorem retrieval_failure_points gl (question : string) (g : graph num)
    (rest : list bool) enc gem ms (tr : list (event num)) :
  embedding_model gl = true ->
  get_relevant_context gl question (World g (true :: rest) enc gem ms tr)
  = (Ret "Error retrieving context.",
     World g rest enc gem ms
       (tr ++ [EvError "Error retrieving context" StoreError]))
  /\ get_relevant_context gl question
       (World g (false :: true :: rest) enc gem ms tr)
     = (Ret "Error retrieving context.",
        World g rest enc gem ms
          (tr ++ [EvDriverOpen (uri gl) (username gl) (password gl);
                  EvSessionOpen; EvSessionClose;
                  EvError "Error retrieving context" ModelError;
                  EvDriverClose]))
  /\ get_relevant_context gl question
       (World g (false :: false :: true :: rest) enc gem ms tr)
     = (Ret "Error retrieving context.",
        World g rest enc gem ms
          (tr ++ [EvDriverOpen (uri gl) (username gl) (password gl);
                  EvSessionOpen; EvEncode question; EvSessionClose;
                  EvError "Error retrieving context" StoreError;
                  EvDriverClose]))
  /\ get_relevant_context gl question
       (World g (false :: false :: false :: rest) enc gem ms tr)
     = (Ret (render_context (q_similarity (enc question) g)),
        World g rest enc gem ms
          (tr ++ [EvDriverOpen (uri gl) (username gl) (password gl);
                  EvSessionOpen; EvEncode question;
                  EvRun (QSimilarity (enc question));
                  EvSessionClose; EvDriverClose])).
Proof.
  destruct gl as [u un pw key model]. simpl. intros ->.
  repeat split; cbn -[q_similarity render_context];
    by rewrite <- ?app_assoc.
Qed.

(** *** The reply *)

Section Strip.
Variable sp : list Ascii.ascii -> bool.
Hypothesis sp_width : forall ch, sp ch = true -> 1 <= length ch <= 3.



End Strip.









(** *** An execution without a question *)

(** X15.  When nothing was submitted, or the empty string, an execution
    of [app.py] only initialises: the conversation is created if it was
    not there and otherwise kept, the generation client is configured
    and the embedding model is loaded (or the failure of the load is
    printed), and neither the store nor the generation model is
    called. *)
Theorem idle_run_calls_nothing (env : gmap string string)
    (prompt : option string) w :
  truthy prompt = false ->
  exists w' t,
    app_script env prompt w = (Ret tt, w')
    /\ w_messages w' = Some (default [] (w_messages w))
    /\ w_trace w' = w_trace w ++ EvConfigure (env !! "GEMINI_API_KEY") :: t
    /\ (t = [EvModelLoad] \/ t = [EvError "Error loading model" ModelError]).
Proof.
  intros Hp.
  destruct prompt as [[|c p]|]; simpl in Hp; try discriminate;
    destruct w as [g [|[|] faults] enc gem [ms|] tr]; cbn;
    eexists _, _; rewrite <- ?app_assoc;
    (split; [reflexivity|]); (split; [reflexivity|]);
    (split; [reflexivity|]); eauto.
Qed.

(** *** The shape of the conversation *)

Lemma turns_app (ms ms' : list message) :
  turns ms = true -> turns ms' = true -> turns (ms ++ ms') = true.
Proof.
  revert ms. fix IH 1.
  intros [|[[] c1] [|[[] c2] ms]]; simpl; try done.
  apply IH.
Qed.

Lemma turns_length_even (ms : list message) :
  turns ms = true -> Nat.even (length ms) = true.
Proof.
  revert ms. fix IH 1.
  intros [|[[] c1] [|[[] c2] ms]]; simpl; try done.
  apply IH.
Qed.

(** X16.  The conversation is always made of whole turns: if the history
    is a sequence of user messages each followed by an assistant message
    (as the empty history is), an execution of [app.py] ends normally and
    leaves such a sequence again, two messages longer when a question was
    submitted and as long as before when none was.  It therefore always
    has an even number of messages. *)
Theorem conversation_stays_in_turns (env : gmap string string)
    (prompt : option string) w :
  turns (default [] (w_messages w)) = true ->
  exists w' ms',
    app_script env prompt w = (Ret tt, w')
    /\ w_messages w' = Some ms'
    /\ turns ms' = true
    /\ Nat.even (length ms') = true
    /\ length ms'
       = length (default [] (w_messages w)) + (if truthy prompt then 2 else 0).
Proof.
  intros Hturns.
  destruct (app_module_result env w) as (gl & w0 & Hmod & Hms0 & _).
  assert (Hidle : exists w' ms',
            (Ret tt, w0) = (@Ret unit tt, w')
            /\ w_messages w' = Some ms'
            /\ turns ms' = true
            /\ Nat.even (length ms') = true
            /\ length ms' = length (default [] (w_messages w)) + 0).
  { exists w0, (default [] (w_messages w)).
    split; [done|]. split; [done|]. split; [done|].
    split; [by apply turns_length_even|lia]. }
  unfold app_script, bind at 1. rewrite Hmod.
  destruct prompt as [p|]; [|exact Hidle].
  destruct (truthy (Some p)) eqn:Hp; [|exact Hidle].
  destruct (append_message_result (Message User p) w0 _ Hms0)
    as (wu & Huser & Hmsu & _).
  destruct (get_relevant_context_result gl p wu)
    as (context & wc & Hctx & Hmsc & _).
  destruct (generate_gemini_response_result context p wc)
    as (response & wr & Hgen & Hmsr & _).
  assert (Hmsr' : w_messages wr
                  = Some (default [] (w_messages w) ++ [Message User p]))
    by by rewrite Hmsr, Hmsc.
  destruct (append_message_result (Message Assistant response) wr _ Hmsr')
    as (w' & Hasst & Hms' & _).
  exists w', (default [] (w_messages w)
              ++ [Message User p; Message Assistant response]).
  split.
  { unfold chat_turn, bind. by rewrite Huser, Hctx, Hgen, Hasst. }
  split; [by rewrite Hms', <- app_assoc|].
  assert (Hnew : turns (default [] (w_messages w)
                        ++ [Message User p; Message Assistant response])
                 = true) by by apply turns_app.
  split; [done|]. split; [by apply turns_length_even|].
  rewrite length_app. simpl. lia.
Qed.

End Answers.

Lemma retrieval_failure_points_witness :
  embedding_model scenario_globals = true
  /\ get_relevant_context scenario_globals scenario_question
       (World scenario_graph (false :: true :: []) scenario_encode
              scenario_gemini None [])
     = (Ret "Error retrieving context.",
        World scenario_graph [] scenario_encode scenario_gemini None
          ([] ++ [EvDriverOpen (uri scenario_globals)
                               (username scenario_globals)
                               (password scenario_globals);
                  EvSessionOpen; EvSessionClose;
                  EvError "Error retrieving context" ModelError;
                  EvDriverClose])).
Proof.
  split; [reflexivity|].
  exact (proj1 (proj2 (retrieval_failure_points scenario_globals
                         scenario_question scenario_graph [] scenario_encode
                         scenario_gemini None [] eq_refl))).
Defined.

Lemma idle_run_calls_nothing_witness :
  truthy (Some "") = false
  /\ exists w' t,
       app_script partial_env (Some "") session_world = (Ret tt, w')
       /\ w_messages w' = Some (default [] (w_messages session_world))
       /\ w_trace w'
          = w_trace session_world
            ++ EvConfigure (partial_env !! "GEMINI_API_KEY") :: t
       /\ (t = [EvModelLoad]
           \/ t = [EvError "Error loading model" ModelError]).
Proof.
  split; [reflexivity|].
  exact (idle_run_calls_nothing partial_env (Some "") session_world eq_refl).
Defined.

Lemma conversation_stays_in_turns_witness :
  turns (default [] (w_messages session_world)) = true
  /\ exists w' ms',
       app_script partial_env (Some scenario_question) session_world
       = (Ret tt, w')
       /\ w_messages w' = Some ms'
       /\ turns ms' = true
       /\ Nat.even (length ms') = true
       /\ length ms'
          = length (default [] (w_messages session_world))
            + (if truthy (Some scenario_question) then 2 else 0).
Proof.
  split; [reflexivity|].
  exact (conversation_stays_in_turns partial_env (Some scenario_question)
           session_world eq_refl).
Defined.

Section ConnectionTests.
Context {num : Type} `{Numeric num} `{GroupOrder}.

Implicit Types (w : world num).

(** X17.  [test_neo4j_connection] has two ways to end.  When the driver
    cannot be created, the error is printed and the [finally] clause then
    fails on the name [driver], which was never bound: the function
    raises [NameError].  In every other run it returns: a failing query
    is printed and swallowed, the one driver that was opened is closed,
    and no session stays open. *)
Theorem store_test_outcomes (env : gmap string string) w :
  (forall rest, w_faults w = true :: rest ->
     exists w',
       test_neo4j_connection env w = (Raise (NameError "driver"), w')
       /\ w_trace w'
          = w_trace w ++ [EvError "Neo4j connection error" StoreError])
  /\ ((forall rest, w_faults w <> true :: rest) ->
      exists w' t,
        test_neo4j_connection env w = (Ret tt, w')
        /\ w_trace w' = w_trace w ++ t
        /\ own_connection t
        /\ count_event is_driver_open t = 1).
Proof.
  destruct w as [g faults enc gem ms tr]. split.
  - intros rest Hf. simpl in Hf. subst faults. cbn. by eexists.
  - intros Hf.
    destruct faults as [|[|] faults]; [|by destruct (Hf faults)|];
      [|destruct faults as [|[|] faults]];
      cbn; eexists _, _; (split; [reflexivity|]);
      (split; [rewrite <- ?app_assoc; reflexivity|]);
      unfold own_connection, drivers_released, sessions_released;
      cbn; repeat split; lia.
Qed.

(** X18.  [test_gemini_connection] never raises.  With [GEMINI_API_KEY]
    unset or empty it calls nothing and prints the [ValueError] it raised
    itself; with a key it configures the client with that key and calls
    the model once, with the prompt "Hello!", and whatever the model does
    is only printed. *)
Theorem gemini_test_outcomes (env : gmap string string) w :
  exists w',
    test_gemini_connection env w = (Ret tt, w')
    /\ (truthy (env !! "GEMINI_API_KEY") = false ->
        w_trace w'
        = w_trace w
          ++ [EvError "Gemini API connection error"
                (ValueError
                   "GEMINI_API_KEY environment variable is not set")])
    /\ (truthy (env !! "GEMINI_API_KEY") = true ->
        exists t,
          w_trace w'
          = w_trace w
            ++ EvConfigure (env !! "GEMINI_API_KEY")
               :: EvGenerate "Hello!" :: t
          /\ count_event is_generate t = 0
          /\ count_event is_configure t = 0).
Proof.
  destruct w as [g faults enc gem ms tr].
  unfold test_gemini_connection.
  destruct (truthy (env !! "GEMINI_API_KEY")) eqn:Hkey.
  - unfold generate_content, try_except, bind, emit.
    cbn [w_graph w_faults w_encode w_gemini w_messages w_trace].
    destruct (gem "Hello!") as [| |text]; cbn -[strip];
      eexists; (split; [reflexivity|]); (split; [done|]); intros _;
      eexists; rewrite <- ?app_assoc; (split; [reflexivity|]); by cbn.
  - cbn. eexists. split; [reflexivity|]. split; [done|]. done.
Qed.

Lemma store_test_trace (env : gmap string string) w :
  (forall rest, w_faults w <> true :: rest) ->
  exists w' t,
    test_neo4j_connection env w = (Ret tt, w')
    /\ w_trace w' = w_trace w ++ t
    /\ count_event is_driver_open t = 1
    /\ count_event is_driver_close t = 1
    /\ count_event is_generate t = 0.
Proof.
  destruct w as [g faults enc gem ms tr]. intros Hf.
  destruct faults as [|[|] faults]; [|by destruct (Hf faults)|];
    [|destruct faults as [|[|] faults]];
    cbn; eexists _, _; (split; [reflexivity|]);
    (split; [rewrite <- ?app_assoc; reflexivity|]); by cbn.
Qed.

Lemma gemini_test_trace (env : gmap string string) w :
  exists w' t,
    test_gemini_connection env w = (Ret tt, w')
    /\ w_trace w' = w_trace w ++ t
    /\ count_event is_driver_open t = 0
    /\ count_event is_driver_close t = 0
    /\ count_event is_generate t
       = if truthy (env !! "GEMINI_API_KEY") then 1 else 0.
Proof.
  destruct w as [g faults enc gem ms tr].
  unfold test_gemini_connection.
  destruct (truthy (env !! "GEMINI_API_KEY")) eqn:Hkey.
  - unfold generate_content, try_except, bind, emit.
    cbn [w_graph w_faults w_encode w_gemini w_messages w_trace].
    destruct (gem "Hello!") as [| |text]; cbn -[strip];
      eexists _, _; (split; [reflexivity|]);
      (split; [rewrite <- ?app_assoc; reflexivity|]); by cbn.
  - cbn. eexists _, _. split; [reflexivity|]. split; [reflexivity|].
    by cbn.
Qed.

(** X19.  The main block of [test_connection.py] runs the store test and
    then the Gemini test.  When the driver cannot be created the script
    ends in the store test with [NameError] and the Gemini test is not
    run; in every other run both tests are run and the script ends
    normally, with one driver opened and closed and one call to the
    generation model when a key is set, none otherwise. *)
Theorem connection_tests_in_sequence (env : gmap string string) w :
  (forall rest, w_faults w = true :: rest ->
     exists w',
       test_connection_main env w = (Raise (NameError "driver"), w')
       /\ w_trace w'
          = w_trace w ++ [EvError "Neo4j connection error" StoreError])
  /\ ((forall rest, w_faults w <> true :: rest) ->
      exists w' t,
        test_connection_main env w = (Ret tt, w')
        /\ w_trace w' = w_trace w ++ t
        /\ count_event is_driver_open t = 1
        /\ count_event is_driver_close t = 1
        /\ count_event is_generate t
           = if truthy (env !! "GEMINI_API_KEY") then 1 else 0).
Proof.
  split.
  - destruct w as [g faults enc gem ms tr].
    intros rest Hf. simpl in Hf. subst faults.
    unfold test_connection_main, bind.
    change (test_neo4j_connection env
              (World g (true :: rest) enc gem ms tr))
      with (@Raise unit (NameError "driver"),
            World g rest enc gem ms
              (tr ++ [EvError "Neo4j connection error" StoreError])).
    by eexists.
  - intros Hf.
    destruct (store_test_trace env w Hf)
      as (w1 & t1 & Hrun1 & Ht1 & Ho1 & Hc1 & Hg1).
    destruct (gemini_test_trace env w1)
      as (w2 & t2 & Hrun2 & Ht2 & Ho2 & Hc2 & Hg2).
    exists w2, (t1 ++ t2). unfold test_connection_main, bind.
    rewrite Hrun1, Hrun2. split; [done|].
    split; [by rewrite Ht2, Ht1, app_assoc|].
    rewrite !count_event_app, Ho1, Ho2, Hc1, Hc2, Hg1, Hg2.
    by repeat split.
Qed.

Lemma load_data_module_trace (env : gmap string string) w :
  exists t,
    w_trace (load_data_module env w).2 = w_trace w ++ t
    /\ count_event is_driver_close t = 0
    /\ ((forall rest, w_faults w <> true :: rest) ->
        count_event is_driver_open t = 1).
Proof.
  destruct w as [g faults enc gem ms tr].
  destruct faults as [|[|] faults].
  - cbn. eexists. split; [rewrite <- ?app_assoc; reflexivity|].
    split; by cbn.
  - cbn. exists []. rewrite app_nil_r. split; [done|]. split; [done|].
    intros Hf. by destruct (Hf faults).
  - destruct faults as [|[|] faults]; cbn; eexists;
      (split; [rewrite <- ?app_assoc; reflexivity|]); split; by cbn.
Qed.

(** X20.  The ingestion script closes the shared driver only on the way
    out of a complete load: in a run that ends with an exception, from
    the module-level statements or from any loading function, no driver
    is closed, and the driver is left open if it had been created. *)
Theorem failed_ingestion_never_closes_driver (env : gmap string string)
    (fx : fixtures num) w (e : exn) w' :
  load_data_main env fx w = (Raise e, w') ->
  count_event is_driver_close (w_trace w')
  = count_event is_driver_close (w_trace w)
  /\ ((forall rest, w_faults w <> true :: rest) ->
      count_event is_driver_open (w_trace w')
      = S (count_event is_driver_open (w_trace w))).
Proof.
  unfold load_data_main, bind.
  destruct (load_data_module_trace env w) as (t0 & Ht0 & Hc0 & Ho0).
  destruct (load_data_module env w) as [[[]|e0] w1]; simpl in Ht0.
  - destruct (load_all_data_scoped fx w1) as (t & Ht & _ & Ho & Hc).
    destruct (load_all_data fx w1) as [[[]|e1] w2]; [discriminate|].
    intros [= -> ->]. simpl in Ht.
    rewrite Ht, Ht0, !count_event_app, Hc0, Hc, Ho.
    split; [lia|]. intros Hf. rewrite (Ho0 Hf). lia.
  - intros [= -> ->]. rewrite Ht0, !count_event_app, Hc0.
    split; [lia|]. intros Hf. rewrite (Ho0 Hf). lia.
Qed.

End ConnectionTests.

Lemma failed_ingestion_never_closes_driver_witness :
  load_data_main partial_env scenario_fixtures failing_store_world
  = (Raise StoreError,
     World empty_graph [] scenario_encode scenario_gemini None
       [EvDriverOpen (Some "bolt://localhost:7687") (Some "neo4j") None;
        EvModelLoad; EvSessionOpen; EvSessionClose])
  /\ count_event (num := Z) is_driver_close
       [EvDriverOpen (Some "bolt://localhost:7687") (Some "neo4j") None;
        EvModelLoad; EvSessionOpen; EvSessionClose]
     = count_event (num := Z) is_driver_close [].
Proof.
  assert (Hrun : load_data_main partial_env scenario_fixtures
                   failing_store_world
                 = (Raise StoreError,
                    World empty_graph [] scenario_encode scenario_gemini None
                      [EvDriverOpen (Some "bolt://localhost:7687")
                                    (Some "neo4j") None;
                       EvModelLoad; EvSessionOpen; EvSessionClose]))
    by (by vm_compute).
  split; [exact Hrun|].
  exact (proj1 (failed_ingestion_never_closes_driver partial_env
                  scenario_fixtures failing_store_world StoreError
                  (World empty_graph [] scenario_encode scenario_gemini None
                     [EvDriverOpen (Some "bolt://localhost:7687")
                                   (Some "neo4j") None;
                      EvModelLoad; EvSessionOpen; EvSessionClose])
                  Hrun)).
Defined.

Lemma store_test_outcomes_witness :
  w_faults failing_store_world <> true :: []
  /\ exists w' t,
       test_neo4j_connection partial_env failing_store_world = (Ret tt, w')
       /\ w_trace w' = w_trace failing_store_world ++ t
       /\ own_connection t
       /\ count_event is_driver_open t = 1.
Proof.
  split; [discriminate|].
  apply (proj2 (store_test_outcomes partial_env failing_store_world)).
  intros rest. discriminate.
Defined.

Lemma gemini_test_outcomes_witness :
  truthy (partial_env !! "GEMINI_API_KEY") = false
  /\ exists w',
       test_gemini_connection partial_env session_world = (Ret tt, w')
       /\ w_trace w'
          = w_trace session_world
            ++ [EvError "Gemini API connection error"
                  (ValueError
                     "GEMINI_API_KEY environment variable is not set")].
Proof.
  assert (Hkey : truthy (partial_env !! "GEMINI_API_KEY") = false)
    by reflexivity.
  split; [exact Hkey|].
  destruct (gemini_test_outcomes partial_env session_world)
    as (w' & Hrun & Hunset & _).
  exists w'. split; [exact Hrun|]. exact (Hunset Hkey).
Defined.

Lemma connection_tests_in_sequence_witness :
  w_faults (World scenario_graph [true] scenario_encode scenario_gemini
                  None [])
  = true :: []
  /\ exists w',
       test_connection_main partial_env
         (World scenario_graph [true] scenario_encode scenario_gemini None [])
       = (Raise (NameError "driver"), w')
       /\ w_trace w'
          = [] ++ [EvError "Neo4j connection error" StoreError].
Proof.
  split; [reflexivity|].
  exact (proj1 (connection_tests_in_sequence partial_env
                  (World scenario_graph [true] scenario_encode
                         scenario_gemini None []))
               [] eq_refl).
Defined.

Section IngestionOrder.
Context {num : Type} `{Numeric num} `{GroupOrder}.
Variable enc : string -> list num.

Lemma runs_with_bind (m1 m2 : M num unit) (f1 f2 : graph num -> graph num)
    (t1 t2 : list (event num)) :
  runs_with enc m1 f1 t1 -> runs_with enc m2 f2 t2 ->
  runs_with enc (m1 ;; m2) (fun g => f2 (f1 g)) (t1 ++ t2).
Proof.
  intros H1 H2 g gem ms tr. unfold bind.
  by rewrite H1, H2, app_assoc.
Qed.

Lemma runs_with_for_each {A : Type} (xs : list A) (body : A -> M num unit)
    (f : A -> graph num -> graph num) (ev : A -> list (event num)) :
  (forall x, runs_with enc (body x) (f x) (ev x)) ->
  runs_with enc (for_each xs body)
            (fun g => fold_left (fun g0 x => f x g0) xs g) (xs ≫= ev).
Proof.
  intros Hbody. induction xs as [|x xs IH]; intros g gem ms tr.
  - cbn. by rewrite app_nil_r.
  - cbn [for_each]. unfold bind. rewrite Hbody, IH.
    cbn [fold_left]. by rewrite <- app_assoc.
Qed.

Lemma runs_with_session (m : M num unit) (f : graph num -> graph num)
    (t : list (event num)) :
  runs_with enc m f t -> runs_with enc (with_session m) f (in_session t).
Proof.
  intros Hm g gem ms tr. unfold with_session, bind, try_finally, emit.
  cbn [w_graph w_faults w_encode w_gemini w_messages w_trace].
  rewrite Hm. cbn. unfold in_session. by rewrite <- !app_assoc.
Qed.

Lemma runs_with_query (q : query num) :
  runs_with enc (session_run q ;; ret tt) (query_write q) [EvRun q].
Proof. by intros g gem ms tr. Qed.

Lemma runs_with_queries {A : Type} (Q : A -> query num) (xs : list A) :
  runs_with enc
    (with_session (for_each xs (fun x => session_run (Q x) ;; ret tt)))
    (fun g => fold_left (fun g0 x => query_write (Q x) g0) xs g)
    (in_session ((fun x => EvRun (Q x)) <$> xs)).
Proof.
  assert (Hev : xs ≫= (fun x => [EvRun (Q x)])
                = (fun x => EvRun (Q x)) <$> xs).
  { induction xs as [|x xs IH]; [done|]. cbn. by f_equal. }
  rewrite <- Hev. apply runs_with_session.
  apply (runs_with_for_each xs (fun x => session_run (Q x) ;; ret tt)
           (fun x => query_write (Q x)) (fun x => [EvRun (Q x)])).
  intros x. apply runs_with_query.
Qed.

Lemma runs_with_products (fx : fixtures num) :
  runs_with enc (load_products fx)
    (fun g => fold_left
                (fun g0 p => q_merge_product p (enc (p_description p)) g0)
                (products fx) (q_create_index g))
    (in_session [EvRun QCreateIndex]
     ++ (p ← products fx;
         EvEncode (p_description p)
         :: in_session [EvRun (QMergeProduct p (enc (p_description p)))])).
Proof.
  assert (Hloop :
    runs_with enc
      (for_each (products fx) (fun product =>
         embedding <- model_encode (p_description product) ;;
         with_session (session_run (QMergeProduct product embedding)) ;;
         ret tt))
      (fun g => fold_left
                  (fun g0 p => q_merge_product p (enc (p_description p)) g0)
                  (products fx) g)
      (p ← products fx;
       EvEncode (p_description p)
       :: in_session [EvRun (QMergeProduct p (enc (p_description p)))])).
  { apply (runs_with_for_each (products fx) _
             (fun p => q_merge_product p (enc (p_description p)))
             (fun p => EvEncode (p_description p)
                       :: in_session
                            [EvRun (QMergeProduct p
                                      (enc (p_description p)))])).
    intros p g gem ms tr. cbn -[q_merge_product]. unfold in_session.
    by rewrite <- !app_assoc. }
  intros g gem ms tr. unfold load_products, bind at 1.
  replace (with_session (session_run QCreateIndex)
             (World g [] enc gem ms tr))
    with (@Ret (list record) [],
          World (q_create_index g) [] enc gem ms
                (tr ++ in_session [EvRun QCreateIndex])).
  - rewrite Hloop. by rewrite <- app_assoc.
  - cbn. unfold in_session. by rewrite <- !app_assoc.
Qed.

Lemma runs_with_relationships (fx : fixtures num) :
  runs_with enc (create_relationships fx)
    (fun g => fold_left
                (fun g0 r => q_merge_stored_at r (q_merge_supplies r g0))
                (relationships fx) g)
    (in_session (r ← relationships fx;
                 [EvRun (QMergeSupplies r); EvRun (QMergeStoredAt r)])).
Proof.
  unfold create_relationships. apply runs_with_session.
  apply (runs_with_for_each (relationships fx) _
           (fun r g0 => q_merge_stored_at r (q_merge_supplies r g0))
           (fun r => [EvRun (QMergeSupplies r); EvRun (QMergeStoredAt r)])).
  intros r g gem ms tr.
  cbn -[q_merge_supplies q_merge_stored_at]. by rewrite <- !app_assoc.
Qed.

(** X21.  A complete load makes its calls in one fixed order: the vector
    index first; then every product in the order of the file, its
    description being encoded before a session is opened for its upsert;
    then the suppliers, the warehouses, the routes and the relationship
    records, each kind in a single session, and for each relationship
    record the [SUPPLIES] merge before the [STORED_AT] merge.  Every
    node is thus written before the first relationship is looked for. *)
Theorem ingestion_order (fx : fixtures num) (w : world num) :
  no_failure w -> w_encode w = enc ->
  (load_all_data fx w).1 = Ret tt
  /\ w_trace (load_all_data fx w).2 = w_trace w ++ ingestion_events enc fx.
Proof.
  destruct w as [g faults enc0 gem ms tr]. unfold no_failure. simpl.
  intros -> ->.
  pose proof (runs_with_bind _ _ _ _ _ _
                (runs_with_queries QMergeRoute (routes fx))
                (runs_with_relationships fx)) as H4.
  pose proof (runs_with_bind _ _ _ _ _ _
                (runs_with_queries QMergeWarehouse (warehouses fx)) H4)
    as H3.
  pose proof (runs_with_bind _ _ _ _ _ _
                (runs_with_queries QMergeSupplier (suppliers fx)) H3)
    as H2.
  pose proof (runs_with_bind _ _ _ _ _ _ (runs_with_products fx) H2) as H1.
  unfold load_all_data, load_suppliers, load_warehouses,
    load_transportation_routes.
  rewrite (H1 g gem ms tr). cbn [fst snd w_trace].
  split; [done|]. unfold ingestion_events. by rewrite <- !app_assoc.
Qed.

End IngestionOrder.

Lemma ingestion_order_witness :
  no_failure empty_world
  /\ w_encode empty_world = scenario_encode
  /\ (load_all_data scenario_fixtures empty_world).1 = Ret tt
  /\ w_trace (load_all_data scenario_fixtures empty_world).2
     = w_trace empty_world
       ++ ingestion_events scenario_encode scenario_fixtures.
Proof.
  split; [reflexivity|]. split; [reflexivity|].
  exact (ingestion_order scenario_encode scenario_fixtures empty_world
           eq_refl eq_refl).
Defined.
